(** * Orbit: the record transform buffer and the updatable request flow

  A shallow embedding of two parts of orbit.js:

  - [Buffer]: packages/@orbit/record-cache/src/record-transform-buffer.ts,
    the class RecordTransformBuffer (state, tracked sessions, inverse
    relationship index);
  - [Updatable]: the [@updatable] source interface ([update] and
    [__update__]).

  JavaScript objects used as dictionaries are association lists in insertion
  order (module [Dict]); methods are functions from the object's state to a
  completion (normal or thrown) and the state left behind. *)

From Stdlib Require Import String Ascii List Bool Arith Lia.
Import ListNotations.
Local Open Scope string_scope.
Local Open Scope list_scope.

(* ------------------------------------------------------------------------- *)
(** ** JavaScript strings: [split] *)

Module JsString.

(** [s.startsWith(p)] *)
Fixpoint startsWith (p s : string) : bool :=
  match p, s with
  | EmptyString, _ => true
  | String a p', String b s' => if Ascii.eqb a b then startsWith p' s' else false
  | String _ _, EmptyString => false
  end.

Fixpoint rev_append (acc s : string) : string :=
  match acc with
  | EmptyString => s
  | String c acc' => rev_append acc' (String c s)
  end.

(** The scan of [s.split(sep)] for a non-empty [sep]: [cur] holds the piece
    being read (reversed), [skip] the characters of a matched separator
    still to pass over. *)
Fixpoint split_scan (sep : string) (skip : nat) (cur s : string) : list string :=
  match s with
  | EmptyString => [rev_append cur EmptyString]
  | String c s' =>
      match skip with
      | S k => split_scan sep k cur s'
      | O =>
          if startsWith sep s
          then rev_append cur EmptyString
                 :: split_scan sep (String.length sep - 1) EmptyString s'
          else split_scan sep 0 (String c cur) s'
      end
  end.

(** [!s.includes(c)] for a character [c] *)
Fixpoint lacks (c : ascii) (s : string) : bool :=
  match s with
  | EmptyString => true
  | String a s' => if Ascii.eqb c a then false else lacks c s'
  end.

(** [s.includes(sep)] *)
Fixpoint includes (sep s : string) : bool :=
  match s with
  | EmptyString => startsWith sep EmptyString
  | String _ s' => startsWith sep s || includes sep s'
  end.

(** [s.split(sep)], [sep] not empty. *)
Definition split (sep s : string) : list string :=
  split_scan sep 0 EmptyString s.

End JsString.

(* ------------------------------------------------------------------------- *)
(** ** Plain objects used as dictionaries

  [Dict<V>] of @orbit/utils is an object with string keys.  The keys the
  buffer writes are serialized identities, never array indices, so
  [Object.keys] lists them in insertion order: assigning to an existing key
  keeps its place, assigning to a new key appends it. *)

Module Dict.
Section Dict.
Context {V : Type}.

Definition t : Type := list (string * V).

(** [{}] *)
Definition empty : t := [].

(** [d[k]]; [None] is JavaScript's [undefined] *)
Fixpoint get (k : string) (d : t) : option V :=
  match d with
  | [] => None
  | (k', v) :: d' => if String.eqb k k' then Some v else get k d'
  end.

(** [d[k] = v] *)
Fixpoint set (k : string) (v : V) (d : t) : t :=
  match d with
  | [] => [(k, v)]
  | (k', v') :: d' =>
      if String.eqb k k' then (k, v) :: d' else (k', v') :: set k v d'
  end.

(** [delete d[k]] *)
Fixpoint delete (k : string) (d : t) : t :=
  match d with
  | [] => []
  | (k', v') :: d' =>
      if String.eqb k k' then delete k d' else (k', v') :: delete k d'
  end.

(** [Object.keys(d)] *)
Definition keys (d : t) : list string := map fst d.

(** [Object.keys(d).map(k => d[k])] *)
Definition values (d : t) : list V := map snd d.

(** An object holds each key once. *)
Definition wf (d : t) : Prop := NoDup (keys d).

End Dict.
Arguments t : clear implicits.
End Dict.

(* ------------------------------------------------------------------------- *)
(** ** Completions: a call returns normally or throws *)

Inductive Exn : Type :=
| Error (message : string).

Inductive Completion (A : Type) : Type :=
| Normal (a : A)
| Throw (e : Exn).
Arguments Normal {A} a.
Arguments Throw {A} e.

Definition threw {A : Type} (c : Completion A) : bool :=
match c with
| Throw _ => true
| Normal _ => false
end.

(* ------------------------------------------------------------------------- *)
(** ** RecordTransformBuffer (record-transform-buffer.ts) *)

Module Buffer.

(** [RecordIdentity]: [{ type, id }] *)
Record RecordIdentity : Type := {
  type : string;
  id : string
}.

(** A relationship's data: to-one (an optional identity) or to-many. *)
Inductive RelationshipValue : Type :=
| ToOne (related : option RecordIdentity)
| ToMany (related : list RecordIdentity).

(** [RecordRelationshipIdentity]: one edge of the inverse index *)
Record RecordRelationshipIdentity : Type := {
  record : RecordIdentity;
  relationship : string;
  relatedRecord : RecordIdentity
}.

(** [Record] of @orbit/records; its [type] and [id] are the fields of the
    [RecordIdentity] it extends.  Attribute values are opaque to the buffer. *)
Record Record_ (Value : Type) : Type := {
  identity : RecordIdentity;
  attributes : option (Dict.t Value);
  relationships : option (Dict.t RelationshipValue);
  keys : option (Dict.t string)
}.
Arguments identity {Value} _.
Arguments attributes {Value} _.
Arguments relationships {Value} _.
Arguments keys {Value} _.

(** [serializeRecordIdentity] and [deserializeRecordIdentity] are imported
    from @orbit/records, which is not among the sources: an interface that
    the buffer is given. *)
Class RecordSerializer : Type := {
  serializeRecordIdentity : RecordIdentity -> string;
  deserializeRecordIdentity : string -> RecordIdentity
}.

(** [objectValues] is imported from @orbit/utils.  Applied to a dictionary it
    lists the values under the object's keys ([objectValues] below).
    [getRecordsSync] applies it to an entry of the record dictionary instead
    ([undefined], [null] or a record): what it does then is left to the
    interface. *)
Class ObjectValues (Value : Type) : Type := {
  objectValuesOfEntry :
    option (option (Record_ Value)) -> Completion (list (Record_ Value))
}.

Section Buffer.

Context {Value : Type}.
Context {serializer : RecordSerializer}.
Context {utils : ObjectValues Value}.

Local Abbreviation Record_ := (Record_ Value).

(** Modelled from the spec: [objectValues] of @orbit/utils is not among the
    sources; a read lists all the edges of a record's dictionary, the values
    under the object's keys. *)
Definition objectValues {V : Type} (obj : Dict.t V) : list V := Dict.values obj.

Definition serializeRecordRelationshipIdentity
    (rri : RecordRelationshipIdentity) : string :=
  (serializeRecordIdentity (record rri) ++ "::" ++ relationship rri)%string.

(** [const [record, relationship] = rri.split('::')]: the first two pieces.
    Every key the buffer writes comes from
    [serializeRecordRelationshipIdentity] and so has both. *)
Definition deserializeRecordRelationshipIdentity
    (rri : string) : RecordIdentity * string :=
  let pieces := JsString.split "::" rri in
  (deserializeRecordIdentity (nth 0 pieces ""), nth 1 pieces "").

Record RecordTransformBufferState : Type := {
  records : Dict.t (option Record_);
  inverseRelationships : Dict.t (Dict.t (option RecordRelationshipIdentity))
}.

(** [{ records: {}, inverseRelationships: {} }] *)
Definition emptyState : RecordTransformBufferState :=
  {| records := Dict.empty; inverseRelationships := Dict.empty |}.

(** The buffer's own fields; [_delta] is [undefined] outside a session. *)
Record RecordTransformBuffer : Type := {
  _state : RecordTransformBufferState;
  _delta : option RecordTransformBufferState
}.

(** [RecordChangeset]: every field is optional. *)
Record RecordChangeset : Type := {
  setRecords : option (list Record_);
  removeRecords : option (list RecordIdentity);
  addInverseRelationships : option (list RecordRelationshipIdentity);
  removeInverseRelationships : option (list RecordRelationshipIdentity)
}.

Definition emptyChangeset : RecordChangeset :=
  {| setRecords := None; removeRecords := None;
     addInverseRelationships := None; removeInverseRelationships := None |}.

(** [xs = xs ?? []; xs.push(x)] *)
Definition push {A : Type} (xs : option (list A)) (x : A) : option (list A) :=
  match xs with
  | Some l => Some (l ++ [x])
  | None => Some [x]
  end.

(** [x] is listed in an optional field. *)
Definition listed {A : Type} (x : A) (xs : option (list A)) : Prop :=
  match xs with
  | Some l => In x l
  | None => False
  end.

(** *** Methods: state passing with completions *)

Definition M (A : Type) : Type :=
  RecordTransformBuffer -> Completion A * RecordTransformBuffer.

Definition ret {A : Type} (a : A) : M A := fun b => (Normal a, b).

Definition bind {A B : Type} (m : M A) (k : A -> M B) : M B :=
  fun b =>
    match m b with
    | (Normal a, b') => k a b'
    | (Throw e, b') => (Throw e, b')
    end.

Definition throw {A : Type} (e : Exn) : M A := fun b => (Throw e, b).

Notation "x <- m ;; k" := (bind m (fun x => k))
  (at level 61, m at next level, right associativity).
Notation "m ;; k" := (bind m (fun _ => k))
  (at level 61, right associativity).

(** [for (let x of xs) body(x)] *)
Fixpoint forEach {A : Type} (xs : list A) (body : A -> M unit) : M unit :=
  match xs with
  | [] => ret tt
  | x :: xs' => body x ;; forEach xs' body
  end.

Definition setState (s : RecordTransformBufferState) : M unit :=
  fun b => (Normal tt, {| _state := s; _delta := _delta b |}).

Definition setDelta (d : option RecordTransformBufferState) : M unit :=
  fun b => (Normal tt, {| _state := _state b; _delta := d |}).

(** [reset(state = { records: {}, inverseRelationships: {} })] *)
Definition reset (state : option RecordTransformBufferState) : M unit :=
  setState match state with
           | Some s => s
           | None => emptyState
           end.

(** [new RecordTransformBuffer(settings)]: the constructor calls [reset()]. *)
Definition newBuffer : RecordTransformBuffer :=
  {| _state := emptyState; _delta := None |}.

Definition startTrackingChanges : M unit :=
  setDelta (Some emptyState).

(** First loop of [stopTrackingChanges], one key of [records]. *)
Definition collectRecord (records : Dict.t (option Record_))
    (changeset : RecordChangeset) (rid : string) : RecordChangeset :=
  match Dict.get rid records with
  | Some None =>
      {| setRecords := setRecords changeset;
         removeRecords :=
           push (removeRecords changeset) (deserializeRecordIdentity rid);
         addInverseRelationships := addInverseRelationships changeset;
         removeInverseRelationships := removeInverseRelationships changeset |}
  | Some (Some rv) =>
      {| setRecords := push (setRecords changeset) rv;
         removeRecords := removeRecords changeset;
         addInverseRelationships := addInverseRelationships changeset;
         removeInverseRelationships := removeInverseRelationships changeset |}
  | None => changeset (* a key of [Object.keys(records)] is present *)
  end.

(** Inner loop of the second loop, one key of [rels]. *)
Definition collectRelationship (relatedRecord : RecordIdentity)
    (rels : Dict.t (option RecordRelationshipIdentity))
    (changeset : RecordChangeset) (rel : string) : RecordChangeset :=
  let '(record, relationship) := deserializeRecordRelationshipIdentity rel in
  let rri := {| record := record; relationship := relationship;
                relatedRecord := relatedRecord |} in
  match Dict.get rel rels with
  | Some None =>
      {| setRecords := setRecords changeset;
         removeRecords := removeRecords changeset;
         addInverseRelationships := addInverseRelationships changeset;
         removeInverseRelationships :=
           push (removeInverseRelationships changeset) rri |}
  | Some (Some _) =>
      {| setRecords := setRecords changeset;
         removeRecords := removeRecords changeset;
         addInverseRelationships :=
           push (addInverseRelationships changeset) rri;
         removeInverseRelationships := removeInverseRelationships changeset |}
  | None => changeset
  end.

(** Second loop, one key of [inverseRelationships]. *)
Definition collectRelated
    (inverseRelationships : Dict.t (Dict.t (option RecordRelationshipIdentity)))
    (changeset : RecordChangeset) (rid : string) : RecordChangeset :=
  match Dict.get rid inverseRelationships with
  | Some rels =>
      fold_left (collectRelationship (deserializeRecordIdentity rid) rels)
                (Dict.keys rels) changeset
  | None => changeset
  end.

(** The changeset [stopTrackingChanges] builds from the delta. *)
Definition changesetOf (delta : RecordTransformBufferState) : RecordChangeset :=
  let changeset :=
    fold_left (collectRecord (records delta))
              (Dict.keys (records delta)) emptyChangeset in
  fold_left (collectRelated (inverseRelationships delta))
            (Dict.keys (inverseRelationships delta)) changeset.

Definition stopTrackingChanges : M RecordChangeset :=
  fun b =>
    match _delta b with
    | None =>
        throw (Error "Changes are not being tracked. Call 'startTrackingChanges' before 'stopTrackingChanges'") b
    | Some delta =>
        (setDelta None ;; ret (changesetOf delta)) b
    end.

(** *** Records *)

Definition getRecordSync (identity : RecordIdentity)
    (b : RecordTransformBuffer) : option Record_ :=
  match Dict.get (serializeRecordIdentity identity) (records (_state b)) with
  | Some (Some r) => Some r
  | _ => None (* [?? undefined] *)
  end.

(** [getRecordsSync(typeOrIdentities?)]: a type, a list of identities, or
    nothing.  For a string, [records[type]] is looked up among the keys the
    dictionary itself holds: a name that every object inherits
    ([constructor], [toString], [__proto__]) is outside this model, and what
    [objectValues] lists for an entry is taken at the declared return type
    [Record[]]. *)
Definition getRecordsSync
    (typeOrIdentities : option (string + list RecordIdentity))
    (b : RecordTransformBuffer) : Completion (list Record_) :=
  match typeOrIdentities with
  | Some (inl type) =>
      objectValuesOfEntry (Dict.get type (records (_state b)))
  | Some (inr identities) =>
      Normal
        (fold_left
           (fun records i =>
              match getRecordSync i b with
              | Some record => records ++ [record]
              | None => records
              end)
           identities [])
  | None => Throw (Error "typeOrIdentities must be specified in getRecordsSync")
  end.

(** [this._state.records[key] = value] and [delete this._state.records[key]] *)
Definition updateStateRecords
    (f : Dict.t (option Record_) -> Dict.t (option Record_)) : M unit :=
  fun b =>
    setState {| records := f (records (_state b));
                inverseRelationships := inverseRelationships (_state b) |} b.

(** [if (this._delta) { this._delta.records[key] = value }] *)
Definition trackRecord (key : string) (value : option Record_) : M unit :=
  fun b =>
    match _delta b with
    | Some delta =>
        setDelta (Some {| records := Dict.set key value (records delta);
                          inverseRelationships := inverseRelationships delta |}) b
    | None => ret tt b
    end.

Definition setRecordSync (record : Record_) : M unit :=
  updateStateRecords
    (Dict.set (serializeRecordIdentity (identity record)) (Some record)) ;;
  trackRecord (serializeRecordIdentity (identity record)) (Some record).

Definition setRecordsSync (records : list Record_) : M unit :=
  forEach records setRecordSync.

Definition removeRecordSync (recordIdentity : RecordIdentity)
    : M (option Record_) :=
  fun b =>
    match getRecordSync recordIdentity b with
    | Some record =>
        (updateStateRecords
           (Dict.delete (serializeRecordIdentity (identity record))) ;;
         trackRecord (serializeRecordIdentity (identity record)) None ;;
         ret (Some record)) b
    | None => ret None b
    end.

Fixpoint removeRecordsLoop (recordIdentities : list RecordIdentity)
    (records : list Record_) : M (list Record_) :=
  match recordIdentities with
  | [] => ret records
  | recordIdentity :: rest =>
      fun b =>
        match getRecordSync recordIdentity b with
        | Some record =>
            (updateStateRecords
               (Dict.delete (serializeRecordIdentity (identity record))) ;;
             trackRecord (serializeRecordIdentity (identity record)) None ;;
             removeRecordsLoop rest (records ++ [record])) b
        | None => removeRecordsLoop rest records b
        end
  end.

Definition removeRecordsSync (recordIdentities : list RecordIdentity)
    : M (list Record_) :=
  removeRecordsLoop recordIdentities [].

(** *** The inverse relationship index *)

Definition _getInverseRelationshipsSync (recordIdentity : RecordIdentity)
    (b : RecordTransformBuffer) : list RecordRelationshipIdentity :=
  match Dict.get (serializeRecordIdentity recordIdentity)
                 (inverseRelationships (_state b)) with
  | Some relationships =>
      flat_map (fun r => match r with
                         | Some rri => [rri]
                         | None => [] (* [r !== null] *)
                         end)
               (objectValues relationships)
  | None => []
  end.

(** [Array.prototype.push(x, y)] is a call of [push] on the object
    [Array.prototype] itself: both arguments are appended to that array. *)
Definition arrayPrototypePush {A : Type} (arrayPrototype : list A) (x y : A)
    : list A :=
  arrayPrototype ++ [x; y].

(** In the list branch the callback pushes on [Array.prototype]; the local
    [relationships] is returned as it was created. *)
Definition getInverseRelationshipsSync
    (recordIdentityOrIdentities : RecordIdentity + list RecordIdentity)
    (b : RecordTransformBuffer) : list RecordRelationshipIdentity :=
  match recordIdentityOrIdentities with
  | inr identities =>
      let relationships : list RecordRelationshipIdentity := [] in
      let arrayPrototype :=
        fold_left
          (fun proto record =>
             arrayPrototypePush proto relationships
               (_getInverseRelationshipsSync record b))
          identities [] in
      relationships
  | inl identity => _getInverseRelationshipsSync identity b
  end.

Definition updateStateInverse
    (f : Dict.t (Dict.t (option RecordRelationshipIdentity)) ->
         Dict.t (Dict.t (option RecordRelationshipIdentity))) : M unit :=
  fun b =>
    setState {| records := records (_state b);
                inverseRelationships := f (inverseRelationships (_state b)) |} b.

Definition updateDeltaInverse
    (f : Dict.t (Dict.t (option RecordRelationshipIdentity)) ->
         Dict.t (Dict.t (option RecordRelationshipIdentity))) : M unit :=
  fun b =>
    match _delta b with
    | Some delta =>
        setDelta (Some {| records := records delta;
                          inverseRelationships :=
                            f (inverseRelationships delta) |}) b
    | None => ret tt b
    end.

(** [const rels = index[ri] ?? {}; rels[rri] = value; index[ri] = rels] *)
Definition assignEdge (ri rri : string)
    (value : option RecordRelationshipIdentity)
    (index : Dict.t (Dict.t (option RecordRelationshipIdentity)))
    : Dict.t (Dict.t (option RecordRelationshipIdentity)) :=
  let rels := match Dict.get ri index with
              | Some rels => rels
              | None => Dict.empty
              end in
  Dict.set ri (Dict.set rri value rels) index.

(** [const rels = index[ri]; if (rels) { rels[rri] = value }]: the object
    under [ri] is changed in place; without one nothing is stored.  The same
    holds for the delta's [index[ri] ?? {}], where the fresh object is not
    assigned back. *)
Definition assignEdgeInPlace (ri rri : string)
    (value : option RecordRelationshipIdentity)
    (index : Dict.t (Dict.t (option RecordRelationshipIdentity)))
    : Dict.t (Dict.t (option RecordRelationshipIdentity)) :=
  match Dict.get ri index with
  | Some rels => Dict.set ri (Dict.set rri value rels) index
  | None => index
  end.

Definition addInverseRelationship (relationship : RecordRelationshipIdentity)
    : M unit :=
  let ri := serializeRecordIdentity (relatedRecord relationship) in
  let rri := serializeRecordRelationshipIdentity relationship in
  updateStateInverse (assignEdge ri rri (Some relationship)) ;;
  updateDeltaInverse (assignEdge ri rri (Some relationship)).

Definition addInverseRelationshipsSync
    (relationships : list RecordRelationshipIdentity) : M unit :=
  forEach relationships addInverseRelationship.

Definition removeInverseRelationship (relationship : RecordRelationshipIdentity)
    : M unit :=
  let ri := serializeRecordIdentity (relatedRecord relationship) in
  let rri := serializeRecordRelationshipIdentity relationship in
  fun b =>
    match Dict.get ri (inverseRelationships (_state b)) with
    | Some _ =>
        (updateStateInverse (assignEdgeInPlace ri rri None) ;;
         updateDeltaInverse (assignEdgeInPlace ri rri None)) b
    | None => ret tt b
    end.

Definition removeInverseRelationshipsSync
    (relationships : list RecordRelationshipIdentity) : M unit :=
  forEach relationships removeInverseRelationship.

(** *** Sessions: the calls the buffer tracks *)

Inductive Call : Type :=
| SetRecord (record : Record_)
| SetRecords (records : list Record_)
| RemoveRecord (recordIdentity : RecordIdentity)
| RemoveRecords (recordIdentities : list RecordIdentity)
| AddInverseRelationships (relationships : list RecordRelationshipIdentity)
| RemoveInverseRelationships (relationships : list RecordRelationshipIdentity).

Definition perform (c : Call) : M unit :=
  match c with
  | SetRecord r => setRecordSync r
  | SetRecords rs => setRecordsSync rs
  | RemoveRecord i => removeRecordSync i ;; ret tt
  | RemoveRecords l => removeRecordsSync l ;; ret tt
  | AddInverseRelationships es => addInverseRelationshipsSync es
  | RemoveInverseRelationships es => removeInverseRelationshipsSync es
  end.

(** [startTrackingChanges(); ...calls...; stopTrackingChanges()] *)
Definition session (calls : list Call) : M RecordChangeset :=
  startTrackingChanges ;; forEach calls perform ;; stopTrackingChanges.

(** *** Vocabulary for the properties *)

(** The call stores a record under [key]. *)
Definition setsKey (key : string) (c : Call) : Prop :=
  match c with
  | SetRecord r => serializeRecordIdentity (identity r) = key
  | SetRecords rs =>
      Exists (fun r => serializeRecordIdentity (identity r) = key) rs
  | _ => False
  end.

(** The call adds the edge [e] to the index. *)
Definition addsEdge (e : RecordRelationshipIdentity) (c : Call) : Prop :=
  match c with
  | AddInverseRelationships es => In e es
  | _ => False
  end.

(** The index holds each edge under the edge's own key, and each key once:
    what [addInverseRelationshipsSync] builds from an empty index. *)
Definition indexKeyed
    (index : Dict.t (Dict.t (option RecordRelationshipIdentity))) : Prop :=
  forall ri rels,
    Dict.get ri index = Some rels ->
    Dict.wf rels /\
    forall k e, Dict.get k rels = Some (Some e) ->
                k = serializeRecordRelationshipIdentity e.

(** The index has an object for the record [e] points at, with [null] under
    the key of [e]. *)
Definition tombstoned (e : RecordRelationshipIdentity)
    (index : Dict.t (Dict.t (option RecordRelationshipIdentity))) : Prop :=
  exists rels,
    Dict.get (serializeRecordIdentity (relatedRecord e)) index = Some rels /\
    Dict.get (serializeRecordRelationshipIdentity e) rels = Some None.

(** No object of the index lists [e] for the record [e] points at. *)
Definition absent (e : RecordRelationshipIdentity)
    (index : Dict.t (Dict.t (option RecordRelationshipIdentity))) : Prop :=
  forall rels,
    Dict.get (serializeRecordIdentity (relatedRecord e)) index = Some rels ->
    ~ In (Some e) (Dict.values rels).

(** The record dictionaries of the state and of the delta. *)
Definition recordsView (b : RecordTransformBuffer)
    : Dict.t (option Record_) * option (Dict.t (option Record_)) :=
  (records (_state b), option_map records (_delta b)).

(** The delta holds each record under the record's own key. *)
Definition deltaKeyed (dr : Dict.t (option Record_)) : Prop :=
  forall k r, Dict.get k dr = Some (Some r) ->
              serializeRecordIdentity (identity r) = k.

(** A session is open. *)
Definition tracking (b : RecordTransformBuffer) : Prop :=
  exists dr, snd (recordsView b) = Some dr /\ deltaKeyed dr.

(** A session is open and [key] was set or removed in it: the delta holds
    [null] under [key], or the record that the state holds there. *)
Definition touched (key : string) (b : RecordTransformBuffer) : Prop :=
  exists dr, snd (recordsView b) = Some dr /\ deltaKeyed dr /\
    (Dict.get key dr = Some None \/
     exists r, Dict.get key dr = Some (Some r) /\
               Dict.get key (fst (recordsView b)) = Some (Some r)).

(** A session is open and the delta holds [null] under [key]. *)
Definition removalTracked (key : string) (b : RecordTransformBuffer) : Prop :=
  exists dr, snd (recordsView b) = Some dr /\ deltaKeyed dr /\
             Dict.get key dr = Some None.

(** The state holds each record under the record's own key: what
    [setRecordSync] builds from an empty dictionary. *)
Definition recordsKeyed (rs : Dict.t (option Record_)) : Prop :=
  forall k r, Dict.get k rs = Some (Some r) ->
              serializeRecordIdentity (identity r) = k.

(** The call removes by an identity of key [key]. *)
Definition removesKey (key : string) (c : Call) : Prop :=
  match c with
  | RemoveRecord i => serializeRecordIdentity i = key
  | RemoveRecords l => Exists (fun i => serializeRecordIdentity i = key) l
  | _ => False
  end.

(** Two edges are filed under the same keys of the index. *)
Definition sameKeys (e e' : RecordRelationshipIdentity) : Prop :=
  serializeRecordIdentity (relatedRecord e')
    = serializeRecordIdentity (relatedRecord e) /\
  serializeRecordRelationshipIdentity e'
    = serializeRecordRelationshipIdentity e.

(** The call adds, or removes, an edge filed under the keys of [e]. *)
Definition addsKeysOf (e : RecordRelationshipIdentity) (c : Call) : Prop :=
  match c with
  | AddInverseRelationships es => Exists (sameKeys e) es
  | _ => False
  end.

Definition removesKeysOf (e : RecordRelationshipIdentity) (c : Call) : Prop :=
  match c with
  | RemoveInverseRelationships es => Exists (sameKeys e) es
  | _ => False
  end.

(** The indexes of the state and of the delta. *)
Definition indexView (b : RecordTransformBuffer)
    : Dict.t (Dict.t (option RecordRelationshipIdentity))
      * option (Dict.t (Dict.t (option RecordRelationshipIdentity))) :=
  (inverseRelationships (_state b),
   option_map inverseRelationships (_delta b)).

(** The edge [stopTrackingChanges] reads off the keys [rid] and [rel] of the
    delta's index. *)
Definition edgeOfKeys (rid rel : string) : RecordRelationshipIdentity :=
  {| record := fst (deserializeRecordRelationshipIdentity rel);
     relationship := snd (deserializeRecordRelationshipIdentity rel);
     relatedRecord := deserializeRecordIdentity rid |}.

(** The keys of [e] are read back as [e]. *)
Definition readsBack (e : RecordRelationshipIdentity) : Prop :=
  edgeOfKeys (serializeRecordIdentity (relatedRecord e))
             (serializeRecordRelationshipIdentity e) = e.

(** The last record of [rs] stored under [key], if any. *)
Definition lastSet (key : string) (rs : list Record_) : option Record_ :=
  find (fun r => String.eqb (serializeRecordIdentity (identity r)) key)
       (rev rs).

(** [[r]] for a record found, [[]] for [undefined]. *)
Definition found (o : option Record_) : list Record_ :=
  match o with
  | Some r => [r]
  | None => []
  end.

(** The index files [e] under its keys. *)
Definition filed (e : RecordRelationshipIdentity) 
    (index : Dict.t (Dict.t (option RecordRelationshipIdentity))) : Prop :=
  exists rels,
    Dict.get (serializeRecordIdentity (relatedRecord e)) index = Some rels /\
    Dict.get (serializeRecordRelationshipIdentity e) rels = Some (Some e).

(** The list of an optional field, empty when the field is missing. *)
Definition fieldList {A : Type} (xs : option (list A)) : list A :=
  match xs with
  | Some l => l
  | None => []
  end.

(** [v === null] for a value found under a key *)
Definition isNull {A : Type} (v : option A) : bool :=
  match v with
  | None => true
  | Some _ => false
  end.

(** The field of the removed edges, or of the added ones. *)
Definition edgesListed (removed : bool) (changeset : RecordChangeset)
    : option (list RecordRelationshipIdentity) :=
  if removed
  then removeInverseRelationships changeset
  else addInverseRelationships changeset.

(** The index has an object under [ri]. *)
Definition hasObject (ri : string)
    (index : Dict.t (Dict.t (option RecordRelationshipIdentity))) : Prop :=
  Dict.get ri index <> None.

(** The index has an entry under [ri] and [rri]: [null] or an edge, as
    [null] says. *)
Definition entryIn (ri rri : string) (null : bool)
    (index : Dict.t (Dict.t (option RecordRelationshipIdentity))) : Prop :=
  exists rels v,
    Dict.get ri index = Some rels /\ Dict.get rri rels = Some v /\
    isNull v = null.

(** A session is open and its delta has an entry under the keys of [e]. *)
Definition deltaEntry (e : RecordRelationshipIdentity) (null : bool)
    (b : RecordTransformBuffer) : Prop :=
  exists index,
    snd (indexView b) = Some index /\
    entryIn (serializeRecordIdentity (relatedRecord e))
            (serializeRecordRelationshipIdentity e) null index.

(** A session is open, and the state and the delta both have an object for
    the record [e] points at. *)
Definition bothHoldObject (e : RecordRelationshipIdentity)
    (b : RecordTransformBuffer) : Prop :=
  hasObject (serializeRecordIdentity (relatedRecord e)) (fst (indexView b)) /\
  exists index,
    snd (indexView b) = Some index /\
    hasObject (serializeRecordIdentity (relatedRecord e)) index.

(** A session is open, the state holds its records under their own keys and
    the delta holds [r] under [key]. *)
Definition setTracked (key : string) (r : Record_)
    (b : RecordTransformBuffer) : Prop :=
  recordsKeyed (fst (recordsView b)) /\
  exists dr, snd (recordsView b) = Some dr /\
             Dict.get key dr = Some (Some r).

(** A session is open and its delta holds each record under the record's
    own key, each key once. *)
Definition deltaFiled (b : RecordTransformBuffer) : Prop :=
  exists dr, snd (recordsView b) = Some dr /\ deltaKeyed dr /\ Dict.wf dr.

(** Each object of the index sits under the key of the record its edges
    point at: [addInverseRelationshipsSync] files an edge under
    [serializeRecordIdentity(relatedRecord)]. *)
Definition objectsKeyed
    (index : Dict.t (Dict.t (option RecordRelationshipIdentity))) : Prop :=
  forall ri rels k e,
    Dict.get ri index = Some rels ->
    Dict.get k rels = Some (Some e) ->
    ri = serializeRecordIdentity (relatedRecord e).

(** The state files everything under its own keys: each record under the
    key of its identity, each edge under the key of its related record and,
    there, under its own key, each key of an object once. *)
Definition filedByKey (b : RecordTransformBuffer) : Prop :=
  recordsKeyed (records (_state b)) /\
  indexKeyed (inverseRelationships (_state b)) /\
  objectsKeyed (inverseRelationships (_state b)).

(** The identities of a list whose key is not in [seen] and is the key of no
    earlier identity of the list, in the order of the list. *)
Fixpoint firstOfEachKey (seen : list string) (l : list RecordIdentity)
    : list RecordIdentity :=
  match l with
  | [] => []
  | i :: rest =>
      if existsb (String.eqb (serializeRecordIdentity i)) seen
      then firstOfEachKey seen rest
      else i :: firstOfEachKey (serializeRecordIdentity i :: seen) rest
  end.

End Buffer.

(** *** A serializer and sample data *)

(** Modelled from the spec: @orbit/records is not among the sources; an
    identity's uniqueness key is [type:id], and reading a key back splits it
    at the colon. *)
Definition typeIdSerializer : RecordSerializer := {|
  serializeRecordIdentity := fun i => (type i ++ ":" ++ id i)%string;
  deserializeRecordIdentity := fun s =>
    let pieces := JsString.split ":" s in
    {| type := nth 0 pieces ""; id := nth 1 pieces "" |}
|}.

Definition sol : RecordIdentity := {| type := "star"; id := "sol" |}.
Definition earth : RecordIdentity := {| type := "planet"; id := "earth" |}.
Definition jupiter : RecordIdentity := {| type := "planet"; id := "jupiter" |}.
Definition io : RecordIdentity := {| type := "moon"; id := "io" |}.

(** [{ type: 'planet', id: 'jupiter', attributes: { name: 'Jupiter' } }] *)
Definition jupiterRecord : Record_ string := {|
  identity := jupiter;
  attributes := Some [("name", "Jupiter")];
  relationships := None;
  keys := None
|}.

Definition earthRecord : Record_ string := {|
  identity := earth;
  attributes := Some [("name", "Earth")];
  relationships := None;
  keys := None
|}.

(** [sol.planets -> earth] and [io.planet -> earth] *)
Definition solPlanetsEarth : RecordRelationshipIdentity :=
  {| record := sol; relationship := "planets"; relatedRecord := earth |}.
Definition ioPlanetEarth : RecordRelationshipIdentity :=
  {| record := io; relationship := "planet"; relatedRecord := earth |}.

(** The buffer after [addInverseRelationshipsSync([sol.planets -> earth])],
    no session open. *)
Definition earthLinked : @RecordTransformBuffer string :=
  snd (@addInverseRelationshipsSync string typeIdSerializer
         [solPlanetsEarth] newBuffer).

(** The buffer after [setRecordsSync([jupiter, earth])], no session open. *)
Definition planetsStored : @RecordTransformBuffer string :=
  snd (@setRecordsSync string typeIdSerializer [jupiterRecord; earthRecord]
         newBuffer).

(** The buffer after [startTrackingChanges(); setRecordSync(jupiter)]. *)
Definition jupiterTracked : @RecordTransformBuffer string :=
  snd (@setRecordSync string typeIdSerializer jupiterRecord
         (snd (startTrackingChanges newBuffer))).

(** [{ type: 'planet', id: 'urn:earth' }]: a record whose id has a colon. *)
Definition urnEarthRecord : Record_ string := {|
  identity := {| type := "planet"; id := "urn:earth" |};
  attributes := None;
  relationships := None;
  keys := None
|}.

(** A state whose index holds [sol.planets -> earth] for [earth], under a key
    that is not the edge's own. *)
Definition misfiledState : @RecordTransformBufferState string := {|
  records := Dict.empty;
  inverseRelationships :=
    [("planet:earth", [("planets-of-sol", Some solPlanetsEarth)])]
|}.

(** The buffer after [reset(misfiledState)], no session open. *)
Definition misfiledBuffer : @RecordTransformBuffer string :=
  snd (reset (Some misfiledState) newBuffer).

End Buffer.

(* ------------------------------------------------------------------------- *)
(** ** The [@updatable] source interface

    [update] and [__update__] as the decorator installs them on a source.
    A request runs on one cooperative timeline: a pending result is a function
    from the state of the source and of the world around it to a settled
    result (fulfilled or rejected) and the state left behind.  Listeners and
    the handler act here on the world and on the hints they are handed, not
    on the source: the module [SharedLog] below gives the flow for listeners
    and a handler that also write to the source's transform log.  A listener
    that starts another request on the same source while this one runs is
    outside both. *)

Module Updatable.

(** [RequestOptions]: the protocol reads [fullResponse] only. *)
Record RequestOptions : Type := {
  fullResponse : option bool
}.

(** [options?.fullResponse] as a condition *)
Definition wantsFullResponse (options : option RequestOptions) : bool :=
  match options with
  | Some o => match fullResponse o with
              | Some flag => flag
              | None => false
              end
  | None => false
  end.

(** Types the module imports ('../operation', '../response', '../transform')
    and the types of what a source's collaborators see and throw. *)
Class Types : Type := {
  Operation : Type;
  Data : Type;
  Details : Type;
  Thrown : Type;
  World : Type;
  TransformBuilder : Type;
  TransformOrOperations : Type;
  NamedFullResponse : Type;
  NamedFullResponseMap : Type
}.

Section Updatable.

Context {types : Types}.

(** [Transform]: an identified, ordered batch of operations *)
Record Transform : Type := {
  id : string;
  operations : list Operation;
  options : option RequestOptions
}.

(** [ResponseHints]: [{ data?, details? }] *)
Record ResponseHints : Type := {
  hintData : option Data;
  hintDetails : option Details
}.

Record FullResponse : Type := {
  data : option Data;
  details : option Details;
  transforms : option (list Transform);
  sources : option NamedFullResponseMap
}.

(** [buildTransform] and [mapNamedFullResponses] are imported from
    '../transform' and '../response', which are not among the sources. *)
Class Imports : Type := {
  buildTransform :
    TransformOrOperations -> option RequestOptions -> option string ->
    TransformBuilder -> Transform;
  mapNamedFullResponses : list (option NamedFullResponse) -> NamedFullResponseMap
}.

Context {imports : Imports}.

(** What an event carries to its listeners. *)
Inductive Payload : Type :=
| BeforeUpdate (transform : Transform)
| TransformEvent (transform : Transform)
| UpdateEvent (transform : Transform) (response : FullResponse)
| UpdateFail (transform : Transform) (error : Thrown).

(** The observable steps of a request, in the order they happen. *)
Inductive Step : Type :=
| Emit (payload : Payload)
| Call (index : nat) (payload : Payload)
| Handler (transform : Transform) (hints : ResponseHints)
| LogAppend (transformId : string).

(** A settled promise *)
Inductive Settled (A : Type) : Type :=
| Fulfilled (a : A)
| Rejected (error : Thrown).
Arguments Fulfilled {A} a.
Arguments Rejected {A} error.

(** A [beforeUpdate] listener receives the transform and the shared [hints]
    object, which it may change, and answers with a named response or
    nothing, or fails.  It leaves the transform log alone; see [SharedLog]
    for listeners that do not. *)
Definition BeforeListener : Type :=
  Transform -> ResponseHints -> World ->
  Settled (option NamedFullResponse) * ResponseHints * World.

(** A listener of [transform], [update] or [updateFail], its arguments
    given. *)
Definition Listener : Type := World -> Settled unit * World.

(** The source as the protocol uses it: its registered listeners (in
    registration order), its handler and its transform builder. *)
Record Source : Type := {
  transformBuilder : TransformBuilder;
  beforeUpdateListeners : list BeforeListener;
  transformListeners : list (Transform -> Listener);
  updateListeners : list (Transform -> FullResponse -> Listener);
  updateFailListeners : list (Transform -> Thrown -> Listener);
  _update : Transform -> ResponseHints -> World -> Settled FullResponse * World
}.

(** What a request changes: the transform log, the world the listeners and
    the handler act on, and the steps taken so far. *)
Record State : Type := {
  transformLog : list string;
  world : World;
  trace : list Step
}.

Definition Async (A : Type) : Type := State -> Settled A * State.

Definition resolve {A : Type} (a : A) : Async A := fun s => (Fulfilled a, s).

Definition reject {A : Type} (error : Thrown) : Async A :=
  fun s => (Rejected error, s).

(** [await] *)
Definition await {A B : Type} (m : Async A) (k : A -> Async B) : Async B :=
  fun s =>
    match m s with
    | (Fulfilled a, s') => k a s'
    | (Rejected error, s') => (Rejected error, s')
    end.

(** [try { m } catch (error) { handler(error) }] *)
Definition tryCatch {A : Type} (m : Async A) (handler : Thrown -> Async A)
    : Async A :=
  fun s =>
    match m s with
    | (Fulfilled a, s') => (Fulfilled a, s')
    | (Rejected error, s') => handler error s'
    end.

Notation "x <- m ;; k" := (await m (fun x => k))
  (at level 61, m at next level, right associativity).
Notation "m ;; k" := (await m (fun _ => k))
  (at level 61, right associativity).

Definition step (e : Step) : Async unit :=
  fun s => (Fulfilled tt,
            {| transformLog := transformLog s; world := world s;
               trace := trace s ++ [e] |}).

Definition setWorld (w : World) (s : State) : State :=
  {| transformLog := transformLog s; world := w; trace := trace s |}.

(** Modelled from the spec: the transform log of '../transform-log' is not
    among the sources; it is append-only and is asked whether it contains an
    id. *)
Definition contains (log : list string) (transformId : string) : bool :=
  existsb (String.eqb transformId) log.

(** Modelled from the spec: appending to the transform log, which is not
    among the sources, puts the id after the ids logged so far. *)
Definition append (transformId : string) : Async unit :=
  fun s => (Fulfilled tt,
            {| transformLog := transformLog s ++ [transformId];
               world := world s; trace := trace s |}).

(** Modelled from the spec: the loop of [settleInSeries], which is not among
    the sources; it notifies the listeners one after the other, awaiting
    each, and goes on whether a listener fails or not. *)
Fixpoint settleLoop (listeners : list Listener) (index : nat) (p : Payload)
    : Async unit :=
  match listeners with
  | [] => resolve tt
  | listener :: rest =>
      step (Call index p) ;;
      (fun s => (Fulfilled tt, setWorld (snd (listener (world s))) s)) ;;
      settleLoop rest (S index) p
  end.

(** Modelled from the spec: [settleInSeries] of @orbit/core is not among the
    sources; it emits the event to its listeners in series and settles
    whatever they do. *)
Definition settleInSeries (listeners : list Listener) (p : Payload)
    : Async unit :=
  step (Emit p) ;; settleLoop listeners 0 p.

(** Modelled from the spec: the loop of [fulfillInSeries], which is not among
    the sources; it awaits the listeners in series, in registration order,
    and fails the moment one of them fails, skipping the rest.  The [hints]
    object is shared: each listener finds it as the previous one left it. *)
Fixpoint fulfillLoop (listeners : list BeforeListener) (index : nat)
    (transform : Transform) (hints : ResponseHints)
    : Async (list (option NamedFullResponse) * ResponseHints) :=
  match listeners with
  | [] => resolve ([], hints)
  | listener :: rest =>
      step (Call index (BeforeUpdate transform)) ;;
      fun s =>
        match listener transform hints (world s) with
        | (Fulfilled r, hints', w) =>
            (rs <- fulfillLoop rest (S index) transform hints' ;;
             resolve (r :: fst rs, snd rs)) (setWorld w s)
        | (Rejected error, _, w) => (Rejected error, setWorld w s)
        end
  end.

(** Modelled from the spec: [fulfillInSeries] of @orbit/core is not among the
    sources; it emits the event to its listeners in series and fails with
    the first of them that fails. *)
Definition fulfillInSeries (listeners : list BeforeListener)
    (transform : Transform) (hints : ResponseHints)
    : Async (list (option NamedFullResponse) * ResponseHints) :=
  step (Emit (BeforeUpdate transform)) ;;
  fulfillLoop listeners 0 transform hints.

Section Methods.

Variable this : Source.

(** Modelled from the spec: [transformed] of '../source' is not among the
    sources; it appends each transform to the log and notifies the
    [transform] listeners, transform by transform, in order. *)
Fixpoint transformed (transforms : list Transform) : Async unit :=
  match transforms with
  | [] => resolve tt
  | transform :: rest =>
      step (LogAppend (id transform)) ;;
      append (id transform) ;;
      settleInSeries (map (fun l => l transform) (transformListeners this))
                     (TransformEvent transform) ;;
      transformed rest
  end.

(** [this._update(transform, hints)] *)
Definition callHandler (transform : Transform) (hints : ResponseHints)
    : Async FullResponse :=
  step (Handler transform hints) ;;
  fun s =>
    let '(r, w) := _update this transform hints (world s) in
    (r, setWorld w s).

(** [{ transforms: [] }] *)
Definition emptyTransformsResponse : FullResponse :=
  {| data := None; details := None; transforms := Some []; sources := None |}.

(** [const hints = {}] *)
Definition emptyHints : ResponseHints :=
  {| hintData := None; hintDetails := None |}.

(** [fullResponse.sources = sources] *)
Definition setSources (fullResponse : FullResponse)
    (sources : NamedFullResponseMap) : FullResponse :=
  {| data := data fullResponse; details := details fullResponse;
     transforms := transforms fullResponse; sources := Some sources |}.

Definition __update__ (transform : Transform) : Async FullResponse :=
  fun s =>
    if contains (transformLog s) (id transform)
    then resolve emptyTransformsResponse s
    else
      tryCatch
        (before <- fulfillInSeries (beforeUpdateListeners this) transform
                                   emptyHints ;;
         let otherResponses := fst before in
         let hints := snd before in
         fullResponse <- callHandler transform hints ;;
         let fullResponse :=
           if Nat.ltb 0 (List.length otherResponses)
           then setSources fullResponse (mapNamedFullResponses otherResponses)
           else fullResponse in
         match transforms fullResponse with
         | Some (t :: ts) => transformed (t :: ts)
         | _ => resolve tt
         end ;;
         settleInSeries
           (map (fun l => l transform fullResponse) (updateListeners this))
           (UpdateEvent transform fullResponse) ;;
         resolve fullResponse)
        (fun error =>
           settleInSeries
             (map (fun l => l transform error) (updateFailListeners this))
             (UpdateFail transform error) ;;
           reject error)
        s.

(** Modelled from the spec: [_enqueueRequest] of '../source' is not among
    the sources; queueing serializes the calls into the protocol, and an
    [update] request is performed by [__update__]. *)
Definition _enqueueRequest (type : string) (transform : Transform)
    : Async FullResponse :=
  __update__ transform.

(** What [update] resolves with: a list of transforms, a full response, or
    the response's data. *)
Inductive Response : Type :=
| Transforms (transforms : list Transform)
| Full (response : FullResponse)
| DataOnly (data : option Data).

(** [update(transformOrOperations, options, id)], the source activated. *)
Definition update (transformOrOperations : TransformOrOperations)
    (options : option RequestOptions) (id' : option string) : Async Response :=
  let transform :=
    buildTransform transformOrOperations options id' (transformBuilder this) in
  fun s =>
    if contains (transformLog s) (id transform)
    then
      let transforms : list Transform := [] in
      resolve (if wantsFullResponse options
               then Full {| data := None; details := None;
                            transforms := Some transforms; sources := None |}
               else Transforms transforms) s
    else
      (response <- _enqueueRequest "update" transform ;;
       resolve (if wantsFullResponse options
                then Full response
                else DataOnly (data response))) s.

(** *** Vocabulary for the properties *)

(** [transforms ?? []] *)
Definition fieldOf {A : Type} (xs : option (list A)) : list A :=
  match xs with
  | Some l => l
  | None => []
  end.

(** The first [n] listeners of an event are called, in registration order. *)
Definition called (n : nat) (p : Payload) : list Step :=
  map (fun index => Call index p) (seq 0 n).

(** An event is emitted and its first [n] listeners are called. *)
Definition emitted (n : nat) (p : Payload) : list Step :=
  Emit p :: called n p.

(** The steps of [transformed]: per transform, the log entry and then the
    [transform] event. *)
Definition applied (transforms : list Transform) : list Step :=
  flat_map
    (fun t => LogAppend (id t)
                :: emitted (List.length (transformListeners this))
                           (TransformEvent t))
    transforms.

End Methods.
End Updatable.

Arguments Fulfilled {types A} a.
Arguments Rejected {types A} error.

(** *** A sample source

    Operations, data and thrown values are strings; the world is the journal
    of what the listeners and the handler did. *)
Definition sampleTypes : Types := {|
  Operation := string;
  Data := string;
  Details := string;
  Thrown := string;
  World := list string;
  TransformBuilder := unit;
  TransformOrOperations := string * list string;
  NamedFullResponse := string;
  NamedFullResponseMap := list string
|}.

#[local] Existing Instance sampleTypes.

(** A request given as an id and operations; an explicit [id] argument wins. *)
Definition sampleImports : @Imports sampleTypes :=
  @Build_Imports sampleTypes
    (fun request options id' _ =>
       @Build_Transform sampleTypes
         match id' with
         | Some i => i
         | None => fst request
         end
         (snd request) options)
    (fun responses =>
       flat_map (fun r => match r with
                          | Some name => [name]
                          | None => []
                          end) responses).

Definition sampleTransform (transformId : string) : Transform :=
  {| id := transformId; operations := ["addRecord"]; options := None |}.

(** A [beforeUpdate] listener that notes its name in the journal and in the
    hints. *)
Definition noting (name : string) : BeforeListener :=
  fun _ hints (w : list string) =>
    (Fulfilled None,
     {| hintData := Some (match hintData hints with
                          | Some d => d ++ "," ++ name
                          | None => name
                          end)%string;
        hintDetails := hintDetails hints |},
     w ++ [name]).

(** A [beforeUpdate] listener that fails with [':(']. *)
Definition failing (name : string) : BeforeListener :=
  fun _ hints (w : list string) =>
    (Rejected ":(", hints, w ++ [name]).

Definition journaling (name : string) : Listener :=
  fun (w : list string) => (Fulfilled tt, w ++ [name]).

(** The handler answers with the hinted data and two transforms. *)
Definition sampleSource (before : list (BeforeListener))
    : Source :=
  {| transformBuilder := tt;
     beforeUpdateListeners := before;
     transformListeners := [fun t => journaling ("transform " ++ id t)];
     updateListeners := [fun _ _ => journaling "update"];
     updateFailListeners := [fun _ e => journaling ("updateFail " ++ e)];
     _update := fun _ hints (w : list string) =>
       (Fulfilled {| data := hintData hints; details := None;
                     transforms := Some [sampleTransform "t1";
                                         sampleTransform "t2"];
                     sources := None |},
        w ++ ["_update"]) |}.

Definition sampleState (log : list string) : State :=
  {| transformLog := log; world := []; trace := [] |}.

End Updatable.

(* ------------------------------------------------------------------------- *)
(** ** The request flow with listeners that write to the transform log

    A listener or a handler that holds the source reaches its transform log:
    a [beforeSync] listener of the test-suite appends the id of the
    request's transform to [source.transformLog] while the request runs.
    Here every listener and the handler is handed the log as it stands, and
    answers with the ids it appends to it and with the world it leaves.  The
    types, the state, the steps and the log are those of [Updatable];
    [__update__] is the same function over these listeners. *)

Module SharedLog.
Import Updatable.

Section SharedLog.

Context {types : Types}.
Context {imports : Imports}.

Notation "x <- m ;; k" := (await m (fun x => k))
  (at level 61, m at next level, right associativity).
Notation "m ;; k" := (await m (fun _ => k))
  (at level 61, right associativity).

(** A [beforeUpdate] listener receives the transform, the shared [hints]
    object, the transform log and the world; it answers with a named
    response or nothing, or fails, and leaves the hints, the ids it appended
    to the log and the world. *)
Definition BeforeListener : Type :=
  Transform -> ResponseHints -> list string -> World ->
  Settled (option NamedFullResponse) * ResponseHints * list string * World.

(** A listener of [transform], [update] or [updateFail], its arguments
    given. *)
Definition Listener : Type :=
  list string -> World -> Settled unit * list string * World.

(** The source as the protocol uses it: its registered listeners (in
    registration order) and its handler. *)
Record Source : Type := {
  beforeUpdateListeners : list BeforeListener;
  transformListeners : list (Transform -> Listener);
  updateListeners : list (Transform -> FullResponse -> Listener);
  updateFailListeners : list (Transform -> Thrown -> Listener);
  _update : Transform -> ResponseHints -> list string -> World ->
            Settled FullResponse * list string * World
}.

(** Modelled from the spec: the transform log of '../transform-log' is not
    among the sources; it is append-only, so what a listener or the handler
    did to it is the ids it appended. *)
Definition leave (appended : list string) (w : World) (s : State) : State :=
  {| transformLog := transformLog s ++ appended; world := w;
     trace := trace s |}.

(** Modelled from the spec: the loop of [settleInSeries], which is not among
    the sources; it notifies the listeners one after the other, awaiting
    each, and goes on whether a listener fails or not. *)
Fixpoint settleLoop (listeners : list Listener) (index : nat) (p : Payload)
    : Async unit :=
  match listeners with
  | [] => resolve tt
  | listener :: rest =>
      step (Call index p) ;;
      (fun s =>
         let '(_, appended, w) := listener (transformLog s) (world s) in
         (Fulfilled tt, leave appended w s)) ;;
      settleLoop rest (S index) p
  end.

(** Modelled from the spec: [settleInSeries] of @orbit/core is not among the
    sources; it emits the event to its listeners in series and settles
    whatever they do. *)
Definition settleInSeries (listeners : list Listener) (p : Payload)
    : Async unit :=
  step (Emit p) ;; settleLoop listeners 0 p.

(** Modelled from the spec: the loop of [fulfillInSeries], which is not among
    the sources; it awaits the listeners in series, in registration order,
    and fails the moment one of them fails, skipping the rest.  The [hints]
    object is shared: each listener finds it as the previous one left it. *)
Fixpoint fulfillLoop (listeners : list BeforeListener) (index : nat)
    (transform : Transform) (hints : ResponseHints)
    : Async (list (option NamedFullResponse) * ResponseHints) :=
  match listeners with
  | [] => resolve ([], hints)
  | listener :: rest =>
      step (Call index (BeforeUpdate transform)) ;;
      fun s =>
        match listener transform hints (transformLog s) (world s) with
        | (Fulfilled r, hints', appended, w) =>
            (rs <- fulfillLoop rest (S index) transform hints' ;;
             resolve (r :: fst rs, snd rs)) (leave appended w s)
        | (Rejected error, _, appended, w) =>
            (Rejected error, leave appended w s)
        end
  end.

(** Modelled from the spec: [fulfillInSeries] of @orbit/core is not among the
    sources; it emits the event to its listeners in series and fails with
    the first of them that fails. *)
Definition fulfillInSeries (listeners : list BeforeListener)
    (transform : Transform) (hints : ResponseHints)
    : Async (list (option NamedFullResponse) * ResponseHints) :=
  step (Emit (BeforeUpdate transform)) ;;
  fulfillLoop listeners 0 transform hints.

Section Methods.

Variable this : Source.

(** Modelled from the spec: [transformed] of '../source' is not among the
    sources; it appends each transform to the log and notifies the
    [transform] listeners, transform by transform, in order. *)
Fixpoint transformed (transforms : list Transform) : Async unit :=
  match transforms with
  | [] => resolve tt
  | transform :: rest =>
      step (LogAppend (id transform)) ;;
      append (id transform) ;;
      settleInSeries (map (fun l => l transform) (transformListeners this))
                     (TransformEvent transform) ;;
      transformed rest
  end.

(** [this._update(transform, hints)] *)
Definition callHandler (transform : Transform) (hints : ResponseHints)
    : Async FullResponse :=
  step (Handler transform hints) ;;
  fun s =>
    let '(r, appended, w) :=
      _update this transform hints (transformLog s) (world s) in
    (r, leave appended w s).

Definition __update__ (transform : Transform) : Async FullResponse :=
  fun s =>
    if contains (transformLog s) (id transform)
    then resolve emptyTransformsResponse s
    else
      tryCatch
        (before <- fulfillInSeries (beforeUpdateListeners this) transform
                                   emptyHints ;;
         let otherResponses := fst before in
         let hints := snd before in
         fullResponse <- callHandler transform hints ;;
         let fullResponse :=
           if Nat.ltb 0 (List.length otherResponses)
           then setSources fullResponse (mapNamedFullResponses otherResponses)
           else fullResponse in
         match transforms fullResponse with
         | Some (t :: ts) => transformed (t :: ts)
         | _ => resolve tt
         end ;;
         settleInSeries
           (map (fun l => l transform fullResponse) (updateListeners this))
           (UpdateEvent transform fullResponse) ;;
         resolve fullResponse)
        (fun error =>
           settleInSeries
             (map (fun l => l transform error) (updateFailListeners this))
             (UpdateFail transform error) ;;
           reject error)
        s.

(** *** Vocabulary for the properties *)

(** The steps of [transformed]: per transform, the log entry and then the
    [transform] event. *)
Definition applied (transforms : list Transform) : list Step :=
  flat_map
    (fun t => LogAppend (id t)
                :: emitted (List.length (transformListeners this))
                           (TransformEvent t))
    transforms.

End Methods.

(** The log has grown from [log] to [log'] by appending. *)
Definition grown (log log' : list string) : Prop :=
  exists appended, log' = log ++ appended.

(** The ids the protocol itself appended to the log in the steps taken. *)
Definition logged (steps : list Step) : list string :=
  flat_map (fun e => match e with
                     | LogAppend transformId => [transformId]
                     | _ => []
                     end) steps.

(** The events emitted in the steps taken. *)
Definition events (steps : list Step) : list Payload :=
  flat_map (fun e => match e with
                     | Emit p => [p]
                     | _ => []
                     end) steps.

(** The calls of the handler in the steps taken. *)
Definition handled (steps : list Step) : list (Transform * ResponseHints) :=
  flat_map (fun e => match e with
                     | Handler t hints => [(t, hints)]
                     | _ => []
                     end) steps.

(** A listener of [Updatable], which leaves the log alone, as a listener
    here. *)
Definition quietBefore (l : Updatable.BeforeListener) : BeforeListener :=
  fun t hints _ w =>
    let '(r, hints', w') := l t hints w in (r, hints', [], w').

Definition quietListener (l : Updatable.Listener) : Listener :=
  fun _ w => let '(r, w') := l w in (r, [], w').

(** A source of [Updatable] as a source here. *)
Definition quiet (source : Updatable.Source) : Source :=
  {| beforeUpdateListeners :=
       map quietBefore (Updatable.beforeUpdateListeners source);
     transformListeners :=
       map (fun l t => quietListener (l t))
           (Updatable.transformListeners source);
     updateListeners :=
       map (fun l t response => quietListener (l t response))
           (Updatable.updateListeners source);
     updateFailListeners :=
       map (fun l t error => quietListener (l t error))
           (Updatable.updateFailListeners source);
     _update := fun t hints _ w =>
       let '(r, w') := Updatable._update source t hints w in (r, [], w') |}.

End SharedLog.

(** *** A sample source whose listeners write to the log *)

#[local] Existing Instance sampleTypes.

(** A [beforeUpdate] listener that appends the id of the request's transform
    to the log, as the [beforeSync] listener of the test-suite does, and notes
    its name in the journal. *)
Definition claiming (name : string) : BeforeListener :=
  fun t hints _ (w : list string) =>
    (Fulfilled None, hints, [id t], w ++ [name]).

(** A [beforeUpdate] listener that appends [name] to the log and to the
    journal. *)
Definition stamping (name : string) : BeforeListener :=
  fun _ hints _ (w : list string) =>
    (Fulfilled None, hints, [name], w ++ [name]).

(** A listener that appends [name] to the log and to the journal. *)
Definition logging (name : string) : Listener :=
  fun _ (w : list string) => (Fulfilled tt, [name], w ++ [name]).

(** The handler of the sample source: it answers with the hinted data and
    the transforms [t1] and [t2]. *)
Definition answering : Transform -> ResponseHints -> list string ->
                       list string ->
                       Settled FullResponse * list string * list string :=
  fun _ hints _ w =>
    (Fulfilled {| data := hintData hints; details := None;
                  transforms := Some [sampleTransform "t1";
                                      sampleTransform "t2"];
                  sources := None |},
     [], w ++ ["_update"]).

(** A handler that fails with [':(']. *)
Definition refusing : Transform -> ResponseHints -> list string ->
                      list string ->
                      Settled FullResponse * list string * list string :=
  fun _ _ _ w => (Rejected ":(", [], w ++ ["_update"]).

Definition sharedSource (before : list BeforeListener)
    (handler : Transform -> ResponseHints -> list string -> list string ->
               Settled FullResponse * list string * list string)
    : Source :=
  {| beforeUpdateListeners := before;
     transformListeners := [fun t => logging ("seen " ++ id t)];
     updateListeners := [fun _ _ => logging "update"];
     updateFailListeners := [fun _ e => logging ("updateFail " ++ e)];
     _update := handler |}.

End SharedLog.

(* ------------------------------------------------------------------------- *)
(** * Properties *)

(** ** Strings *)

Module JsStringFacts.

Lemma split_scan_nonempty (sep : string) : forall s skip cur,
  1 <= List.length (JsString.split_scan sep skip cur s).
Proof.
  induction s as [|c s IH]; intros skip cur; simpl; [lia|].
  destruct skip as [|k]; [|apply IH].
  destruct (JsString.startsWith sep (String c s)); [simpl; lia | apply IH].
Qed.

Lemma append_empty_r (s : string) : (s ++ "")%string = s.
Proof. induction s as [|c s IH]; simpl; [reflexivity | now rewrite IH]. Qed.

Lemma append_assoc (a b c : string) :
  ((a ++ b) ++ c)%string = (a ++ (b ++ c))%string.
Proof. induction a as [|x a IH]; simpl; [reflexivity | now rewrite IH]. Qed.

Lemma rev_append_spec : forall acc s,
  JsString.rev_append acc s = (JsString.rev_append acc "" ++ s)%string.
Proof.
  induction acc as [|c acc IH]; intros s; simpl; [reflexivity|].
  rewrite (IH (String c s)), (IH (String c "")), append_assoc. reflexivity.
Qed.

(** Without the separator character in it, a string is one piece. *)
Lemma split_scan_lacking (c : ascii) : forall s cur,
  JsString.lacks c s = true ->
  JsString.split_scan (String c "") 0 cur s
    = [(JsString.rev_append cur "" ++ s)%string].
Proof.
  induction s as [|a s IH]; intros cur H; simpl in *.
  - now rewrite append_empty_r.
  - destruct (Ascii.eqb c a); [discriminate|].
    rewrite IH by assumption. simpl.
    rewrite (rev_append_spec cur (String a "")), append_assoc. reflexivity.
Qed.

(** Two strings without the separator character, joined by it, split back
    into the two. *)
Lemma split_joined (c : ascii) (b : string) : forall a cur,
  JsString.lacks c a = true -> JsString.lacks c b = true ->
  JsString.split_scan (String c "") 0 cur (a ++ String c b)
    = [(JsString.rev_append cur "" ++ a)%string; b].
Proof.
  induction a as [|x a IH]; intros cur Ha Hb; simpl in *.
  - rewrite Ascii.eqb_refl, append_empty_r.
    now rewrite split_scan_lacking.
  - destruct (Ascii.eqb c x); [discriminate|].
    rewrite IH by assumption. simpl.
    rewrite (rev_append_spec cur (String x "")), append_assoc. reflexivity.
Qed.

Lemma split_scan_separated (b : string) : forall a cur,
  2 <= List.length (JsString.split_scan "::" 0 cur (a ++ "::" ++ b)).
Proof.
  induction a as [|c a IH]; intros cur.
  - pose proof (split_scan_nonempty "::" b 0 EmptyString) as H.
    simpl in *. lia.
  - change ((String c a ++ "::" ++ b)%string)
      with (String c (a ++ "::" ++ b)%string).
    cbn [JsString.split_scan].
    destruct (JsString.startsWith "::" (String c (a ++ "::" ++ b))).
    + pose proof (split_scan_nonempty "::" (a ++ "::" ++ b)
                    (String.length "::" - 1) EmptyString) as H.
      simpl in *. lia.
    + apply IH.
Qed.

(** A string with the separator [::] in it splits into two pieces at least:
    the keys of [serializeRecordRelationshipIdentity] have a record part and
    a relationship part. *)
Lemma split_separated (a b : string) :
  2 <= List.length (JsString.split "::" (a ++ "::" ++ b)).
Proof. apply split_scan_separated. Qed.

Lemma startsWith_separator (c : ascii) (s : string) :
  JsString.startsWith "::" (String c s)
    = (Ascii.eqb ":" c && JsString.startsWith ":" s)%bool.
Proof. simpl. now destruct (Ascii.eqb ":" c). Qed.

Lemma startsWith_colon_joined (a b : string) :
  JsString.startsWith ":" (a ++ ":") = JsString.startsWith ":" (a ++ "::" ++ b).
Proof. destruct a as [|c a]; simpl; [reflexivity|]. now destruct (Ascii.eqb ":" c). Qed.

(** Without [::] in it, a string is one piece of [split('::')]. *)
Lemma split_scan_without_separator : forall s cur,
  JsString.includes "::" s = false ->
  JsString.split_scan "::" 0 cur s
    = [(JsString.rev_append cur "" ++ s)%string].
Proof.
  induction s as [|c s IH]; intros cur H.
  - simpl. now rewrite append_empty_r.
  - cbn [JsString.includes] in H. apply Bool.orb_false_iff in H.
    destruct H as [Hhere Hrest]. cbn [JsString.split_scan]. rewrite Hhere.
    rewrite IH by assumption. simpl.
    rewrite (rev_append_spec cur (String c "")), append_assoc. reflexivity.
Qed.

(** [a + '::' + b] splits back into [a] and [b] when [::] occurs neither in
    [a] followed by a colon nor in [b]. *)
Lemma split_joined_by_separator (b : string) : forall a cur,
  JsString.includes "::" (a ++ ":") = false ->
  JsString.includes "::" b = false ->
  JsString.split_scan "::" 0 cur (a ++ "::" ++ b)
    = [(JsString.rev_append cur "" ++ a)%string; b].
Proof.
  induction a as [|c a IH]; intros cur Ha Hb.
  - simpl. rewrite append_empty_r.
    now rewrite (split_scan_without_separator b "" Hb).
  - change ((String c a ++ ":")%string) with (String c (a ++ ":")%string) in Ha.
    cbn [JsString.includes] in Ha. apply Bool.orb_false_iff in Ha.
    destruct Ha as [Hhere Hrest].
    change ((String c a ++ "::" ++ b)%string)
      with (String c (a ++ "::" ++ b)%string).
    cbn [JsString.split_scan].
    assert (Hhere' : JsString.startsWith "::" (String c (a ++ "::" ++ b))
                     = false).
    { rewrite startsWith_separator in Hhere |- *.
      now rewrite <- startsWith_colon_joined. }
    rewrite Hhere', IH by assumption. simpl.
    rewrite (rev_append_spec cur (String c "")), append_assoc. reflexivity.
Qed.

End JsStringFacts.

(** ** Dictionaries *)

Module DictFacts.
Section DictFacts.
Context {V : Type}.
Implicit Types (d : Dict.t V) (k : string) (v : V).

Lemma get_set k v d : Dict.get k (Dict.set k v d) = Some v.
Proof.
  induction d as [|[k' v'] d IH]; simpl.
  - now rewrite String.eqb_refl.
  - destruct (String.eqb k k') eqn:E; simpl.
    + now rewrite String.eqb_refl.
    + now rewrite E.
Qed.

Lemma get_set_ne k k' v d :
  k <> k' -> Dict.get k' (Dict.set k v d) = Dict.get k' d.
Proof.
  intros Hne. induction d as [|[k0 v0] d IH]; simpl.
  - destruct (String.eqb k' k) eqn:E; [|reflexivity].
    apply String.eqb_eq in E. congruence.
  - destruct (String.eqb k k0) eqn:E; simpl.
    + apply String.eqb_eq in E. subst k0.
      destruct (String.eqb k' k) eqn:E'; [|reflexivity].
      apply String.eqb_eq in E'. congruence.
    + now rewrite IH.
Qed.

Lemma get_delete k d : Dict.get k (Dict.delete k d) = None.
Proof.
  induction d as [|[k' v'] d IH]; simpl; [reflexivity|].
  destruct (String.eqb k k') eqn:E; simpl; [assumption|].
  now rewrite E.
Qed.

Lemma get_delete_ne k k' d :
  k <> k' -> Dict.get k' (Dict.delete k d) = Dict.get k' d.
Proof.
  intros Hne. induction d as [|[k0 v0] d IH]; simpl; [reflexivity|].
  destruct (String.eqb k k0) eqn:E; simpl.
  - apply String.eqb_eq in E. subst k0.
    destruct (String.eqb k' k) eqn:E'; [|assumption].
    apply String.eqb_eq in E'. congruence.
  - now rewrite IH.
Qed.

(** A key with a value is one of the object's keys. *)
Lemma get_keys k v d : Dict.get k d = Some v -> In k (Dict.keys d).
Proof.
  induction d as [|[k' v'] d IH]; simpl; [discriminate|].
  destruct (String.eqb k k') eqn:E.
  - apply String.eqb_eq in E. now left.
  - intros H. right. now apply IH.
Qed.

Lemma get_In k v d : Dict.get k d = Some v -> In (k, v) d.
Proof.
  induction d as [|[k' v'] d IH]; simpl; [discriminate|].
  destruct (String.eqb k k') eqn:E.
  - apply String.eqb_eq in E. intros [= ->]. left. now subst.
  - intros H. right. now apply IH.
Qed.

(** In an object, the entry listed under a key is the one [get] finds. *)
Lemma In_get k v d : Dict.wf d -> In (k, v) d -> Dict.get k d = Some v.
Proof.
  unfold Dict.wf, Dict.keys.
  induction d as [|[k' v'] d IH]; simpl; [contradiction|].
  intros Hnd [H|H].
  - injection H as -> ->. now rewrite String.eqb_refl.
  - inversion Hnd as [|? ? Hnotin Hnd']; subst.
    destruct (String.eqb k k') eqn:E.
    + apply String.eqb_eq in E. subst k'.
      exfalso. apply Hnotin. apply in_map_iff. now exists (k, v).
    + now apply IH.
Qed.

Lemma keys_set k k' v d :
  In k' (Dict.keys (Dict.set k v d)) -> k' = k \/ In k' (Dict.keys d).
Proof.
  unfold Dict.keys.
  induction d as [|[k0 v0] d IH]; simpl.
  - intros [H|[]]. now left.
  - destruct (String.eqb k k0) eqn:E; simpl.
    + intros [H|H]; [now left | right; now right].
    + intros [H|H]; [right; now left|].
      destruct (IH H) as [H'|H']; [now left | right; now right].
Qed.

Lemma wf_set k v d : Dict.wf d -> Dict.wf (Dict.set k v d).
Proof.
  unfold Dict.wf.
  induction d as [|[k0 v0] d IH]; simpl.
  - intros _. constructor; [intros [] | constructor].
  - intros Hnd. inversion Hnd as [|? ? Hnotin Hnd']; subst.
    destruct (String.eqb k k0) eqn:E; simpl.
    + apply String.eqb_eq in E. subst k0. now constructor.
    + constructor; [|now apply IH].
      intros Hin. apply keys_set in Hin. destruct Hin as [->|Hin].
      * now rewrite String.eqb_refl in E.
      * now apply Hnotin.
Qed.

Lemma In_set k k' v v' d :
  In (k', v') (Dict.set k v d) -> (k' = k /\ v' = v) \/ In (k', v') d.
Proof.
  induction d as [|[k0 v0] d IH]; simpl.
  - intros [H|[]]. injection H as <- <-. now left.
  - destruct (String.eqb k k0) eqn:E; simpl.
    + intros [H|H]; [injection H as <- <-; now left | right; now right].
    + intros [H|H]; [right; now left|].
      destruct (IH H) as [H'|H']; [now left | right; now right].
Qed.

Lemma In_values v d : In v (Dict.values d) <-> exists k, In (k, v) d.
Proof.
  unfold Dict.values. rewrite in_map_iff. split.
  - intros ([k v'] & Hv & Hin). simpl in Hv. subst v'. now exists k.
  - intros (k & Hin). now exists (k, v).
Qed.

(** Assigning to a key twice keeps the last value. *)
Lemma set_set k v v' d : Dict.set k v (Dict.set k v' d) = Dict.set k v d.
Proof.
  induction d as [|[k0 v0] d IH]; simpl.
  - now rewrite String.eqb_refl.
  - destruct (String.eqb k k0) eqn:E; simpl.
    + now rewrite String.eqb_refl.
    + now rewrite E, IH.
Qed.

Lemma wf_empty : Dict.wf (@Dict.empty V).
Proof. constructor. Qed.

End DictFacts.
End DictFacts.

(* ------------------------------------------------------------------------- *)
(** ** The transform buffer *)

Module BufferProofs.
Import Buffer.

Section Generic.

Context {Value : Type}.
Context {serializer : RecordSerializer}.
Context {utils : ObjectValues Value}.

Local Abbreviation Buffer := (@RecordTransformBuffer Value).
Local Abbreviation BufferState := (@RecordTransformBufferState Value).
Local Abbreviation Record_ := (Record_ Value).

Implicit Types (b : Buffer) (r : Record_) (e : RecordRelationshipIdentity).

(** *** Running the methods *)

Lemma forEach_normal {A : Type} (xs : list A) (body : A -> M unit) :
  (forall x b, fst (body x b) = Normal tt) ->
  forall b, fst (forEach xs body b) = Normal tt.
Proof.
  intros Hbody. induction xs as [|x xs IH]; intros b; simpl; [reflexivity|].
  unfold bind. specialize (Hbody x b).
  destruct (body x b) as [[[]|err] b1]; simpl in *; [apply IH | discriminate].
Qed.

Lemma forEach_cons {A : Type} (x : A) (xs : list A) (body : A -> M unit) b :
  fst (body x b) = Normal tt ->
  forEach (x :: xs) body b = forEach xs body (snd (body x b)).
Proof.
  simpl. unfold bind. destruct (body x b) as [[[]|err] b1]; simpl; congruence.
Qed.

Lemma forEach_app {A : Type} (xs ys : list A) (body : A -> M unit) :
  (forall x b, fst (body x b) = Normal tt) ->
  forall b, forEach (xs ++ ys) body b = forEach ys body (snd (forEach xs body b)).
Proof.
  intros Hbody. induction xs as [|x xs IH]; intros b; [reflexivity|].
  rewrite <- app_comm_cons, !forEach_cons by apply Hbody. apply IH.
Qed.

(** A property every step of a loop keeps is kept by the loop. *)
Lemma forEach_preserves {A : Type} (P : Buffer -> Prop) (Q : A -> Prop)
    (body : A -> M unit) :
  (forall x b, Q x -> P b -> P (snd (body x b))) ->
  forall xs b, Forall Q xs -> P b -> P (snd (forEach xs body b)).
Proof.
  intros Hbody xs. induction xs as [|x xs IH]; intros b HQ HP; [assumption|].
  inversion HQ as [|? ? Hx Hxs]; subst.
  simpl. unfold bind. specialize (Hbody x b Hx HP).
  destruct (body x b) as [[[]|err] b1]; simpl in *; [now apply IH | assumption].
Qed.

Lemma setRecordSync_normal r b : fst (setRecordSync r b) = Normal tt.
Proof. unfold setRecordSync, bind, updateStateRecords, trackRecord; simpl.
  destruct (_delta b); reflexivity. Qed.

Lemma removeRecordSync_normal i b :
  exists o, fst (removeRecordSync i b) = Normal o.
Proof.
  unfold removeRecordSync. destruct (getRecordSync i b) as [rec|].
  - exists (Some rec). unfold bind, updateStateRecords, trackRecord; simpl.
    destruct (_delta b); reflexivity.
  - now exists None.
Qed.

Lemma removeRecordsLoop_normal l : forall acc b,
  exists rs, fst (removeRecordsLoop l acc b) = Normal rs.
Proof.
  induction l as [|i l IH]; intros acc b; simpl.
  - now exists acc.
  - destruct (getRecordSync i b) as [rec|]; [|apply IH].
    unfold bind, updateStateRecords, trackRecord; simpl.
    destruct (_delta b); simpl; apply IH.
Qed.

Lemma addInverseRelationship_normal e b :
  fst (addInverseRelationship e b) = Normal tt.
Proof. unfold addInverseRelationship, bind, updateStateInverse, updateDeltaInverse; simpl.
  destruct (_delta b); reflexivity. Qed.

Lemma removeInverseRelationship_normal e b :
  fst (removeInverseRelationship e b) = Normal tt.
Proof.
  unfold removeInverseRelationship.
  destruct (Dict.get _ (inverseRelationships (_state b))); [|reflexivity].
  unfold bind, updateStateInverse, updateDeltaInverse; simpl.
  destruct (_delta b); reflexivity.
Qed.

(** Every tracked call returns normally. *)
Lemma perform_normal (c : Call) b : fst (perform c b) = Normal tt.
Proof.
  destruct c as [r|rs|i|l|es|es]; simpl.
  - apply setRecordSync_normal.
  - apply forEach_normal. apply setRecordSync_normal.
  - unfold bind. destruct (removeRecordSync_normal i b) as [o Ho].
    destruct (removeRecordSync i b) as [[o'|err] b1]; simpl in *;
      [reflexivity | discriminate].
  - unfold bind, removeRecordsSync.
    destruct (removeRecordsLoop_normal l [] b) as [rs Hrs].
    destruct (removeRecordsLoop l [] b) as [[o'|err] b1]; simpl in *;
      [reflexivity | discriminate].
  - apply forEach_normal. apply addInverseRelationship_normal.
  - apply forEach_normal. apply removeInverseRelationship_normal.
Qed.

(** *** What the record methods do to the record dictionaries *)

Lemma setRecordSync_view r b :
  recordsView (snd (setRecordSync r b)) =
  (Dict.set (serializeRecordIdentity (identity r)) (Some r) (fst (recordsView b)),
   option_map (Dict.set (serializeRecordIdentity (identity r)) (Some r))
              (snd (recordsView b))).
Proof.
  unfold setRecordSync, bind, updateStateRecords, trackRecord, recordsView; simpl.
  destruct (_delta b); reflexivity.
Qed.

(** [removeRecordSync] finds nothing and changes nothing, or finds a record
    and removes it under that record's key. *)
Lemma removeRecordSync_view i b :
  (getRecordSync i b = None /\ snd (removeRecordSync i b) = b) \/
  (exists rec,
     getRecordSync i b = Some rec /\
     recordsView (snd (removeRecordSync i b)) =
     (Dict.delete (serializeRecordIdentity (identity rec)) (fst (recordsView b)),
      option_map (Dict.set (serializeRecordIdentity (identity rec)) None)
                 (snd (recordsView b)))).
Proof.
  unfold removeRecordSync. destruct (getRecordSync i b) as [rec|].
  - right. exists rec. split; [reflexivity|].
    unfold bind, updateStateRecords, trackRecord, recordsView; simpl.
    destruct (_delta b); reflexivity.
  - left. split; reflexivity.
Qed.

Lemma removeRecordsLoop_cons i l acc b :
  exists acc',
    removeRecordsLoop (i :: l) acc b =
    removeRecordsLoop l acc' (snd (removeRecordSync i b)).
Proof.
  simpl. unfold removeRecordSync. destruct (getRecordSync i b) as [rec|].
  - exists (acc ++ [rec]).
    unfold bind, updateStateRecords, trackRecord; simpl.
    destruct (_delta b); reflexivity.
  - now exists acc.
Qed.

Lemma addInverseRelationship_view e b :
  recordsView (snd (addInverseRelationship e b)) = recordsView b.
Proof.
  unfold addInverseRelationship, bind, updateStateInverse, updateDeltaInverse,
    recordsView; simpl.
  destruct (_delta b); reflexivity.
Qed.

Lemma removeInverseRelationship_view e b :
  recordsView (snd (removeInverseRelationship e b)) = recordsView b.
Proof.
  unfold removeInverseRelationship.
  destruct (Dict.get _ (inverseRelationships (_state b))); [|reflexivity].
  unfold bind, updateStateInverse, updateDeltaInverse, recordsView; simpl.
  destruct (_delta b); reflexivity.
Qed.

(** A property of the record dictionaries that setting the allowed records
    and removing any record keep is kept by every call that sets allowed
    records only. *)
Lemma perform_preserves (P : Buffer -> Prop) (allowed : Record_ -> Prop) :
  (forall b b', recordsView b = recordsView b' -> P b -> P b') ->
  (forall r b, allowed r -> P b -> P (snd (setRecordSync r b))) ->
  (forall i b, P b -> P (snd (removeRecordSync i b))) ->
  forall (c : Call) b,
    match c with
    | SetRecord r => allowed r
    | SetRecords rs => Forall allowed rs
    | _ => True
    end ->
    P b -> P (snd (perform c b)).
Proof.
  intros Hview Hset Hremove c b Hc HP.
  destruct c as [r|rs|i|l|es|es]; simpl.
  - now apply Hset.
  - unfold setRecordsSync. now apply forEach_preserves with (Q := allowed).
  - unfold bind. specialize (Hremove i b HP).
    destruct (removeRecordSync i b) as [[o|err] b1]; assumption.
  - unfold bind, removeRecordsSync.
    assert (Hloop : forall l acc b, P b -> P (snd (removeRecordsLoop l acc b))).
    { clear - Hremove. intros l. induction l as [|i l IH]; intros acc b HP.
      - assumption.
      - destruct (removeRecordsLoop_cons i l acc b) as [acc' ->].
        apply IH. now apply Hremove. }
    specialize (Hloop l [] b HP).
    destruct (removeRecordsLoop l [] b) as [[o|err] b1]; assumption.
  - apply Hview with (b := b); [|assumption]. symmetry.
    apply (forEach_preserves (fun b' => recordsView b' = recordsView b)
             (fun _ => True)); [|now apply Forall_forall|reflexivity].
    intros e b' _ H. now rewrite addInverseRelationship_view.
  - apply Hview with (b := b); [|assumption]. symmetry.
    apply (forEach_preserves (fun b' => recordsView b' = recordsView b)
             (fun _ => True)); [|now apply Forall_forall|reflexivity].
    intros e b' _ H. now rewrite removeInverseRelationship_view.
Qed.

Lemma deltaKeyed_set r (dr : Dict.t (option Record_)) :
  deltaKeyed dr ->
  deltaKeyed (Dict.set (serializeRecordIdentity (identity r)) (Some r) dr).
Proof.
  intros Hk k r' Hget.
  destruct (string_dec (serializeRecordIdentity (identity r)) k) as [<-|Hne].
  - rewrite DictFacts.get_set in Hget. now injection Hget as <-.
  - rewrite DictFacts.get_set_ne in Hget by assumption. exact (Hk _ _ Hget).
Qed.

Lemma deltaKeyed_tombstone key (dr : Dict.t (option Record_)) :
  deltaKeyed dr -> deltaKeyed (Dict.set key None dr).
Proof.
  intros Hk k r' Hget.
  destruct (string_dec key k) as [<-|Hne].
  - rewrite DictFacts.get_set in Hget. discriminate.
  - rewrite DictFacts.get_set_ne in Hget by assumption. exact (Hk _ _ Hget).
Qed.

Ltac view_of_set r b :=
  rewrite (setRecordSync_view r b); cbn [fst snd].

Lemma tracking_perform (c : Call) b : tracking b -> tracking (snd (perform c b)).
Proof.
  apply (perform_preserves tracking (fun _ => True)).
  - unfold tracking. intros b1 b2 Hv. now rewrite Hv.
  - intros r b1 _ (dr & Hd & Hk). unfold tracking. view_of_set r b1.
    rewrite Hd. cbn [fst snd option_map]. eexists; split; [reflexivity|]. now apply deltaKeyed_set.
  - intros i b1 (dr & Hd & Hk).
    destruct (removeRecordSync_view i b1) as [[_ ->]|(rec & _ & Hv)].
    + now exists dr.
    + unfold tracking. rewrite Hv, Hd. cbn [fst snd option_map]. eexists; split; [reflexivity|].
      now apply deltaKeyed_tombstone.
  - destruct c; simpl; auto. now apply Forall_forall.
Qed.

(** Setting a record in an open session marks its key as touched. *)
Lemma setRecordSync_touches r b :
  tracking b ->
  touched (serializeRecordIdentity (identity r)) (snd (setRecordSync r b)).
Proof.
  intros (dr & Hd & Hk). unfold touched. view_of_set r b. rewrite Hd. cbn [fst snd option_map].
  eexists; split; [reflexivity|]. split; [now apply deltaKeyed_set|].
  right. exists r. now rewrite !DictFacts.get_set.
Qed.

Lemma touched_perform key (c : Call) b :
  touched key b -> touched key (snd (perform c b)).
Proof.
  apply (perform_preserves (touched key) (fun _ => True)).
  - unfold touched. intros b1 b2 Hv. now rewrite Hv.
  - intros r b1 _ Ht.
    destruct (string_dec (serializeRecordIdentity (identity r)) key) as [<-|Hne].
    + apply setRecordSync_touches. destruct Ht as (dr & Hd & Hk & _).
      now exists dr.
    + destruct Ht as (dr & Hd & Hk & Hcase). unfold touched.
      view_of_set r b1. rewrite Hd. cbn [fst snd option_map].
      eexists; split; [reflexivity|]. split; [now apply deltaKeyed_set|].
      rewrite !DictFacts.get_set_ne by assumption. exact Hcase.
  - intros i b1 (dr & Hd & Hk & Hcase).
    destruct (removeRecordSync_view i b1) as [[_ ->]|(rec & _ & Hv)].
    + now exists dr.
    + unfold touched. rewrite Hv, Hd. cbn [fst snd option_map].
      eexists; split; [reflexivity|]. split; [now apply deltaKeyed_tombstone|].
      destruct (string_dec (serializeRecordIdentity (identity rec)) key)
        as [<-|Hne].
      * left. apply DictFacts.get_set.
      * rewrite DictFacts.get_set_ne, DictFacts.get_delete_ne by assumption.
        exact Hcase.
  - destruct c; simpl; auto. now apply Forall_forall.
Qed.

(** Removing by the identity of a touched key leaves [null] in the delta. *)
Lemma removeRecordSync_tracks_removal i b :
  touched (serializeRecordIdentity i) b ->
  removalTracked (serializeRecordIdentity i) (snd (removeRecordSync i b)).
Proof.
  intros (dr & Hd & Hk & Hcase).
  destruct (removeRecordSync_view i b) as [[Hnone ->]|(rec & Hrec & Hv)].
  - destruct Hcase as [Hnull|(r & Hr & Hst)].
    + now exists dr.
    + unfold getRecordSync in Hnone. simpl in Hst. now rewrite Hst in Hnone.
  - unfold removalTracked. rewrite Hv, Hd. cbn [fst snd option_map].
    eexists; split; [reflexivity|]. split; [now apply deltaKeyed_tombstone|].
    destruct Hcase as [Hnull|(r & Hr & Hst)].
    + destruct (string_dec (serializeRecordIdentity (identity rec))
                           (serializeRecordIdentity i)) as [->|Hne].
      * apply DictFacts.get_set.
      * now rewrite DictFacts.get_set_ne.
    + unfold getRecordSync in Hrec. simpl in Hst. rewrite Hst in Hrec.
      injection Hrec as <-. rewrite (Hk _ _ Hr). apply DictFacts.get_set.
Qed.

Lemma removalTracked_perform key (c : Call) b :
  ~ setsKey key c ->
  removalTracked key b -> removalTracked key (snd (perform c b)).
Proof.
  intros Hc.
  apply (perform_preserves (removalTracked key)
           (fun r => serializeRecordIdentity (identity r) <> key)).
  - unfold removalTracked. intros b1 b2 Hv. now rewrite Hv.
  - intros r b1 Hne (dr & Hd & Hk & Hnull). unfold removalTracked.
    view_of_set r b1. rewrite Hd. cbn [fst snd option_map].
    eexists; split; [reflexivity|]. split; [now apply deltaKeyed_set|].
    now rewrite DictFacts.get_set_ne.
  - intros i b1 (dr & Hd & Hk & Hnull).
    destruct (removeRecordSync_view i b1) as [[_ ->]|(rec & _ & Hv)].
    + now exists dr.
    + unfold removalTracked. rewrite Hv, Hd. cbn [fst snd option_map].
      eexists; split; [reflexivity|]. split; [now apply deltaKeyed_tombstone|].
      destruct (string_dec (serializeRecordIdentity (identity rec)) key)
        as [<-|Hne].
      * apply DictFacts.get_set.
      * now rewrite DictFacts.get_set_ne.
  - destruct c; simpl in *; auto. now apply Forall_Exists_neg.
Qed.

(** *** What [stopTrackingChanges] reads off the delta *)

Lemma listed_push {A : Type} (x y : A) (xs : option (list A)) :
  listed x (push xs y) <-> listed x xs \/ x = y.
Proof.
  destruct xs as [l|]; simpl.
  - rewrite in_app_iff. simpl. intuition congruence.
  - intuition congruence.
Qed.

Lemma collectRecord_removeRecords (dr : Dict.t (option Record_)) ks :
  forall changeset x,
    listed x (removeRecords (fold_left (collectRecord dr) ks changeset)) <->
    listed x (removeRecords changeset) \/
    exists k, In k ks /\ Dict.get k dr = Some None /\
              x = deserializeRecordIdentity k.
Proof.
  induction ks as [|k0 ks IH]; intros changeset x; simpl.
  - split; [now left | intros [H|(k & [] & _)]; exact H].
  - rewrite IH. unfold collectRecord.
    destruct (Dict.get k0 dr) as [[rv|]|] eqn:E; simpl.
    + split.
      * intros [H|(k & Hin & Hk)]; [now left | right; exists k; tauto].
      * intros [H|(k & [->|Hin] & Hnull & Hx)];
          [now left | congruence | right; now exists k].
    + rewrite listed_push. split.
      * intros [[H| ->]|(k & Hin & Hk)];
          [now left | right; exists k0; tauto | right; exists k; tauto].
      * intros [H|(k & [->|Hin] & Hnull & Hx)];
          [left; now left | left; now right | right; now exists k].
    + split.
      * intros [H|(k & Hin & Hk)]; [now left | right; exists k; tauto].
      * intros [H|(k & [->|Hin] & Hnull & Hx)];
          [now left | congruence | right; now exists k].
Qed.

Lemma collectRecord_setRecords (dr : Dict.t (option Record_)) ks :
  forall changeset r,
    listed r (setRecords (fold_left (collectRecord dr) ks changeset)) <->
    listed r (setRecords changeset) \/
    exists k, In k ks /\ Dict.get k dr = Some (Some r).
Proof.
  induction ks as [|k0 ks IH]; intros changeset r; simpl.
  - split; [now left | intros [H|(k & [] & _)]; exact H].
  - rewrite IH. unfold collectRecord.
    destruct (Dict.get k0 dr) as [[rv|]|] eqn:E; simpl.
    + rewrite listed_push. split.
      * intros [[H| ->]|(k & Hin & Hk)];
          [now left | right; exists k0; tauto | right; exists k; tauto].
      * intros [H|(k & [->|Hin] & Hset)];
          [left; now left | left; right; congruence | right; now exists k].
    + split.
      * intros [H|(k & Hin & Hk)]; [now left | right; exists k; tauto].
      * intros [H|(k & [->|Hin] & Hset)];
          [now left | congruence | right; now exists k].
    + split.
      * intros [H|(k & Hin & Hk)]; [now left | right; exists k; tauto].
      * intros [H|(k & [->|Hin] & Hset)];
          [now left | congruence | right; now exists k].
Qed.

(** The loops over the edges leave the record fields alone. *)
Lemma collectRelationship_records related rels ks :
  forall changeset : @RecordChangeset Value,
    setRecords (fold_left (collectRelationship related rels) ks changeset)
      = setRecords changeset /\
    removeRecords (fold_left (collectRelationship related rels) ks changeset)
      = removeRecords changeset.
Proof.
  induction ks as [|k ks IH]; intros changeset; simpl; [now split|].
  destruct (IH (collectRelationship related rels changeset k)) as [-> ->].
  unfold collectRelationship.
  destruct (deserializeRecordRelationshipIdentity k) as [rec rel].
  destruct (Dict.get k rels) as [[|]|]; now split.
Qed.

Lemma collectRelated_records inv ks :
  forall changeset : @RecordChangeset Value,
    setRecords (fold_left (collectRelated inv) ks changeset)
      = setRecords changeset /\
    removeRecords (fold_left (collectRelated inv) ks changeset)
      = removeRecords changeset.
Proof.
  induction ks as [|k ks IH]; intros changeset; simpl; [now split|].
  destruct (IH (collectRelated inv changeset k)) as [-> ->].
  unfold collectRelated. destruct (Dict.get k inv) as [rels|]; [|now split].
  apply collectRelationship_records.
Qed.

Lemma changesetOf_removeRecords (delta : BufferState) x :
  listed x (removeRecords (changesetOf delta)) <->
  exists k, In k (Dict.keys (records delta)) /\
            Dict.get k (records delta) = Some None /\
            x = deserializeRecordIdentity k.
Proof.
  unfold changesetOf.
  destruct (collectRelated_records (inverseRelationships delta)
              (Dict.keys (inverseRelationships delta))
              (fold_left (collectRecord (records delta))
                 (Dict.keys (records delta)) emptyChangeset)) as [_ ->].
  rewrite collectRecord_removeRecords. simpl. tauto.
Qed.

Lemma changesetOf_setRecords (delta : BufferState) r :
  listed r (setRecords (changesetOf delta)) <->
  exists k, In k (Dict.keys (records delta)) /\
            Dict.get k (records delta) = Some (Some r).
Proof.
  unfold changesetOf.
  destruct (collectRelated_records (inverseRelationships delta)
              (Dict.keys (inverseRelationships delta))
              (fold_left (collectRecord (records delta))
                 (Dict.keys (records delta)) emptyChangeset)) as [-> _].
  rewrite collectRecord_setRecords. simpl. tauto.
Qed.

(** A session of tracked calls ends normally, with the changeset of the delta
    the calls built. *)
Lemma session_runs (calls : list Call) b0 :
  exists delta,
    _delta (snd (forEach calls perform (snd (startTrackingChanges b0))))
      = Some delta /\
    session calls b0 =
      (Normal (changesetOf delta),
       {| _state := _state (snd (forEach calls perform
                                   (snd (startTrackingChanges b0))));
          _delta := None |}).
Proof.
  assert (Ht : tracking (snd (forEach calls perform
                                (snd (startTrackingChanges b0))))).
  { apply (forEach_preserves tracking (fun _ => True)).
    - intros c b _. apply tracking_perform.
    - now apply Forall_forall.
    - exists Dict.empty. split; [reflexivity|]. intros k r H. discriminate. }
  destruct Ht as (dr & Hd & _). unfold recordsView in Hd. simpl in Hd.
  unfold session, bind at 1. simpl.
  unfold bind at 1.
  pose proof (forEach_normal calls perform perform_normal
                (snd (startTrackingChanges b0))) as Hn.
  simpl in Hn, Hd.
  destruct (forEach calls perform _) as [[[]|err] b2]; simpl in *;
    [|discriminate].
  unfold stopTrackingChanges.
  destruct (_delta b2) as [delta|]; [|discriminate].
  exists delta. split; reflexivity.
Qed.

Lemma perform_RemoveRecord i b :
  snd (perform (RemoveRecord i) b) = snd (removeRecordSync i b).
Proof.
  simpl. unfold bind. now destruct (removeRecordSync i b) as [[o|err] b1].
Qed.

(** C6. In a tracked session in which a record is set and later removed by
    its identity, with no later call setting a record of that identity, the
    session ends normally and its changeset lists under [removeRecords] the
    identity that [deserializeRecordIdentity] reads back from the record's
    key, which is the record's identity whenever the key reads back as it,
    and lists neither the record nor any record of that key under
    [setRecords]. *)
Theorem set_then_remove_nets_to_removal
    (b0 : Buffer) (r : Record_) (before between after : list Call) :
  Forall (fun c => ~ setsKey (serializeRecordIdentity (identity r)) c) after ->
  exists changeset b,
    session (before ++ SetRecord r :: between
                    ++ RemoveRecord (identity r) :: after) b0
      = (Normal changeset, b) /\
    listed (deserializeRecordIdentity (serializeRecordIdentity (identity r)))
           (removeRecords changeset) /\
    (deserializeRecordIdentity (serializeRecordIdentity (identity r))
       = identity r ->
     listed (identity r) (removeRecords changeset)) /\
    ~ listed r (setRecords changeset) /\
    forall r', listed r' (setRecords changeset) ->
               serializeRecordIdentity (identity r')
                 <> serializeRecordIdentity (identity r).
Proof.
  intros Hafter.
  set (key := serializeRecordIdentity (identity r)) in *.
  set (calls := before ++ SetRecord r :: between
                       ++ RemoveRecord (identity r) :: after).
  destruct (session_runs calls b0) as (delta & Hdelta & Hrun).
  exists (changesetOf delta). eexists. split; [exact Hrun|].
  assert (Hrem : removalTracked key
                   (snd (forEach calls perform (snd (startTrackingChanges b0))))).
  { subst calls.
    rewrite forEach_app, forEach_cons, forEach_app, forEach_cons
      by (intros; apply perform_normal).
    apply (forEach_preserves (removalTracked key)
             (fun c => ~ setsKey key c)); [|assumption|].
    { intros c b. apply removalTracked_perform. }
    rewrite perform_RemoveRecord. apply removeRecordSync_tracks_removal.
    fold key.
    apply (forEach_preserves (touched key) (fun _ => True));
      [|now apply Forall_forall|].
    { intros c b _. apply touched_perform. }
    apply setRecordSync_touches.
    apply (forEach_preserves tracking (fun _ => True));
      [|now apply Forall_forall|].
    { intros c b _. apply tracking_perform. }
    exists Dict.empty. split; [reflexivity|]. intros k r' H. discriminate. }
  destruct Hrem as (dr & Hd & Hk & Hnull).
  unfold recordsView in Hd. rewrite Hdelta in Hd. simpl in Hd.
  injection Hd as <-.
  assert (Hset : forall r', listed r' (setRecords (changesetOf delta)) ->
                            serializeRecordIdentity (identity r') <> key).
  { intros r' H. apply changesetOf_setRecords in H. destruct H as (k & _ & Hget).
    pose proof (Hk _ _ Hget) as Hser. intros Heq. rewrite Heq in Hser.
    subst k. congruence. }
  assert (Hlisted : listed (deserializeRecordIdentity key)
                            (removeRecords (changesetOf delta))).
  { apply changesetOf_removeRecords. exists key.
    split; [now apply DictFacts.get_keys with (v := None)|].
    split; [assumption | reflexivity]. }
  split; [exact Hlisted|]. split; [|split].
  - intros Hround. rewrite <- Hround. exact Hlisted.
  - intros H. now apply (Hset r H).
  - exact Hset.
Qed.

(** C10. [reset] in an open session replaces the state only: the call
    returns normally, the delta is the one accumulated so far, and
    [stopTrackingChanges] afterwards returns normally with the changeset of
    that delta, the same changeset it would have returned before the reset,
    and closes the session. *)
Theorem reset_keeps_open_session
    (state : option BufferState) (b : Buffer) (delta : BufferState) :
  _delta b = Some delta ->
  exists b',
    reset state b = (Normal tt, b') /\
    _state b' = match state with
                | Some s => s
                | None => emptyState
                end /\
    _delta b' = Some delta /\
    stopTrackingChanges b'
      = (Normal (changesetOf delta), {| _state := _state b'; _delta := None |}) /\
    fst (stopTrackingChanges b') = fst (stopTrackingChanges b).
Proof.
  intros Hdelta. eexists. split; [reflexivity|]. simpl.
  split; [reflexivity|]. split; [assumption|].
  unfold stopTrackingChanges. simpl. rewrite Hdelta. split; reflexivity.
Qed.

(** C4, as the code has it.  [startTrackingChanges] never fails: with a
    session open or not, it returns normally, leaves the state alone and
    makes the delta an empty one, so that the changes tracked so far are
    dropped and the changeset of an immediate [stopTrackingChanges] is
    empty. *)
Theorem startTrackingChanges_restarts (b : Buffer) :
  startTrackingChanges b
    = (Normal tt, {| _state := _state b; _delta := Some emptyState |}) /\
  fst (stopTrackingChanges (snd (startTrackingChanges b)))
    = Normal emptyChangeset.
Proof. split; reflexivity. Qed.

(** *** The inverse relationship index *)

Local Abbreviation Index := (Dict.t (Dict.t (option RecordRelationshipIdentity))).

Lemma In_getInverseRelationships e i b :
  In e (_getInverseRelationshipsSync i b) <->
  exists rels,
    Dict.get (serializeRecordIdentity i) (inverseRelationships (_state b))
      = Some rels /\
    In (Some e) (Dict.values rels).
Proof.
  unfold _getInverseRelationshipsSync, objectValues.
  destruct (Dict.get _ (inverseRelationships (_state b))) as [rels|].
  - rewrite in_flat_map. split.
    + intros ([e'|] & Hin & He); simpl in He; [|contradiction].
      destruct He as [->|[]]. now exists rels.
    + intros (rels' & [= <-] & Hin). exists (Some e). split; [assumption|].
      now left.
  - split; [intros [] | intros (rels & H & _); discriminate].
Qed.

Lemma absent_read e b :
  absent e (inverseRelationships (_state b)) <->
  ~ In e (getInverseRelationshipsSync (inl (relatedRecord e)) b).
Proof.
  simpl. rewrite In_getInverseRelationships. unfold absent. split.
  - intros H (rels & Hget & Hin). now apply (H rels).
  - intros H rels Hget Hin. apply H. now exists rels.
Qed.

Lemma addInverseRelationship_index e b :
  inverseRelationships (_state (snd (addInverseRelationship e b))) =
  assignEdge (serializeRecordIdentity (relatedRecord e))
             (serializeRecordRelationshipIdentity e) (Some e)
             (inverseRelationships (_state b)).
Proof.
  unfold addInverseRelationship, bind, updateStateInverse, updateDeltaInverse;
    simpl.
  destruct (_delta b); reflexivity.
Qed.

Lemma removeInverseRelationship_index e b :
  inverseRelationships (_state (snd (removeInverseRelationship e b))) =
  assignEdgeInPlace (serializeRecordIdentity (relatedRecord e))
                    (serializeRecordRelationshipIdentity e) None
                    (inverseRelationships (_state b)).
Proof.
  unfold removeInverseRelationship, assignEdgeInPlace.
  destruct (Dict.get _ (inverseRelationships (_state b))) as [rels|] eqn:E;
    [|reflexivity].
  unfold bind, updateStateInverse, updateDeltaInverse; simpl.
  destruct (_delta b); simpl; unfold assignEdgeInPlace; now rewrite E.
Qed.

Lemma setRecordSync_index r b :
  inverseRelationships (_state (snd (setRecordSync r b)))
    = inverseRelationships (_state b).
Proof.
  unfold setRecordSync, bind, updateStateRecords, trackRecord; simpl.
  destruct (_delta b); reflexivity.
Qed.

Lemma removeRecordSync_index i b :
  inverseRelationships (_state (snd (removeRecordSync i b)))
    = inverseRelationships (_state b).
Proof.
  unfold removeRecordSync. destruct (getRecordSync i b); [|reflexivity].
  unfold bind, updateStateRecords, trackRecord; simpl.
  destruct (_delta b); reflexivity.
Qed.

(** A property of the index that adding the allowed edges and removing any
    edge keep is kept by every call that adds allowed edges only. *)
Lemma perform_preserves_index (P : Index -> Prop)
    (allowed : RecordRelationshipIdentity -> Prop) :
  (forall e b, allowed e -> P (inverseRelationships (_state b)) ->
     P (inverseRelationships (_state (snd (addInverseRelationship e b))))) ->
  (forall e b, P (inverseRelationships (_state b)) ->
     P (inverseRelationships (_state (snd (removeInverseRelationship e b))))) ->
  forall (c : Call) b,
    match c with
    | AddInverseRelationships es => Forall allowed es
    | _ => True
    end ->
    P (inverseRelationships (_state b)) ->
    P (inverseRelationships (_state (snd (perform c b)))).
Proof.
  intros Hadd Hremove c b Hc HP.
  destruct c as [r|rs|i|l|es|es]; simpl.
  - now rewrite setRecordSync_index.
  - unfold setRecordsSync.
    apply (forEach_preserves (fun b' => P (inverseRelationships (_state b')))
             (fun _ => True)); [|now apply Forall_forall|assumption].
    intros r b' _ H. now rewrite setRecordSync_index.
  - rewrite <- (removeRecordSync_index i b) in HP.
    unfold bind. now destruct (removeRecordSync i b) as [[o|err] b1].
  - unfold bind, removeRecordsSync.
    assert (Hloop : forall l acc b,
               inverseRelationships (_state (snd (removeRecordsLoop l acc b)))
                 = inverseRelationships (_state b)).
    { clear. intros l. induction l as [|i l IH]; intros acc b; [reflexivity|].
      destruct (removeRecordsLoop_cons i l acc b) as [acc' ->].
      now rewrite IH, removeRecordSync_index. }
    rewrite <- (Hloop l [] b) in HP.
    now destruct (removeRecordsLoop l [] b) as [[o|err] b1].
  - unfold addInverseRelationshipsSync.
    now apply (forEach_preserves (fun b' => P (inverseRelationships (_state b')))
                 allowed).
  - unfold removeInverseRelationshipsSync.
    apply (forEach_preserves (fun b' => P (inverseRelationships (_state b')))
             (fun _ => True)); [|now apply Forall_forall|assumption].
    intros e b' _. apply Hremove.
Qed.

Lemma indexKeyed_assignEdgeInPlace ri rri (index : Index) :
  indexKeyed index -> indexKeyed (assignEdgeInPlace ri rri None index).
Proof.
  intros Hk. unfold assignEdgeInPlace.
  destruct (Dict.get ri index) as [rels|] eqn:E; [|assumption].
  intros ri' rels' Hget.
  destruct (string_dec ri ri') as [<-|Hne].
  - rewrite DictFacts.get_set in Hget. injection Hget as <-.
    destruct (Hk _ _ E) as [Hwf Hkeys]. split; [now apply DictFacts.wf_set|].
    intros k e Hk'. destruct (string_dec rri k) as [<-|Hne].
    + rewrite DictFacts.get_set in Hk'. discriminate.
    + rewrite DictFacts.get_set_ne in Hk' by assumption. now apply Hkeys.
  - rewrite DictFacts.get_set_ne in Hget by assumption. exact (Hk _ _ Hget).
Qed.

Lemma indexKeyed_assignEdge ri e (index : Index) :
  indexKeyed index ->
  indexKeyed (assignEdge ri (serializeRecordRelationshipIdentity e) (Some e)
                         index).
Proof.
  intros Hk. unfold assignEdge. intros ri' rels' Hget.
  destruct (string_dec ri ri') as [<-|Hne].
  - rewrite DictFacts.get_set in Hget. injection Hget as <-.
    assert (Hrels : Dict.wf match Dict.get ri index with
                            | Some rels => rels
                            | None => Dict.empty
                            end /\
                    forall k e',
                      Dict.get k match Dict.get ri index with
                                 | Some rels => rels
                                 | None => Dict.empty
                                 end = Some (Some e') ->
                      k = serializeRecordRelationshipIdentity e').
    { destruct (Dict.get ri index) as [rels|] eqn:E; [now apply (Hk ri)|].
      split; [apply DictFacts.wf_empty | discriminate]. }
    destruct Hrels as [Hwf Hkeys]. split; [now apply DictFacts.wf_set|].
    intros k e' Hk'.
    destruct (string_dec (serializeRecordRelationshipIdentity e) k) as [<-|Hne].
    + rewrite DictFacts.get_set in Hk'. now injection Hk' as <-.
    + rewrite DictFacts.get_set_ne in Hk' by assumption. now apply Hkeys.
  - rewrite DictFacts.get_set_ne in Hget by assumption. exact (Hk _ _ Hget).
Qed.

(** The index of the empty buffer is keyed, and every tracked call keeps it
    keyed. *)
Lemma indexKeyed_newBuffer :
  indexKeyed (inverseRelationships (_state (@newBuffer Value))).
Proof. intros ri rels H. discriminate. Qed.

Lemma indexKeyed_perform (c : Call) b :
  indexKeyed (inverseRelationships (_state b)) ->
  indexKeyed (inverseRelationships (_state (snd (perform c b)))).
Proof.
  apply (perform_preserves_index indexKeyed (fun _ => True)).
  - intros e b' _ H. rewrite addInverseRelationship_index.
    now apply indexKeyed_assignEdge.
  - intros e b' H. rewrite removeInverseRelationship_index.
    now apply indexKeyed_assignEdgeInPlace.
  - destruct c; simpl; auto. now apply Forall_forall.
Qed.

(** Writing [null] under the key of [e] takes [e] out of what is read. *)
Lemma absent_after_tombstone e (index : Index) :
  indexKeyed index ->
  absent e (assignEdgeInPlace (serializeRecordIdentity (relatedRecord e))
                              (serializeRecordRelationshipIdentity e) None
                              index).
Proof.
  intros Hk. unfold assignEdgeInPlace, absent.
  destruct (Dict.get (serializeRecordIdentity (relatedRecord e)) index)
    as [rels|] eqn:E; [|intros rels Hget; rewrite E in Hget; discriminate].
  intros rels' Hget Hin. rewrite DictFacts.get_set in Hget.
  injection Hget as <-.
  destruct (Hk _ _ E) as [Hwf Hkeys].
  apply DictFacts.In_values in Hin. destruct Hin as (k & Hin).
  apply DictFacts.In_get in Hin; [|now apply DictFacts.wf_set].
  destruct (string_dec (serializeRecordRelationshipIdentity e) k) as [<-|Hne].
  - rewrite DictFacts.get_set in Hin. discriminate.
  - rewrite DictFacts.get_set_ne in Hin by assumption.
    apply Hkeys in Hin. congruence.
Qed.

Lemma absent_assignEdgeInPlace e ri rri (index : Index) :
  absent e index -> absent e (assignEdgeInPlace ri rri None index).
Proof.
  intros Ha. unfold assignEdgeInPlace.
  destruct (Dict.get ri index) as [rels|] eqn:E; [|assumption].
  intros rels' Hget Hin.
  destruct (string_dec ri (serializeRecordIdentity (relatedRecord e)))
    as [->|Hne].
  - rewrite DictFacts.get_set in Hget. injection Hget as <-.
    apply DictFacts.In_values in Hin. destruct Hin as (k & Hin).
    apply DictFacts.In_set in Hin. destruct Hin as [[_ Hv]|Hin]; [discriminate|].
    apply (Ha rels E). apply DictFacts.In_values. now exists k.
  - rewrite DictFacts.get_set_ne in Hget by assumption.
    now apply (Ha rels' Hget).
Qed.

Lemma absent_assignEdge e e' ri rri (index : Index) :
  e' <> e -> absent e index -> absent e (assignEdge ri rri (Some e') index).
Proof.
  intros Hne Ha. unfold assignEdge. intros rels' Hget Hin.
  destruct (string_dec ri (serializeRecordIdentity (relatedRecord e)))
    as [->|Hri].
  - rewrite DictFacts.get_set in Hget. injection Hget as <-.
    apply DictFacts.In_values in Hin. destruct Hin as (k & Hin).
    apply DictFacts.In_set in Hin. destruct Hin as [[_ Hv]|Hin]; [congruence|].
    destruct (Dict.get (serializeRecordIdentity (relatedRecord e)) index)
      as [rels|] eqn:E; [|contradiction].
    apply (Ha rels E). apply DictFacts.In_values. now exists k.
  - rewrite DictFacts.get_set_ne in Hget by assumption.
    now apply (Ha rels' Hget).
Qed.

Lemma absent_perform e (c : Call) b :
  ~ addsEdge e c ->
  absent e (inverseRelationships (_state b)) ->
  absent e (inverseRelationships (_state (snd (perform c b)))).
Proof.
  intros Hc.
  apply (perform_preserves_index (absent e) (fun e' => e' <> e)).
  - intros e' b' Hne H. rewrite addInverseRelationship_index.
    now apply absent_assignEdge.
  - intros e' b' H. rewrite removeInverseRelationship_index.
    now apply absent_assignEdgeInPlace.
  - destruct c; simpl in *; auto. apply Forall_forall. intros e' Hin ->.
    contradiction.
Qed.

Lemma tombstoned_assignEdgeInPlace e ri rri (index : Index) :
  tombstoned e index -> tombstoned e (assignEdgeInPlace ri rri None index).
Proof.
  intros (rels & Hget & Hnull). unfold assignEdgeInPlace.
  destruct (Dict.get ri index) as [rels0|] eqn:E; [|now exists rels].
  destruct (string_dec ri (serializeRecordIdentity (relatedRecord e)))
    as [->|Hri].
  - rewrite Hget in E. injection E as <-.
    exists (Dict.set rri None rels). split; [apply DictFacts.get_set|].
    destruct (string_dec rri (serializeRecordRelationshipIdentity e))
      as [->|Hrri].
    + apply DictFacts.get_set.
    + now rewrite DictFacts.get_set_ne.
  - exists rels. split; [|assumption]. now rewrite DictFacts.get_set_ne.
Qed.

Lemma tombstoned_after_tombstone e (index : Index) :
  Dict.get (serializeRecordIdentity (relatedRecord e)) index <> None ->
  tombstoned e (assignEdgeInPlace (serializeRecordIdentity (relatedRecord e))
                                  (serializeRecordRelationshipIdentity e) None
                                  index).
Proof.
  intros Hsome. unfold assignEdgeInPlace.
  destruct (Dict.get (serializeRecordIdentity (relatedRecord e)) index)
    as [rels|] eqn:E; [|contradiction].
  exists (Dict.set (serializeRecordRelationshipIdentity e) None rels).
  split; apply DictFacts.get_set.
Qed.

Lemma assignEdgeInPlace_keeps_objects ri ri' rri (index : Index) :
  Dict.get ri' index <> None ->
  Dict.get ri' (assignEdgeInPlace ri rri None index) <> None.
Proof.
  intros Hsome. unfold assignEdgeInPlace.
  destruct (Dict.get ri index) as [rels|] eqn:E; [|assumption].
  destruct (string_dec ri ri') as [<-|Hne].
  - rewrite DictFacts.get_set. discriminate.
  - now rewrite DictFacts.get_set_ne.
Qed.

(** The removal loop: once it has passed [e], [e] is out of what is read
    and, where the index had an object for the related record, tombstoned. *)
Lemma removeInverseRelationships_loop e edges : forall b,
  indexKeyed (inverseRelationships (_state b)) ->
  let b' := snd (forEach edges removeInverseRelationship b) in
  indexKeyed (inverseRelationships (_state b')) /\
  (In e edges \/ absent e (inverseRelationships (_state b)) ->
   absent e (inverseRelationships (_state b'))) /\
  (Dict.get (serializeRecordIdentity (relatedRecord e))
            (inverseRelationships (_state b)) <> None ->
   In e edges \/ tombstoned e (inverseRelationships (_state b)) ->
   tombstoned e (inverseRelationships (_state b'))).
Proof.
  induction edges as [|e0 edges IH]; intros b Hk; cbv zeta.
  - simpl. split; [assumption|]. split; intros; tauto.
  - rewrite forEach_cons by apply removeInverseRelationship_normal.
    set (b1 := snd (removeInverseRelationship e0 b)).
    assert (Hk1 : indexKeyed (inverseRelationships (_state b1))).
    { subst b1. rewrite removeInverseRelationship_index.
      now apply indexKeyed_assignEdgeInPlace. }
    destruct (IH b1 Hk1) as (Hk' & Habs & Htomb).
    split; [assumption|]. split.
    + intros [[<-|Hin]|Ha]; apply Habs.
      * right. subst b1. rewrite removeInverseRelationship_index.
        now apply absent_after_tombstone.
      * now left.
      * right. subst b1. rewrite removeInverseRelationship_index.
        now apply absent_assignEdgeInPlace.
    + intros Hsome Hcase. apply Htomb.
      * subst b1. rewrite removeInverseRelationship_index.
        now apply assignEdgeInPlace_keeps_objects.
      * destruct Hcase as [[<-|Hin]|Ht].
        -- right. subst b1. rewrite removeInverseRelationship_index.
           now apply tombstoned_after_tombstone.
        -- now left.
        -- right. subst b1. rewrite removeInverseRelationship_index.
           now apply tombstoned_assignEdgeInPlace.
Qed.

(** C9. In a buffer whose index is keyed (as every index built by the
    buffer's methods is), after [removeInverseRelationshipsSync] every edge
    of the list is missing from the single-identity read of its related
    record; where the edge was read before, the index now holds [null] under
    its key; the edge stays missing through every later tracked call that
    does not add it, and is read again once it is added back. *)
Theorem removed_edge_is_not_read
    (b : Buffer) (edges : list RecordRelationshipIdentity)
    (e : RecordRelationshipIdentity) :
  indexKeyed (inverseRelationships (_state b)) ->
  In e edges ->
  let b' := snd (removeInverseRelationshipsSync edges b) in
  fst (removeInverseRelationshipsSync edges b) = Normal tt /\
  ~ In e (getInverseRelationshipsSync (inl (relatedRecord e)) b') /\
  (In e (getInverseRelationshipsSync (inl (relatedRecord e)) b) ->
   tombstoned e (inverseRelationships (_state b'))) /\
  (forall calls,
     Forall (fun c => ~ addsEdge e c) calls ->
     ~ In e (getInverseRelationshipsSync (inl (relatedRecord e))
               (snd (forEach calls perform b')))) /\
  In e (getInverseRelationshipsSync (inl (relatedRecord e))
          (snd (addInverseRelationshipsSync [e] b'))).
Proof.
  intros Hk Hin b'.
  destruct (removeInverseRelationships_loop e edges b Hk) as (Hk' & Habs & Htomb).
  change (snd (forEach edges removeInverseRelationship b)) with b'
    in Hk', Habs, Htomb.
  assert (Ha : absent e (inverseRelationships (_state b'))) by (apply Habs; now left).
  split; [apply forEach_normal, removeInverseRelationship_normal|].
  split; [now apply absent_read|]. split; [|split].
  - intros Hread. apply Htomb; [|now left].
    simpl in Hread. apply In_getInverseRelationships in Hread.
    destruct Hread as (rels & -> & _). discriminate.
  - intros calls Hcalls. apply absent_read.
    apply (forEach_preserves
             (fun b1 => absent e (inverseRelationships (_state b1)))
             (fun c => ~ addsEdge e c)); [|assumption|assumption].
    intros c b1. apply absent_perform.
  - simpl. apply In_getInverseRelationships.
    unfold addInverseRelationshipsSync.
    rewrite forEach_cons by apply addInverseRelationship_normal. simpl.
    rewrite addInverseRelationship_index. unfold assignEdge.
    eexists. split; [apply DictFacts.get_set|].
    apply DictFacts.In_values.
    exists (serializeRecordRelationshipIdentity e).
    apply DictFacts.get_In, DictFacts.get_set.
Qed.

(** [reset] with a keyed index, [startTrackingChanges] and
    [stopTrackingChanges] keep the index keyed as well. *)
Lemma indexKeyed_reset (state : option BufferState) b :
  match state with
  | Some st => indexKeyed (inverseRelationships st)
  | None => True
  end ->
  indexKeyed (inverseRelationships (_state (snd (reset state b)))).
Proof.
  destruct state as [st|]; simpl; [tauto|]. intros _ ri rels H. discriminate.
Qed.

Lemma indexKeyed_tracking_calls b :
  indexKeyed (inverseRelationships (_state b)) ->
  indexKeyed (inverseRelationships (_state (snd (startTrackingChanges b)))) /\
  indexKeyed (inverseRelationships (_state (snd (stopTrackingChanges b)))).
Proof.
  intros H. split; [exact H|].
  unfold stopTrackingChanges. now destruct (_delta b).
Qed.

(** A session that only removes edges ends with an empty changeset: the
    delta has no object for any related record, and the removal creates
    none. *)
Lemma removals_alone_are_not_tracked
    (edges : list RecordRelationshipIdentity) b :
  fst (session [RemoveInverseRelationships edges] b) = Normal emptyChangeset.
Proof.
  assert (Hloop : forall b1 : Buffer,
             _delta b1 = Some emptyState ->
             _delta (snd (forEach edges removeInverseRelationship b1))
               = Some emptyState).
  { intros b1 H1.
    apply (forEach_preserves (fun b2 => _delta b2 = Some emptyState)
             (fun _ => True)); [|now apply Forall_forall|assumption].
    intros e b2 _ H2. unfold removeInverseRelationship.
    destruct (Dict.get _ (inverseRelationships (_state b2))); [|assumption].
    unfold bind, updateStateInverse, updateDeltaInverse. simpl.
    rewrite H2. reflexivity. }
  destruct (session_runs [RemoveInverseRelationships edges] b)
    as (delta & Hdelta & Hrun).
  rewrite Hrun. simpl fst. f_equal.
  rewrite forEach_cons in Hdelta by apply perform_normal.
  simpl forEach in Hdelta. unfold ret in Hdelta. simpl snd in Hdelta.
  unfold perform, removeInverseRelationshipsSync in Hdelta.
  rewrite Hloop in Hdelta by reflexivity.
  injection Hdelta as <-. reflexivity.
Qed.

(** Whatever the buffer holds, the read of a list of identities is empty. *)
Lemma getInverseRelationshipsSync_list (identities : list RecordIdentity) b :
  getInverseRelationshipsSync (inr identities) b = [].
Proof. reflexivity. Qed.

(** With no entry under the type's name, [getRecordsSync] answers what
    [objectValues] makes of [undefined], whatever records are stored. *)
Lemma getRecordsSync_type_without_entry (type : string) b :
  Dict.get type (records (_state b)) = None ->
  getRecordsSync (Some (inl type)) b = objectValuesOfEntry None.
Proof. intros H. simpl. now rewrite H. Qed.

(** *** Records: what is stored is what is found *)

Lemma setRecordSync_records r b :
  records (_state (snd (setRecordSync r b))) =
  Dict.set (serializeRecordIdentity (identity r)) (Some r) (records (_state b)).
Proof. exact (f_equal fst (setRecordSync_view r b)). Qed.

Lemma getRecordSync_after_set r b i :
  getRecordSync i (snd (setRecordSync r b)) =
  if String.eqb (serializeRecordIdentity (identity r)) (serializeRecordIdentity i)
  then Some r
  else getRecordSync i b.
Proof.
  unfold getRecordSync. rewrite setRecordSync_records.
  destruct (String.eqb_spec (serializeRecordIdentity (identity r))
                            (serializeRecordIdentity i)) as [<-|Hne].
  - now rewrite DictFacts.get_set.
  - now rewrite DictFacts.get_set_ne.
Qed.

Lemma find_snoc {A : Type} (f : A -> bool) (l : list A) (x : A) :
  find f (l ++ [x]) = match find f l with
                      | Some y => Some y
                      | None => if f x then Some x else None
                      end.
Proof.
  induction l as [|a l IH]; simpl; [reflexivity|].
  destruct (f a); [reflexivity | exact IH].
Qed.

(** X1. [setRecordsSync] is an upsert in which the last write wins: after it,
    [getRecordSync] of an identity finds the last record of the list stored
    under the identity's key and, with none in the list, what it found
    before.  For one record this is [setRecordSync]. *)
Theorem setRecordsSync_last_write_wins (rs : list Record_) b i :
  fst (setRecordsSync rs b) = Normal tt /\
  getRecordSync i (snd (setRecordsSync rs b)) =
    match lastSet (serializeRecordIdentity i) rs with
    | Some r => Some r
    | None => getRecordSync i b
    end.
Proof.
  split; [apply forEach_normal, setRecordSync_normal|].
  unfold setRecordsSync, lastSet. revert b.
  induction rs as [|r rs IH]; intros b; [reflexivity|].
  rewrite forEach_cons by apply setRecordSync_normal.
  rewrite IH. simpl rev. rewrite find_snoc.
  destruct (find _ (rev rs)) as [y|]; [reflexivity|].
  rewrite getRecordSync_after_set.
  now destruct (String.eqb _ _).
Qed.

Lemma get_after_delete {V : Type} (k k0 : string) (v : V) (d : Dict.t V) :
  Dict.get k (Dict.delete k0 d) = Some v -> k <> k0 /\ Dict.get k d = Some v.
Proof.
  intros H. destruct (string_dec k0 k) as [->|Hne].
  - rewrite DictFacts.get_delete in H. discriminate.
  - rewrite DictFacts.get_delete_ne in H by assumption. split; congruence.
Qed.

Lemma recordsKeyed_set r (d : Dict.t (option Record_)) :
  recordsKeyed d ->
  recordsKeyed (Dict.set (serializeRecordIdentity (identity r)) (Some r) d).
Proof. exact (deltaKeyed_set r d). Qed.

Lemma recordsKeyed_delete key (d : Dict.t (option Record_)) :
  recordsKeyed d -> recordsKeyed (Dict.delete key d).
Proof.
  intros Hk k r H. apply get_after_delete in H. now apply Hk.
Qed.

(** What one removal does, told by what [getRecordSync] found. *)
Lemma removeRecordSync_run i b :
  removeRecordSync i b =
  (Normal (getRecordSync i b), snd (removeRecordSync i b)) /\
  records (_state (snd (removeRecordSync i b))) =
    match getRecordSync i b with
    | Some rec =>
        Dict.delete (serializeRecordIdentity (identity rec))
                    (records (_state b))
    | None => records (_state b)
    end.
Proof.
  unfold removeRecordSync. destruct (getRecordSync i b) as [rec|]; simpl.
  - unfold bind, updateStateRecords, trackRecord; simpl.
    destruct (_delta b); split; reflexivity.
  - split; reflexivity.
Qed.

Lemma getRecordSync_keyed i b rec :
  recordsKeyed (records (_state b)) ->
  getRecordSync i b = Some rec ->
  serializeRecordIdentity (identity rec) = serializeRecordIdentity i.
Proof.
  intros Hk H. unfold getRecordSync in H.
  destruct (Dict.get _ (records (_state b))) as [[r|]|] eqn:E; try discriminate.
  injection H as <-. exact (Hk _ _ E).
Qed.

Lemma removeRecordSync_keeps_keyed i b :
  recordsKeyed (records (_state b)) ->
  recordsKeyed (records (_state (snd (removeRecordSync i b)))).
Proof.
  intros Hk. destruct (removeRecordSync_run i b) as [_ ->].
  destruct (getRecordSync i b); [now apply recordsKeyed_delete | assumption].
Qed.

Lemma removeRecordSync_elsewhere i j b :
  recordsKeyed (records (_state b)) ->
  serializeRecordIdentity i <> serializeRecordIdentity j ->
  getRecordSync j (snd (removeRecordSync i b)) = getRecordSync j b.
Proof.
  intros Hk Hne. unfold getRecordSync at 1.
  destruct (removeRecordSync_run i b) as [_ ->].
  destruct (getRecordSync i b) as [rec|] eqn:E; [|reflexivity].
  rewrite (getRecordSync_keyed i b rec Hk E).
  now rewrite DictFacts.get_delete_ne.
Qed.

Lemma removeRecordSync_there i b :
  recordsKeyed (records (_state b)) ->
  getRecordSync i (snd (removeRecordSync i b)) = None.
Proof.
  intros Hk. unfold getRecordSync at 1.
  destruct (removeRecordSync_run i b) as [_ ->].
  destruct (getRecordSync i b) as [rec|] eqn:E.
  - rewrite (getRecordSync_keyed i b rec Hk E).
    now rewrite DictFacts.get_delete.
  - exact E.
Qed.

(** X2. In a buffer that holds its records under their own keys,
    [removeRecordSync] returns what [getRecordSync] finds for the identity
    ([undefined] for a record that is not stored), after it the identity is
    not found, every identity of another key is found as before, and the
    records are still held under their own keys. *)
Theorem removeRecordSync_removes i b :
  recordsKeyed (records (_state b)) ->
  fst (removeRecordSync i b) = Normal (getRecordSync i b) /\
  getRecordSync i (snd (removeRecordSync i b)) = None /\
  (forall j, serializeRecordIdentity i <> serializeRecordIdentity j ->
             getRecordSync j (snd (removeRecordSync i b)) = getRecordSync j b) /\
  recordsKeyed (records (_state (snd (removeRecordSync i b)))).
Proof.
  intros Hk. split; [|split; [|split]].
  - destruct (removeRecordSync_run i b) as [-> _]. reflexivity.
  - now apply removeRecordSync_there.
  - intros j Hne. now apply removeRecordSync_elsewhere.
  - now apply removeRecordSync_keeps_keyed.
Qed.

Lemma getRecords_fold (l : list RecordIdentity) b : forall acc,
  fold_left
    (fun records i =>
       match getRecordSync i b with
       | Some record => records ++ [record]
       | None => records
       end) l acc
  = acc ++ flat_map (fun i => found (getRecordSync i b)) l.
Proof.
  induction l as [|i l IH]; intros acc; simpl; [now rewrite app_nil_r|].
  rewrite IH. destruct (getRecordSync i b); simpl; [|reflexivity].
  now rewrite <- app_assoc.
Qed.

(** X3. [getRecordsSync] of a list of identities never throws: it returns the
    records found for the identities, in the order of the list, and skips the
    identities for which nothing is stored; so a record is returned exactly
    when [getRecordSync] finds it for an identity of the list. *)
Theorem getRecordsSync_by_identities (l : list RecordIdentity) b :
  getRecordsSync (Some (inr l)) b
    = Normal (flat_map (fun i => found (getRecordSync i b)) l) /\
  forall r,
    In r (flat_map (fun i => found (getRecordSync i b)) l) <->
    exists i, In i l /\ getRecordSync i b = Some r.
Proof.
  split.
  - simpl. now rewrite getRecords_fold.
  - intros r. rewrite in_flat_map. split.
    + intros (i & Hin & Hr). exists i. split; [assumption|].
      destruct (getRecordSync i b); simpl in Hr; [|contradiction].
      destruct Hr as [->|[]]. reflexivity.
    + intros (i & Hin & Hr). exists i. split; [assumption|].
      rewrite Hr. now left.
Qed.

Lemma getRecordSync_by_key i j b :
  serializeRecordIdentity i = serializeRecordIdentity j ->
  getRecordSync i b = getRecordSync j b.
Proof. unfold getRecordSync. now intros ->. Qed.

(** A removal only takes records away. *)
Lemma removeRecordSync_shrinks i j b r :
  getRecordSync j (snd (removeRecordSync i b)) = Some r ->
  getRecordSync j b = Some r.
Proof.
  unfold getRecordSync at 1. destruct (removeRecordSync_run i b) as [_ ->].
  destruct (getRecordSync i b) as [rec|]; [|exact (fun H => H)].
  destruct (Dict.get _ (Dict.delete _ _)) as [[x|]|] eqn:E; try discriminate.
  intros [= ->]. apply get_after_delete in E. destruct E as [_ E].
  unfold getRecordSync. now rewrite E.
Qed.

Lemma removeRecordsLoop_step i l acc b :
  removeRecordsLoop (i :: l) acc b =
  removeRecordsLoop l (acc ++ found (getRecordSync i b))
                    (snd (removeRecordSync i b)).
Proof.
  simpl. unfold removeRecordSync. destruct (getRecordSync i b) as [rec|]; simpl.
  - unfold bind, updateStateRecords, trackRecord; simpl.
    destruct (_delta b); reflexivity.
  - now rewrite app_nil_r.
Qed.

Lemma removeRecordsLoop_removes (l : list RecordIdentity) : forall acc b,
  recordsKeyed (records (_state b)) ->
  exists rs b',
    removeRecordsLoop l acc b = (Normal (acc ++ rs), b') /\
    (forall i, In i l -> getRecordSync i b' = None) /\
    (forall r, In r rs <-> exists i, In i l /\ getRecordSync i b = Some r) /\
    (forall j, (forall i, In i l ->
                  serializeRecordIdentity i <> serializeRecordIdentity j) ->
               getRecordSync j b' = getRecordSync j b) /\
    recordsKeyed (records (_state b')).
Proof.
  induction l as [|i l IH]; intros acc b Hk.
  - exists [], b. simpl. rewrite app_nil_r.
    split; [reflexivity|]. split; [intros i []|].
    split; [|split; [reflexivity | assumption]].
    intros r. split; [intros [] | intros (i & [] & _)].
  - rewrite removeRecordsLoop_step.
    destruct (IH (acc ++ found (getRecordSync i b))
                 (snd (removeRecordSync i b))
                 (removeRecordSync_keeps_keyed i b Hk))
      as (rs & b' & Hrun & Hgone & Hrs & Hframe & Hk').
    exists (found (getRecordSync i b) ++ rs), b'.
    split; [now rewrite Hrun, <- app_assoc|].
    split; [|split; [|split; [|assumption]]].
    + intros i0 [<-|Hin]; [|now apply Hgone].
      destruct (Exists_dec
                  (fun i1 => serializeRecordIdentity i1
                             = serializeRecordIdentity i) l) as [Hex|Hnex].
      { intros i1. apply string_dec. }
      * apply Exists_exists in Hex. destruct Hex as (i1 & Hin1 & Heq).
        rewrite <- (getRecordSync_by_key i1 i b' Heq). now apply Hgone.
      * rewrite Hframe; [now apply removeRecordSync_there|].
        intros i1 Hin1 Heq. apply Hnex. apply Exists_exists. now exists i1.
    + intros r. rewrite in_app_iff, Hrs. split.
      * intros [Hr|(i1 & Hin1 & Hr)].
        -- exists i. split; [now left|].
           destruct (getRecordSync i b); simpl in Hr; [|contradiction].
           destruct Hr as [->|[]]. reflexivity.
        -- exists i1. split; [now right|].
           now apply (removeRecordSync_shrinks i i1 b r).
      * intros (i1 & [<-|Hin1] & Hr).
        -- left. rewrite Hr. now left.
        -- destruct (string_dec (serializeRecordIdentity i)
                                (serializeRecordIdentity i1)) as [Heq|Hne].
           ++ left. rewrite (getRecordSync_by_key i i1 b Heq), Hr. now left.
           ++ right. exists i1. split; [assumption|].
              now rewrite removeRecordSync_elsewhere.
    + intros j Hj. rewrite Hframe.
      * apply removeRecordSync_elsewhere; [assumption|]. apply Hj. now left.
      * intros i1 Hin1. apply Hj. now right.
Qed.

(** The loop of [removeRecordsSync], run in a buffer [b] that differs from
    [b0] by the removal of the keys [seen], appends the records [b0] holds
    for the identities of new keys. *)
Lemma removeRecordsLoop_list b0 (l : list RecordIdentity) :
  forall seen acc b,
    recordsKeyed (records (_state b)) ->
    (forall j, getRecordSync j b =
               if existsb (String.eqb (serializeRecordIdentity j)) seen
               then None else getRecordSync j b0) ->
    fst (removeRecordsLoop l acc b)
      = Normal (acc ++ flat_map (fun i => found (getRecordSync i b0))
                                (firstOfEachKey seen l)).
Proof.
  induction l as [|i l IH]; intros seen acc b Hk Hb.
  - simpl. now rewrite app_nil_r.
  - rewrite removeRecordsLoop_step. cbn [firstOfEachKey].
    pose proof (Hb i) as Hi.
    destruct (existsb (String.eqb (serializeRecordIdentity i)) seen) eqn:Eseen.
    + rewrite Hi. cbn [found]. rewrite app_nil_r.
      apply IH; [now apply removeRecordSync_keeps_keyed|].
      intros j.
      destruct (string_dec (serializeRecordIdentity i)
                           (serializeRecordIdentity j)) as [Heq|Hne].
      * rewrite <- (getRecordSync_by_key i j _ Heq), <- Heq, Eseen.
        now apply removeRecordSync_there.
      * rewrite removeRecordSync_elsewhere by assumption. apply Hb.
    + rewrite Hi. cbn [flat_map]. rewrite app_assoc.
      apply IH; [now apply removeRecordSync_keeps_keyed|].
      intros j. cbn [existsb].
      destruct (string_dec (serializeRecordIdentity i)
                           (serializeRecordIdentity j)) as [Heq|Hne].
      * rewrite <- (getRecordSync_by_key i j _ Heq), <- Heq, String.eqb_refl.
        now apply removeRecordSync_there.
      * rewrite removeRecordSync_elsewhere by assumption.
        assert (Hneq : String.eqb (serializeRecordIdentity j)
                                  (serializeRecordIdentity i) = false).
        { apply String.eqb_neq. intros H. now apply Hne. }
        rewrite Hneq. apply Hb.
Qed.

(** X4. In a buffer that holds its records under their own keys,
    [removeRecordsSync] never throws; it returns the records that were stored
    for the identities of the list, in the order of the list and once for
    each key (an identity whose key an earlier identity of the list has adds
    nothing); afterwards none of these identities is found, every identity of
    another key is found as before, and the records are still held under
    their own keys. *)
Theorem removeRecordsSync_removes (l : list RecordIdentity) b :
  recordsKeyed (records (_state b)) ->
  exists rs b',
    removeRecordsSync l b = (Normal rs, b') /\
    rs = flat_map (fun i => found (getRecordSync i b)) (firstOfEachKey [] l) /\
    (forall i, In i l -> getRecordSync i b' = None) /\
    (forall r, In r rs <-> exists i, In i l /\ getRecordSync i b = Some r) /\
    (forall j, (forall i, In i l ->
                  serializeRecordIdentity i <> serializeRecordIdentity j) ->
               getRecordSync j b' = getRecordSync j b) /\
    recordsKeyed (records (_state b')).
Proof.
  intros Hk.
  destruct (removeRecordsLoop_removes l [] b Hk)
    as (rs & b' & Hrun & Hgone & Hrs & Hframe & Hk').
  exists rs, b'. split; [exact Hrun|].
  split; [|split; [exact Hgone|split; [exact Hrs|split; assumption]]].
  pose proof (removeRecordsLoop_list b l [] [] b Hk (fun j => eq_refl)) as Hlist.
  unfold removeRecordsSync in Hlist. rewrite Hrun in Hlist. simpl in Hlist.
  now injection Hlist.
Qed.

Lemma recordsKeyed_perform (c : Call) b :
  recordsKeyed (records (_state b)) ->
  recordsKeyed (records (_state (snd (perform c b)))).
Proof.
  apply (perform_preserves (fun b1 => recordsKeyed (records (_state b1)))
           (fun _ => True)).
  - intros b1 b2 Hv H. change (records (_state b2)) with (fst (recordsView b2)).
    now rewrite <- Hv.
  - intros r b1 _ H. rewrite setRecordSync_records. now apply recordsKeyed_set.
  - intros i b1 H. now apply removeRecordSync_keeps_keyed.
  - destruct c; simpl; auto. now apply Forall_forall.
Qed.

Lemma objectsKeyed_assignEdge e (index : Index) :
  objectsKeyed index ->
  objectsKeyed (assignEdge (serializeRecordIdentity (relatedRecord e))
                           (serializeRecordRelationshipIdentity e) (Some e)
                           index).
Proof.
  intros Hk ri rels k e' Hget Hk'. unfold assignEdge in Hget.
  destruct (string_dec (serializeRecordIdentity (relatedRecord e)) ri)
    as [<-|Hne].
  - rewrite DictFacts.get_set in Hget. injection Hget as <-.
    destruct (string_dec (serializeRecordRelationshipIdentity e) k)
      as [<-|Hnk].
    + rewrite DictFacts.get_set in Hk'. now injection Hk' as <-.
    + rewrite DictFacts.get_set_ne in Hk' by assumption.
      destruct (Dict.get _ index) as [rels|] eqn:E; [|discriminate].
      exact (Hk _ _ _ _ E Hk').
  - rewrite DictFacts.get_set_ne in Hget by assumption.
    exact (Hk _ _ _ _ Hget Hk').
Qed.

Lemma objectsKeyed_assignEdgeInPlace ri rri (index : Index) :
  objectsKeyed index -> objectsKeyed (assignEdgeInPlace ri rri None index).
Proof.
  intros Hk. unfold assignEdgeInPlace.
  destruct (Dict.get ri index) as [rels0|] eqn:E; [|assumption].
  intros ri' rels k e Hget Hk'.
  destruct (string_dec ri ri') as [<-|Hne].
  - rewrite DictFacts.get_set in Hget. injection Hget as <-.
    destruct (string_dec rri k) as [<-|Hnk].
    + rewrite DictFacts.get_set in Hk'. discriminate.
    + rewrite DictFacts.get_set_ne in Hk' by assumption.
      exact (Hk _ _ _ _ E Hk').
  - rewrite DictFacts.get_set_ne in Hget by assumption.
    exact (Hk _ _ _ _ Hget Hk').
Qed.

Lemma objectsKeyed_perform (c : Call) b :
  objectsKeyed (inverseRelationships (_state b)) ->
  objectsKeyed (inverseRelationships (_state (snd (perform c b)))).
Proof.
  apply (perform_preserves_index objectsKeyed (fun _ => True)).
  - intros e b' _ H. rewrite addInverseRelationship_index.
    now apply objectsKeyed_assignEdge.
  - intros e b' H. rewrite removeInverseRelationship_index.
    now apply objectsKeyed_assignEdgeInPlace.
  - destruct c; simpl; auto. now apply Forall_forall.
Qed.

(** X5. The buffer files everything under its own keys: each record under
    the key of its identity, each edge under the key of its related record
    and, there, under its own key, no object of the index with a key twice.
    A new buffer is filed so, and a buffer filed so still is after any
    sequence of tracked calls, and after the start and the end of a
    session. *)
Theorem calls_keep_the_buffer_keyed (calls : list Call) b :
  filedByKey (@newBuffer Value) /\
  (filedByKey b ->
   filedByKey (snd (forEach calls perform b)) /\
   filedByKey (snd (startTrackingChanges b)) /\
   filedByKey (snd (stopTrackingChanges b))).
Proof.
  split.
  - split; [|split].
    + intros k r H. discriminate.
    + apply indexKeyed_newBuffer.
    + intros ri rels k e H. discriminate.
  - intros Hb. split; [|split].
    + apply (forEach_preserves filedByKey (fun _ => True));
        [|now apply Forall_forall|assumption].
      intros c b1 _ (H1 & H2 & H3).
      split; [now apply recordsKeyed_perform|].
      split; [now apply indexKeyed_perform | now apply objectsKeyed_perform].
    + exact Hb.
    + unfold stopTrackingChanges. now destruct (_delta b).
Qed.

Lemma removeRecordsLoop_index (l : list RecordIdentity) : forall acc b,
  inverseRelationships (_state (snd (removeRecordsLoop l acc b)))
    = inverseRelationships (_state b).
Proof.
  induction l as [|i l IH]; intros acc b; [reflexivity|].
  now rewrite removeRecordsLoop_step, IH, removeRecordSync_index.
Qed.

Lemma read_by_index i b b' :
  inverseRelationships (_state b') = inverseRelationships (_state b) ->
  getInverseRelationshipsSync (inl i) b' = getInverseRelationshipsSync (inl i) b.
Proof. simpl. unfold _getInverseRelationshipsSync. now intros ->. Qed.

Lemma getRecordSync_by_view i b b' :
  recordsView b' = recordsView b -> getRecordSync i b' = getRecordSync i b.
Proof.
  intros H. unfold getRecordSync.
  change (records (_state b')) with (fst (recordsView b')). now rewrite H.
Qed.

(** X6. Records and edges are kept apart.  Setting and removing records, one
    or many, leaves every read of the inverse relationships as it was: the
    buffer prunes no edge from or to a removed record.  Adding and removing
    edges leaves every [getRecordSync] as it was. *)
Theorem records_and_edges_are_kept_apart (c : Call) b :
  match c with
  | AddInverseRelationships _ | RemoveInverseRelationships _ =>
      forall i, getRecordSync i (snd (perform c b)) = getRecordSync i b
  | _ =>
      forall i, getInverseRelationshipsSync (inl i) (snd (perform c b))
                = getInverseRelationshipsSync (inl i) b
  end.
Proof.
  destruct c as [r|rs|i0|l|es|es]; intros i.
  - apply read_by_index. simpl. apply setRecordSync_index.
  - apply read_by_index. simpl. unfold setRecordsSync.
    apply (forEach_preserves
             (fun b1 => inverseRelationships (_state b1)
                        = inverseRelationships (_state b))
             (fun _ => True)); [|now apply Forall_forall|reflexivity].
    intros r b1 _ H. now rewrite setRecordSync_index.
  - apply read_by_index. rewrite perform_RemoveRecord.
    apply removeRecordSync_index.
  - apply read_by_index. simpl. unfold bind, removeRecordsSync.
    pose proof (removeRecordsLoop_index l [] b) as H.
    now destruct (removeRecordsLoop l [] b) as [[o|err] b1].
  - apply getRecordSync_by_view. simpl. unfold addInverseRelationshipsSync.
    apply (forEach_preserves (fun b1 => recordsView b1 = recordsView b)
             (fun _ => True)); [|now apply Forall_forall|reflexivity].
    intros e b1 _ H. now rewrite addInverseRelationship_view.
  - apply getRecordSync_by_view. simpl. unfold removeInverseRelationshipsSync.
    apply (forEach_preserves (fun b1 => recordsView b1 = recordsView b)
             (fun _ => True)); [|now apply Forall_forall|reflexivity].
    intros e b1 _ H. now rewrite removeInverseRelationship_view.
Qed.

Lemma closed_perform (c : Call) b :
  snd (recordsView b) = None -> snd (recordsView (snd (perform c b))) = None.
Proof.
  apply (perform_preserves (fun b1 => snd (recordsView b1) = None)
           (fun _ => True)).
  - intros b1 b2 Hv. now rewrite Hv.
  - intros r b1 _ H. rewrite setRecordSync_view. cbn [snd]. now rewrite H.
  - intros i b1 H.
    destruct (removeRecordSync_view i b1) as [[_ ->]|(rec & _ & ->)];
      [assumption|]. cbn [snd]. now rewrite H.
  - destruct c; simpl; auto. now apply Forall_forall.
Qed.

(** X7. Changes are tracked in a session only, and a session is closed once.
    With no session open, no sequence of tracked calls opens one, and
    [stopTrackingChanges] after it throws and leaves the buffer as it is.
    After a session, whatever its calls, [stopTrackingChanges] throws
    again. *)
Theorem stopTrackingChanges_needs_an_open_session
    (calls : list Call) (st : BufferState) (b0 : Buffer) :
  let message :=
    "Changes are not being tracked. Call 'startTrackingChanges' before 'stopTrackingChanges'" in
  (exists b,
     forEach calls perform {| _state := st; _delta := None |} = (Normal tt, b) /\
     _delta b = None /\
     stopTrackingChanges b = (Throw (Error message), b)) /\
  (exists changeset b,
     session calls b0 = (Normal changeset, b) /\
     stopTrackingChanges b = (Throw (Error message), b)).
Proof.
  intros message. split.
  - set (b1 := {| _state := st; _delta := None |}).
    exists (snd (forEach calls perform b1)).
    assert (Hclosed : snd (recordsView (snd (forEach calls perform b1))) = None).
    { apply (forEach_preserves (fun b2 => snd (recordsView b2) = None)
               (fun _ => True)); [|now apply Forall_forall|reflexivity].
      intros c b2 _. apply closed_perform. }
    assert (Hdelta : _delta (snd (forEach calls perform b1)) = None).
    { unfold recordsView in Hclosed. simpl in Hclosed.
      now destruct (_delta (snd (forEach calls perform b1))). }
    split; [|split; [assumption|]].
    + pose proof (forEach_normal calls perform perform_normal b1) as Hn.
      destruct (forEach calls perform b1) as [[[]|err] b2]; simpl in *;
        [reflexivity | discriminate].
    + unfold stopTrackingChanges. now rewrite Hdelta.
  - destruct (session_runs calls b0) as (delta & _ & Hrun).
    eexists. eexists. split; [exact Hrun|]. reflexivity.
Qed.

(** *** Edges: keys and reads *)

(** X8. The key of an edge decodes to the edge's record key and relationship
    when [::] occurs neither in the record's key followed by a colon nor in
    the relationship's name; if moreover the keys of the record and of the
    related record are read back as their identities, [stopTrackingChanges]
    reads the edge back from its keys. *)
Theorem edge_key_round_trip e :
  JsString.includes "::" (serializeRecordIdentity (record e) ++ ":") = false ->
  JsString.includes "::" (relationship e) = false ->
  deserializeRecordRelationshipIdentity (serializeRecordRelationshipIdentity e)
    = (deserializeRecordIdentity (serializeRecordIdentity (record e)),
       relationship e) /\
  (deserializeRecordIdentity (serializeRecordIdentity (record e)) = record e ->
   deserializeRecordIdentity (serializeRecordIdentity (relatedRecord e))
     = relatedRecord e ->
   readsBack e).
Proof.
  intros Hrecord Hrelationship.
  assert (Hkey : deserializeRecordRelationshipIdentity
                   (serializeRecordRelationshipIdentity e)
                 = (deserializeRecordIdentity
                      (serializeRecordIdentity (record e)),
                    relationship e)).
  { unfold deserializeRecordRelationshipIdentity,
      serializeRecordRelationshipIdentity, JsString.split.
    rewrite (JsStringFacts.split_joined_by_separator _ _ "" Hrecord
               Hrelationship).
    reflexivity. }
  split; [exact Hkey|].
  intros Hr Hrelated. unfold readsBack, edgeOfKeys.
  rewrite Hkey, Hr, Hrelated. now destruct e.
Qed.

Lemma NoDup_keyed_values {A : Type} (key : A -> string) :
  forall rels : Dict.t (option A),
    Dict.wf rels ->
    (forall k x, In (k, Some x) rels -> k = key x) ->
    NoDup (flat_map (fun o => match o with
                              | Some x => [x]
                              | None => []
                              end) (Dict.values rels)).
Proof.
  unfold Dict.wf, Dict.keys, Dict.values.
  induction rels as [|[k v] rels IH]; intros Hwf Hkeys; simpl; [constructor|].
  inversion Hwf as [|? ? Hnotin Hwf']; subst.
  assert (Hrest : NoDup (flat_map (fun o => match o with
                                            | Some x => [x]
                                            | None => []
                                            end) (map snd rels))).
  { apply IH; [assumption|]. intros k' x Hin. apply Hkeys. now right. }
  destruct v as [x|]; [|exact Hrest]. simpl. constructor; [|exact Hrest].
  intros Hin. apply in_flat_map in Hin. destruct Hin as ([y|] & Hy & Hx);
    simpl in Hx; [|contradiction].
  destruct Hx as [->|[]].
  apply in_map_iff in Hy. destruct Hy as ([k' v'] & Hv & Hin). simpl in Hv.
  subst v'. apply Hnotin. apply in_map_iff. exists (k', Some x).
  split; [|assumption]. simpl.
  rewrite (Hkeys k x (or_introl eq_refl)).
  apply Hkeys. now right.
Qed.

(** X9. In a buffer whose index is keyed, a read of the inverse
    relationships of a record lists no edge twice. *)
Theorem read_lists_each_edge_once i b :
  indexKeyed (inverseRelationships (_state b)) ->
  NoDup (getInverseRelationshipsSync (inl i) b).
Proof.
  intros Hk. simpl. unfold _getInverseRelationshipsSync, objectValues.
  destruct (Dict.get _ (inverseRelationships (_state b))) as [rels|] eqn:E;
    [|constructor].
  destruct (Hk _ _ E) as [Hwf Hkeys].
  apply (NoDup_keyed_values serializeRecordRelationshipIdentity);
    [assumption|].
  intros k x Hin. apply Hkeys. now apply DictFacts.In_get.
Qed.

Lemma assignEdge_twice ri rri v (index : Index) :
  assignEdge ri rri v (assignEdge ri rri v index) = assignEdge ri rri v index.
Proof.
  unfold assignEdge.
  rewrite DictFacts.get_set, !DictFacts.set_set. reflexivity.
Qed.

(** X10. Adding an edge that was just added changes nothing: the state, and
    the delta of an open session, are after the second
    [addInverseRelationshipsSync] what they were after the first. *)
Theorem adding_an_edge_twice_is_adding_it_once e b :
  snd (addInverseRelationshipsSync [e] (snd (addInverseRelationshipsSync [e] b)))
    = snd (addInverseRelationshipsSync [e] b).
Proof.
  unfold addInverseRelationshipsSync.
  rewrite !forEach_cons by apply addInverseRelationship_normal. simpl.
  unfold addInverseRelationship, bind, updateStateInverse, updateDeltaInverse.
  simpl. destruct (_delta b) as [delta|]; simpl;
    now rewrite ?assignEdge_twice.
Qed.

Lemma filed_after_add e (index : Index) :
  filed e (assignEdge (serializeRecordIdentity (relatedRecord e))
                      (serializeRecordRelationshipIdentity e) (Some e) index).
Proof.
  unfold assignEdge. eexists. split; apply DictFacts.get_set.
Qed.

Lemma filed_assignEdge e e' (index : Index) :
  (sameKeys e e' -> e' = e) ->
  filed e index ->
  filed e (assignEdge (serializeRecordIdentity (relatedRecord e'))
                      (serializeRecordRelationshipIdentity e') (Some e') index).
Proof.
  intros Hsame (rels & Hget & He). unfold assignEdge.
  destruct (string_dec (serializeRecordIdentity (relatedRecord e'))
                       (serializeRecordIdentity (relatedRecord e)))
    as [Hri|Hri].
  - rewrite Hri, Hget. eexists. split; [apply DictFacts.get_set|].
    destruct (string_dec (serializeRecordRelationshipIdentity e')
                         (serializeRecordRelationshipIdentity e))
      as [Hrri|Hrri].
    + rewrite (Hsame (conj Hri Hrri)). apply DictFacts.get_set.
    + now rewrite DictFacts.get_set_ne.
  - exists rels. split; [|assumption]. now rewrite DictFacts.get_set_ne.
Qed.

Lemma filed_read e b :
  filed e (inverseRelationships (_state b)) ->
  In e (getInverseRelationshipsSync (inl (relatedRecord e)) b).
Proof.
  intros (rels & Hget & He). simpl. apply In_getInverseRelationships.
  exists rels. split; [assumption|]. apply DictFacts.In_values.
  exists (serializeRecordRelationshipIdentity e). now apply DictFacts.get_In.
Qed.

(** X11. After [addInverseRelationshipsSync], an edge of the list is read for
    its related record, provided no other edge of the list is filed under
    the same keys. *)
Theorem added_edge_is_read (es : list RecordRelationshipIdentity) e b :
  In e es ->
  (forall e', In e' es -> sameKeys e e' -> e' = e) ->
  In e (getInverseRelationshipsSync (inl (relatedRecord e))
          (snd (addInverseRelationshipsSync es b))).
Proof.
  intros Hin Hsame. apply filed_read. unfold addInverseRelationshipsSync.
  revert b Hin Hsame.
  assert (Hkeep : forall es b,
             (forall e', In e' es -> sameKeys e e' -> e' = e) ->
             filed e (inverseRelationships (_state b)) ->
             filed e (inverseRelationships
                        (_state (snd (forEach es addInverseRelationship b))))).
  { intros es0. induction es0 as [|e0 es0 IH]; intros b Hsame Hf;
      [assumption|].
    rewrite forEach_cons by apply addInverseRelationship_normal.
    apply IH; [intros e' H; apply Hsame; now right|].
    rewrite addInverseRelationship_index. apply filed_assignEdge;
      [|assumption]. apply Hsame. now left. }
  induction es as [|e0 es IH]; intros b Hin Hsame; [contradiction|].
  rewrite forEach_cons by apply addInverseRelationship_normal.
  destruct Hin as [->|Hin].
  - apply Hkeep; [intros e' H; apply Hsame; now right|].
    rewrite addInverseRelationship_index. apply filed_after_add.
  - apply IH; [assumption|]. intros e' H. apply Hsame. now right.
Qed.

(** *** Edges in a tracked session *)

Lemma addInverseRelationship_indexView e b :
  indexView (snd (addInverseRelationship e b)) =
  (assignEdge (serializeRecordIdentity (relatedRecord e))
              (serializeRecordRelationshipIdentity e) (Some e)
              (fst (indexView b)),
   option_map (assignEdge (serializeRecordIdentity (relatedRecord e))
                          (serializeRecordRelationshipIdentity e) (Some e))
              (snd (indexView b))).
Proof.
  unfold addInverseRelationship, bind, updateStateInverse, updateDeltaInverse,
    indexView; simpl.
  destruct (_delta b); reflexivity.
Qed.

Lemma removeInverseRelationship_indexView e b :
  indexView (snd (removeInverseRelationship e b)) =
  match Dict.get (serializeRecordIdentity (relatedRecord e))
                 (fst (indexView b)) with
  | Some _ =>
      (assignEdgeInPlace (serializeRecordIdentity (relatedRecord e))
                         (serializeRecordRelationshipIdentity e) None
                         (fst (indexView b)),
       option_map
         (assignEdgeInPlace (serializeRecordIdentity (relatedRecord e))
                            (serializeRecordRelationshipIdentity e) None)
         (snd (indexView b)))
  | None => indexView b
  end.
Proof.
  unfold removeInverseRelationship, indexView. simpl.
  destruct (Dict.get _ (inverseRelationships (_state b))); [|reflexivity].
  unfold bind, updateStateInverse, updateDeltaInverse; simpl.
  destruct (_delta b); reflexivity.
Qed.

Lemma setRecordSync_indexView r b :
  indexView (snd (setRecordSync r b)) = indexView b.
Proof.
  unfold setRecordSync, bind, updateStateRecords, trackRecord, indexView; simpl.
  destruct (_delta b); reflexivity.
Qed.

Lemma removeRecordSync_indexView i b :
  indexView (snd (removeRecordSync i b)) = indexView b.
Proof.
  unfold removeRecordSync. destruct (getRecordSync i b); [|reflexivity].
  unfold bind, updateStateRecords, trackRecord, indexView; simpl.
  destruct (_delta b); reflexivity.
Qed.

Lemma removeRecordsLoop_indexView (l : list RecordIdentity) : forall acc b,
  indexView (snd (removeRecordsLoop l acc b)) = indexView b.
Proof.
  induction l as [|i l IH]; intros acc b; [reflexivity|].
  now rewrite removeRecordsLoop_step, IH, removeRecordSync_indexView.
Qed.

(** A property of the two indexes that adding the edges allowed to be added
    and removing the edges allowed to be removed keep is kept by every call
    within these allowances. *)
Lemma perform_preserves_edges (P : Buffer -> Prop)
    (okAdd okRemove : RecordRelationshipIdentity -> Prop) :
  (forall b b', indexView b = indexView b' -> P b -> P b') ->
  (forall e b, okAdd e -> P b -> P (snd (addInverseRelationship e b))) ->
  (forall e b, okRemove e -> P b -> P (snd (removeInverseRelationship e b))) ->
  forall (c : Call) b,
    match c with
    | AddInverseRelationships es => Forall okAdd es
    | RemoveInverseRelationships es => Forall okRemove es
    | _ => True
    end ->
    P b -> P (snd (perform c b)).
Proof.
  intros Hview Hadd Hremove c b Hc HP.
  destruct c as [r|rs|i|l|es|es]; simpl.
  - apply (Hview b); [|assumption]. symmetry. apply setRecordSync_indexView.
  - apply (Hview b); [|assumption]. symmetry. unfold setRecordsSync.
    apply (forEach_preserves (fun b1 => indexView b1 = indexView b)
             (fun _ => True)); [|now apply Forall_forall|reflexivity].
    intros r b1 _ H. now rewrite setRecordSync_indexView.
  - apply (Hview b); [|assumption]. symmetry.
    pose proof (removeRecordSync_indexView i b) as H. unfold bind.
    now destruct (removeRecordSync i b) as [[o|err] b1].
  - apply (Hview b); [|assumption]. symmetry.
    pose proof (removeRecordsLoop_indexView l [] b) as H.
    unfold bind, removeRecordsSync.
    now destruct (removeRecordsLoop l [] b) as [[o|err] b1].
  - unfold addInverseRelationshipsSync.
    now apply (forEach_preserves P okAdd).
  - unfold removeInverseRelationshipsSync.
    now apply (forEach_preserves P okRemove).
Qed.

Lemma hasObject_assignEdge ri ri' rri v (index : Index) :
  hasObject ri index -> hasObject ri (assignEdge ri' rri v index).
Proof.
  unfold hasObject, assignEdge. intros H.
  destruct (string_dec ri' ri) as [->|Hne].
  - rewrite DictFacts.get_set. discriminate.
  - now rewrite DictFacts.get_set_ne.
Qed.

Lemma hasObject_after_assignEdge ri rri v (index : Index) :
  hasObject ri (assignEdge ri rri v index).
Proof. unfold hasObject, assignEdge. rewrite DictFacts.get_set. discriminate. Qed.

Lemma entryIn_after_assignEdge ri rri v (index : Index) :
  entryIn ri rri (isNull v) (assignEdge ri rri v index).
Proof.
  unfold entryIn, assignEdge. eexists. exists v.
  split; [apply DictFacts.get_set|]. split; [apply DictFacts.get_set|].
  reflexivity.
Qed.

Lemma entryIn_after_assignEdgeInPlace ri rri (index : Index) :
  hasObject ri index ->
  entryIn ri rri true (assignEdgeInPlace ri rri None index).
Proof.
  unfold hasObject, entryIn, assignEdgeInPlace. intros H.
  destruct (Dict.get ri index) as [rels|]; [|contradiction].
  eexists. exists None.
  split; [apply DictFacts.get_set|]. split; [apply DictFacts.get_set|].
  reflexivity.
Qed.

(** Assigning under other keys, or a value of the same kind under the same
    keys, keeps an entry and its kind. *)
Lemma entryIn_assignEdge ri rri null ri' rri' v (index : Index) :
  (ri' = ri -> rri' = rri -> isNull v = null) ->
  entryIn ri rri null index ->
  entryIn ri rri null (assignEdge ri' rri' v index).
Proof.
  intros Hsame (rels & v0 & Hget & Hv & Hnull). unfold entryIn, assignEdge.
  destruct (string_dec ri' ri) as [->|Hri].
  - rewrite Hget. eexists. rewrite DictFacts.get_set.
    destruct (string_dec rri' rri) as [->|Hrri].
    + exists v. rewrite DictFacts.get_set. auto.
    + exists v0. rewrite DictFacts.get_set_ne by assumption. auto.
  - exists rels, v0. now rewrite DictFacts.get_set_ne.
Qed.

Lemma entryIn_assignEdgeInPlace ri rri null ri' rri' (index : Index) :
  (ri' = ri -> rri' = rri -> null = true) ->
  entryIn ri rri null index ->
  entryIn ri rri null (assignEdgeInPlace ri' rri' None index).
Proof.
  intros Hsame (rels & v0 & Hget & Hv & Hnull).
  unfold entryIn, assignEdgeInPlace.
  destruct (Dict.get ri' index) as [rels'|] eqn:E; [|now exists rels, v0].
  destruct (string_dec ri' ri) as [->|Hri].
  - rewrite Hget in E. injection E as <-.
    eexists. rewrite DictFacts.get_set.
    destruct (string_dec rri' rri) as [->|Hrri].
    + exists None. rewrite DictFacts.get_set.
      split; [reflexivity|]. split; [reflexivity|]. simpl. symmetry. auto.
    + exists v0. rewrite DictFacts.get_set_ne by assumption. auto.
  - exists rels, v0. now rewrite DictFacts.get_set_ne.
Qed.

Lemma deltaEntry_after_add e b :
  snd (indexView b) <> None ->
  deltaEntry e false (snd (addInverseRelationship e b)) /\
  bothHoldObject e (snd (addInverseRelationship e b)).
Proof.
  intros Hopen. unfold deltaEntry, bothHoldObject.
  rewrite addInverseRelationship_indexView. cbn [fst snd].
  destruct (snd (indexView b)) as [index|]; [|contradiction].
  cbn [option_map]. split; [|split].
  - eexists. split; [reflexivity|].
    exact (entryIn_after_assignEdge _ _ (Some e) index).
  - apply hasObject_after_assignEdge.
  - eexists. split; [reflexivity|]. apply hasObject_after_assignEdge.
Qed.

Lemma deltaEntry_add e null e' b :
  (sameKeys e e' -> null = false) ->
  deltaEntry e null b -> deltaEntry e null (snd (addInverseRelationship e' b)).
Proof.
  intros Hsame (index & Hd & He). unfold deltaEntry.
  rewrite addInverseRelationship_indexView. cbn [snd]. rewrite Hd.
  cbn [option_map]. eexists. split; [reflexivity|].
  apply entryIn_assignEdge; [|assumption].
  intros H1 H2. simpl. symmetry. apply Hsame. now split.
Qed.

Lemma deltaEntry_remove e null e' b :
  (sameKeys e e' -> null = true) ->
  deltaEntry e null b ->
  deltaEntry e null (snd (removeInverseRelationship e' b)).
Proof.
  intros Hsame (index & Hd & He). unfold deltaEntry.
  rewrite removeInverseRelationship_indexView.
  destruct (Dict.get _ (fst (indexView b))); [|now exists index].
  cbn [snd]. rewrite Hd. cbn [option_map]. eexists. split; [reflexivity|].
  apply entryIn_assignEdgeInPlace; [|assumption].
  intros H1 H2. apply Hsame. now split.
Qed.

Lemma bothHoldObject_add e e' b :
  bothHoldObject e b -> bothHoldObject e (snd (addInverseRelationship e' b)).
Proof.
  intros (Hs & index & Hd & Ho). unfold bothHoldObject.
  rewrite addInverseRelationship_indexView. cbn [fst snd]. rewrite Hd.
  cbn [option_map]. split; [now apply hasObject_assignEdge|].
  eexists. split; [reflexivity|]. now apply hasObject_assignEdge.
Qed.

Lemma bothHoldObject_remove e e' b :
  bothHoldObject e b -> bothHoldObject e (snd (removeInverseRelationship e' b)).
Proof.
  intros (Hs & index & Hd & Ho). unfold bothHoldObject.
  rewrite removeInverseRelationship_indexView.
  destruct (Dict.get _ (fst (indexView b))); [|split; [assumption|now exists index]].
  cbn [fst snd]. rewrite Hd. cbn [option_map].
  split; [now apply assignEdgeInPlace_keeps_objects|].
  eexists. split; [reflexivity|]. now apply assignEdgeInPlace_keeps_objects.
Qed.

Lemma deltaEntry_after_remove e b :
  bothHoldObject e b ->
  deltaEntry e true (snd (removeInverseRelationship e b)).
Proof.
  intros (Hs & index & Hd & Ho). unfold deltaEntry.
  rewrite removeInverseRelationship_indexView. unfold hasObject in Hs.
  destruct (Dict.get _ (fst (indexView b))); [|contradiction].
  cbn [snd]. rewrite Hd. cbn [option_map]. eexists. split; [reflexivity|].
  now apply entryIn_after_assignEdgeInPlace.
Qed.

Lemma opened_perform (c : Call) b :
  snd (indexView b) <> None -> snd (indexView (snd (perform c b))) <> None.
Proof.
  apply (perform_preserves_edges (fun b1 => snd (indexView b1) <> None)
           (fun _ => True) (fun _ => True)).
  - intros b1 b2 Hv. now rewrite Hv.
  - intros e b1 _ H. rewrite addInverseRelationship_indexView. cbn [snd].
    now destruct (snd (indexView b1)).
  - intros e b1 _ H. rewrite removeInverseRelationship_indexView.
    destruct (Dict.get _ (fst (indexView b1))); [|assumption]. cbn [snd].
    now destruct (snd (indexView b1)).
  - destruct c; simpl; auto; now apply Forall_forall.
Qed.

Lemma deltaEntry_perform e null (c : Call) b :
  (null = false -> ~ removesKeysOf e c) ->
  (null = true -> ~ addsKeysOf e c) ->
  deltaEntry e null b -> deltaEntry e null (snd (perform c b)).
Proof.
  intros Hremove Hadd.
  apply (perform_preserves_edges (deltaEntry e null)
           (fun e' => sameKeys e e' -> null = false)
           (fun e' => sameKeys e e' -> null = true)).
  - unfold deltaEntry. intros b1 b2 Hv. now rewrite Hv.
  - intros e' b1. apply deltaEntry_add.
  - intros e' b1. apply deltaEntry_remove.
  - destruct c as [r|rs|i|l|es|es]; simpl in *; auto.
    + destruct null; [|now apply Forall_forall].
      specialize (Hadd eq_refl). apply Forall_Exists_neg in Hadd.
      apply Forall_forall. intros e' Hin Hsame.
      rewrite Forall_forall in Hadd. now destruct (Hadd e' Hin).
    + destruct null; [now apply Forall_forall|].
      specialize (Hremove eq_refl). apply Forall_Exists_neg in Hremove.
      apply Forall_forall. intros e' Hin Hsame.
      rewrite Forall_forall in Hremove. now destruct (Hremove e' Hin).
Qed.

Lemma bothHoldObject_perform e (c : Call) b :
  bothHoldObject e b -> bothHoldObject e (snd (perform c b)).
Proof.
  apply (perform_preserves_edges (bothHoldObject e)
           (fun _ => True) (fun _ => True)).
  - unfold bothHoldObject. intros b1 b2 Hv. now rewrite Hv.
  - intros e' b1 _. apply bothHoldObject_add.
  - intros e' b1 _. apply bothHoldObject_remove.
  - destruct c; simpl; auto; now apply Forall_forall.
Qed.

(** Adding a list with [e] in it, in an open session. *)
Lemma add_call_tracks e es : forall b,
  snd (indexView b) <> None ->
  In e es \/ (deltaEntry e false b /\ bothHoldObject e b) ->
  deltaEntry e false (snd (forEach es addInverseRelationship b)) /\
  bothHoldObject e (snd (forEach es addInverseRelationship b)).
Proof.
  induction es as [|e0 es IH]; intros b Hopen Hcase.
  - destruct Hcase as [[]|H]. exact H.
  - rewrite forEach_cons by apply addInverseRelationship_normal.
    apply IH.
    + rewrite addInverseRelationship_indexView. cbn [snd].
      now destruct (snd (indexView b)).
    + destruct Hcase as [[->|Hin]|[He Hb]].
      * right. now apply deltaEntry_after_add.
      * now left.
      * right. split; [|now apply bothHoldObject_add].
        apply deltaEntry_add; [reflexivity | assumption].
Qed.

(** Removing a list with [e] in it, where an object is held for [e]. *)
Lemma remove_call_tracks e es : forall b,
  bothHoldObject e b ->
  In e es \/ deltaEntry e true b ->
  deltaEntry e true (snd (forEach es removeInverseRelationship b)).
Proof.
  induction es as [|e0 es IH]; intros b Hb Hcase.
  - destruct Hcase as [[]|H]. exact H.
  - rewrite forEach_cons by apply removeInverseRelationship_normal.
    apply IH; [now apply bothHoldObject_remove|].
    destruct Hcase as [[->|Hin]|He].
    + right. now apply deltaEntry_after_remove.
    + now left.
    + right. apply deltaEntry_remove; [reflexivity | assumption].
Qed.

(** *** What [stopTrackingChanges] reads off the delta's index *)

Lemma edgesListed_collectRecord removed (dr : Dict.t (option Record_)) ks :
  forall changeset,
    edgesListed removed (fold_left (collectRecord dr) ks changeset)
      = edgesListed removed changeset.
Proof.
  induction ks as [|k ks IH]; intros changeset; simpl; [reflexivity|].
  rewrite IH. unfold collectRecord.
  destruct (Dict.get k dr) as [[rv|]|]; now destruct removed.
Qed.

Lemma collectRelationship_lists removed related rels
    (changeset : @RecordChangeset Value) rel x :
  listed x (edgesListed removed changeset) \/
  (exists v, Dict.get rel rels = Some v /\ isNull v = removed /\
             x = {| record := fst (deserializeRecordRelationshipIdentity rel);
                    relationship :=
                      snd (deserializeRecordRelationshipIdentity rel);
                    relatedRecord := related |}) ->
  listed x (edgesListed removed
              (collectRelationship related rels changeset rel)).
Proof.
  unfold collectRelationship.
  destruct (deserializeRecordRelationshipIdentity rel) as [rec name].
  cbn [fst snd].
  intros [H|(v & Hget & Hnull & ->)].
  - destruct (Dict.get rel rels) as [[e|]|]; destruct removed; simpl in *;
      try assumption; apply listed_push; now left.
  - rewrite Hget. destruct v as [e|]; simpl in Hnull; subst removed; simpl;
      apply listed_push; now right.
Qed.

Lemma collectRelationships_list removed related rels ks x :
  forall changeset : @RecordChangeset Value,
    listed x (edgesListed removed changeset) \/
    (exists rel v, In rel ks /\ Dict.get rel rels = Some v /\
                   isNull v = removed /\
                   x = {| record :=
                            fst (deserializeRecordRelationshipIdentity rel);
                          relationship :=
                            snd (deserializeRecordRelationshipIdentity rel);
                          relatedRecord := related |}) ->
    listed x (edgesListed removed
                (fold_left (collectRelationship related rels) ks changeset)).
Proof.
  induction ks as [|k ks IH]; intros changeset H; simpl.
  - destruct H as [H|(rel & v & [] & _)]. exact H.
  - apply IH. destruct H as [H|(rel & v & [<-|Hin] & Hget & Hnull & Hx)].
    + left. apply collectRelationship_lists. now left.
    + left. apply collectRelationship_lists. right. now exists v.
    + right. now exists rel, v.
Qed.

Lemma collectRelated_list removed (index : Index) ks x :
  forall changeset : @RecordChangeset Value,
    listed x (edgesListed removed changeset) \/
    (exists rid rel, In rid ks /\ entryIn rid rel removed index /\
                     x = edgeOfKeys rid rel) ->
    listed x (edgesListed removed
                (fold_left (collectRelated index) ks changeset)).
Proof.
  induction ks as [|k ks IH]; intros changeset H; simpl.
  - destruct H as [H|(rid & rel & [] & _)]. exact H.
  - apply IH.
    destruct H as [H|(rid & rel & [<-|Hin] & Hentry & ->)].
    + left. unfold collectRelated.
      destruct (Dict.get k index) as [rels|]; [|assumption].
      apply collectRelationships_list. now left.
    + left. destruct Hentry as (rels & v & Hget & Hv & Hnull).
      unfold collectRelated. rewrite Hget.
      apply collectRelationships_list. right. exists rel, v.
      split; [now apply DictFacts.get_keys with (v := v)|].
      repeat split; assumption.
    + right. now exists rid, rel.
Qed.

(** An entry of the delta's index is listed, under its kind, as the edge its
    keys decode to. *)
Lemma changesetOf_lists_entry (delta : BufferState) ri rri removed :
  entryIn ri rri removed (inverseRelationships delta) ->
  listed (edgeOfKeys ri rri) (edgesListed removed (changesetOf delta)).
Proof.
  intros Hentry. unfold changesetOf. apply collectRelated_list. right.
  exists ri, rri. split; [|split; [assumption | reflexivity]].
  destruct Hentry as (rels & v & Hget & _).
  now apply DictFacts.get_keys with (v := rels).
Qed.

(** X12. An edge added by [addInverseRelationshipsSync] in a tracked session,
    with no later removal of an edge filed under its keys, is listed under
    [addInverseRelationships] in the session's changeset, provided its keys
    are read back as the edge. *)
Theorem added_edge_is_tracked
    (b0 : Buffer) (e : RecordRelationshipIdentity)
    (es : list RecordRelationshipIdentity) (before after : list Call) :
  In e es ->
  Forall (fun c => ~ removesKeysOf e c) after ->
  readsBack e ->
  exists changeset b,
    session (before ++ AddInverseRelationships es :: after) b0
      = (Normal changeset, b) /\
    listed e (addInverseRelationships changeset).
Proof.
  intros Hin Hafter Hback.
  set (calls := before ++ AddInverseRelationships es :: after).
  destruct (session_runs calls b0) as (delta & Hdelta & Hrun).
  exists (changesetOf delta). eexists. split; [exact Hrun|].
  assert (He : deltaEntry e false
                 (snd (forEach calls perform (snd (startTrackingChanges b0))))).
  { subst calls.
    rewrite forEach_app, forEach_cons by (intros; apply perform_normal).
    apply (forEach_preserves (deltaEntry e false)
             (fun c => ~ removesKeysOf e c)); [|assumption|].
    { intros c b Hc. apply deltaEntry_perform; [auto | discriminate]. }
    simpl perform. unfold addInverseRelationshipsSync.
    apply add_call_tracks; [|now left].
    apply (forEach_preserves (fun b1 => snd (indexView b1) <> None)
             (fun _ => True)); [|now apply Forall_forall|discriminate].
    intros c b _. apply opened_perform. }
  destruct He as (index & Hindex & Hentry).
  unfold indexView in Hindex. rewrite Hdelta in Hindex. simpl in Hindex.
  injection Hindex as <-.
  rewrite <- Hback at 1.
  exact (changesetOf_lists_entry delta _ _ false Hentry).
Qed.

(** X13. An edge added in a tracked session and removed later in it, with no
    later addition of an edge filed under its keys, is listed under
    [removeInverseRelationships] in the session's changeset, provided its
    keys are read back as the edge: the removal of an edge is tracked when
    the session has added an edge to the same related record before. *)
Theorem added_then_removed_edge_is_listed_as_removed
    (b0 : Buffer) (e : RecordRelationshipIdentity)
    (added removed : list RecordRelationshipIdentity)
    (before between after : list Call) :
  In e added ->
  In e removed ->
  Forall (fun c => ~ addsKeysOf e c) after ->
  readsBack e ->
  exists changeset b,
    session (before ++ AddInverseRelationships added :: between
                    ++ RemoveInverseRelationships removed :: after) b0
      = (Normal changeset, b) /\
    listed e (removeInverseRelationships changeset).
Proof.
  intros Hadded Hremoved Hafter Hback.
  set (calls := before ++ AddInverseRelationships added :: between
                       ++ RemoveInverseRelationships removed :: after).
  destruct (session_runs calls b0) as (delta & Hdelta & Hrun).
  exists (changesetOf delta). eexists. split; [exact Hrun|].
  assert (He : deltaEntry e true
                 (snd (forEach calls perform (snd (startTrackingChanges b0))))).
  { subst calls.
    rewrite forEach_app, forEach_cons, forEach_app, forEach_cons
      by (intros; apply perform_normal).
    apply (forEach_preserves (deltaEntry e true)
             (fun c => ~ addsKeysOf e c)); [|assumption|].
    { intros c b Hc. apply deltaEntry_perform; [discriminate | auto]. }
    simpl perform at 1. unfold removeInverseRelationshipsSync.
    apply remove_call_tracks; [|now left].
    apply (forEach_preserves (bothHoldObject e) (fun _ => True));
      [|now apply Forall_forall|].
    { intros c b _. apply bothHoldObject_perform. }
    simpl perform. unfold addInverseRelationshipsSync.
    apply add_call_tracks; [|now left].
    apply (forEach_preserves (fun b1 => snd (indexView b1) <> None)
             (fun _ => True)); [|now apply Forall_forall|discriminate].
    intros c b _. apply opened_perform. }
  destruct He as (index & Hindex & Hentry).
  unfold indexView in Hindex. rewrite Hdelta in Hindex. simpl in Hindex.
  injection Hindex as <-.
  rewrite <- Hback at 1.
  exact (changesetOf_lists_entry delta _ _ true Hentry).
Qed.

(** *** Records in a tracked session *)

(** A property of the record dictionaries that setting the records allowed
    and removing by the identities allowed keep is kept by every call within
    these allowances. *)
Lemma perform_preserves_records (P : Buffer -> Prop)
    (okSet : Record_ -> Prop) (okRemove : RecordIdentity -> Prop) :
  (forall b b', recordsView b = recordsView b' -> P b -> P b') ->
  (forall r b, okSet r -> P b -> P (snd (setRecordSync r b))) ->
  (forall i b, okRemove i -> P b -> P (snd (removeRecordSync i b))) ->
  forall (c : Call) b,
    match c with
    | SetRecord r => okSet r
    | SetRecords rs => Forall okSet rs
    | RemoveRecord i => okRemove i
    | RemoveRecords l => Forall okRemove l
    | _ => True
    end ->
    P b -> P (snd (perform c b)).
Proof.
  intros Hview Hset Hremove c b Hc HP.
  destruct c as [r|rs|i|l|es|es].
  - now apply Hset.
  - simpl. unfold setRecordsSync. now apply (forEach_preserves P okSet).
  - rewrite perform_RemoveRecord. now apply Hremove.
  - simpl. unfold bind, removeRecordsSync.
    assert (Hloop : forall l acc b,
               Forall okRemove l -> P b ->
               P (snd (removeRecordsLoop l acc b))).
    { clear - Hremove. intros l. induction l as [|i l IH]; intros acc b Hl HP;
        [assumption|].
      inversion Hl as [|? ? Hi Hl']; subst.
      rewrite removeRecordsLoop_step. apply IH; [assumption|].
      now apply Hremove. }
    specialize (Hloop l [] b Hc HP).
    now destruct (removeRecordsLoop l [] b) as [[o|err] b1].
  - apply (Hview b); [|assumption]. symmetry.
    apply (forEach_preserves (fun b' => recordsView b' = recordsView b)
             (fun _ => True)); [|now apply Forall_forall|reflexivity].
    intros e b' _ H. now rewrite addInverseRelationship_view.
  - apply (Hview b); [|assumption]. symmetry.
    apply (forEach_preserves (fun b' => recordsView b' = recordsView b)
             (fun _ => True)); [|now apply Forall_forall|reflexivity].
    intros e b' _ H. now rewrite removeInverseRelationship_view.
Qed.

Lemma setTracked_after_set r b :
  recordsKeyed (fst (recordsView b)) ->
  snd (recordsView b) <> None ->
  setTracked (serializeRecordIdentity (identity r)) r
             (snd (setRecordSync r b)).
Proof.
  intros Hk Hopen. unfold setTracked. rewrite setRecordSync_view.
  cbn [fst snd]. split; [now apply recordsKeyed_set|].
  destruct (snd (recordsView b)) as [dr|]; [|contradiction].
  cbn [option_map]. eexists. split; [reflexivity|]. apply DictFacts.get_set.
Qed.

Lemma setTracked_perform key r (c : Call) b :
  ~ setsKey key c -> ~ removesKey key c ->
  setTracked key r b -> setTracked key r (snd (perform c b)).
Proof.
  intros Hset Hremove.
  apply (perform_preserves_records (setTracked key r)
           (fun r' => serializeRecordIdentity (identity r') <> key)
           (fun i => serializeRecordIdentity i <> key)).
  - unfold setTracked. intros b1 b2 Hv. now rewrite Hv.
  - intros r' b1 Hne (Hk & dr & Hd & Hget). unfold setTracked.
    rewrite setRecordSync_view. cbn [fst snd]. rewrite Hd. cbn [option_map].
    split; [now apply recordsKeyed_set|].
    eexists. split; [reflexivity|]. now rewrite DictFacts.get_set_ne.
  - intros i b1 Hne (Hk & dr & Hd & Hget).
    destruct (removeRecordSync_view i b1) as [[_ ->]|(rec & Hrec & Hv)].
    + split; [assumption | now exists dr].
    + unfold setTracked. rewrite Hv. cbn [fst snd]. rewrite Hd.
      cbn [option_map]. split; [now apply recordsKeyed_delete|].
      eexists. split; [reflexivity|].
      rewrite DictFacts.get_set_ne; [assumption|].
      now rewrite (getRecordSync_keyed i b1 rec Hk Hrec).
  - destruct c; simpl in *; auto; now apply Forall_Exists_neg.
Qed.

Lemma opened_records_perform (c : Call) b :
  snd (recordsView b) <> None -> snd (recordsView (snd (perform c b))) <> None.
Proof.
  apply (perform_preserves (fun b1 => snd (recordsView b1) <> None)
           (fun _ => True)).
  - intros b1 b2 Hv. now rewrite Hv.
  - intros r b1 _ H. rewrite setRecordSync_view. cbn [snd].
    now destruct (snd (recordsView b1)).
  - intros i b1 H.
    destruct (removeRecordSync_view i b1) as [[_ ->]|(rec & _ & ->)];
      [assumption|]. cbn [snd]. now destruct (snd (recordsView b1)).
  - destruct c; simpl; auto. now apply Forall_forall.
Qed.

(** X14. In a buffer that holds its records under their own keys, a record
    set in a tracked session, with no later call that sets a record of its
    key or removes by an identity of its key, is listed under [setRecords]
    in the session's changeset. *)
Theorem record_set_and_kept_is_listed
    (b0 : Buffer) (r : Record_) (before after : list Call) :
  recordsKeyed (records (_state b0)) ->
  Forall (fun c => ~ setsKey (serializeRecordIdentity (identity r)) c /\
                   ~ removesKey (serializeRecordIdentity (identity r)) c)
         after ->
  exists changeset b,
    session (before ++ SetRecord r :: after) b0 = (Normal changeset, b) /\
    listed r (setRecords changeset).
Proof.
  intros Hk0 Hafter.
  set (key := serializeRecordIdentity (identity r)) in *.
  set (calls := before ++ SetRecord r :: after).
  destruct (session_runs calls b0) as (delta & Hdelta & Hrun).
  exists (changesetOf delta). eexists. split; [exact Hrun|].
  assert (Ht : setTracked key r
                 (snd (forEach calls perform (snd (startTrackingChanges b0))))).
  { subst calls.
    rewrite forEach_app, forEach_cons by (intros; apply perform_normal).
    apply (forEach_preserves (setTracked key r)
             (fun c => ~ setsKey key c /\ ~ removesKey key c));
      [|assumption|].
    { intros c b [H1 H2]. now apply setTracked_perform. }
    simpl perform. apply setTracked_after_set.
    - apply (forEach_preserves
               (fun b1 => recordsKeyed (records (_state b1)))
               (fun _ => True)); [|now apply Forall_forall|exact Hk0].
      intros c b _. apply recordsKeyed_perform.
    - apply (forEach_preserves (fun b1 => snd (recordsView b1) <> None)
               (fun _ => True)); [|now apply Forall_forall|discriminate].
      intros c b _. apply opened_records_perform. }
  destruct Ht as (_ & dr & Hd & Hget).
  unfold recordsView in Hd. rewrite Hdelta in Hd. simpl in Hd.
  injection Hd as <-.
  apply changesetOf_setRecords. exists key.
  split; [now apply DictFacts.get_keys with (v := Some r) | assumption].
Qed.

Lemma fieldList_push {A : Type} (xs : option (list A)) (x : A) :
  fieldList (push xs x) = fieldList xs ++ [x].
Proof. now destruct xs. Qed.

(** The records and the keys the first loop of [stopTrackingChanges]
    lists. *)
Lemma collectRecord_lists (dr : Dict.t (option Record_)) ks :
  forall changeset,
    fieldList (setRecords (fold_left (collectRecord dr) ks changeset))
      = fieldList (setRecords changeset)
        ++ flat_map (fun k => match Dict.get k dr with
                              | Some (Some rv) => [rv]
                              | _ => []
                              end) ks /\
    fieldList (removeRecords (fold_left (collectRecord dr) ks changeset))
      = fieldList (removeRecords changeset)
        ++ map deserializeRecordIdentity
             (filter (fun k => match Dict.get k dr with
                               | Some None => true
                               | _ => false
                               end) ks).
Proof.
  induction ks as [|k ks IH]; intros changeset; simpl.
  - now rewrite !app_nil_r.
  - destruct (IH (collectRecord dr changeset k)) as [-> ->].
    unfold collectRecord.
    destruct (Dict.get k dr) as [[rv|]|]; simpl;
      rewrite ?fieldList_push, <- ?app_assoc; split; reflexivity.
Qed.

Lemma NoDup_keys_of_listed {A : Type} (key : A -> string)
    (f : string -> list A) :
  (forall k x, In x (f k) -> key x = k) ->
  (forall k, List.length (f k) <= 1) ->
  forall ks, NoDup ks -> NoDup (map key (flat_map f ks)).
Proof.
  intros Hkey Hone ks. induction ks as [|k ks IH]; intros Hnd; simpl;
    [constructor|].
  inversion Hnd as [|? ? Hnotin Hnd']; subst.
  rewrite map_app. specialize (Hone k).
  destruct (f k) as [|x [|y l]] eqn:E; simpl in *; [now apply IH| |lia].
  constructor; [|now apply IH].
  intros Hin. apply in_map_iff in Hin. destruct Hin as (x' & Hx' & Hin).
  apply in_flat_map in Hin. destruct Hin as (k' & Hk' & Hin).
  apply Hkey in Hin. apply Hnotin.
  assert (Hx : key x = k) by (apply Hkey; rewrite E; now left).
  congruence.
Qed.

Lemma deltaFiled_perform (c : Call) b :
  deltaFiled b -> deltaFiled (snd (perform c b)).
Proof.
  apply (perform_preserves deltaFiled (fun _ => True)).
  - unfold deltaFiled. intros b1 b2 Hv. now rewrite Hv.
  - intros r b1 _ (dr & Hd & Hk & Hwf). unfold deltaFiled.
    rewrite setRecordSync_view. cbn [snd]. rewrite Hd. cbn [option_map].
    eexists. split; [reflexivity|].
    split; [now apply deltaKeyed_set | now apply DictFacts.wf_set].
  - intros i b1 (dr & Hd & Hk & Hwf).
    destruct (removeRecordSync_view i b1) as [[_ ->]|(rec & _ & Hv)].
    + now exists dr.
    + unfold deltaFiled. rewrite Hv. cbn [snd]. rewrite Hd. cbn [option_map].
      eexists. split; [reflexivity|].
      split; [now apply deltaKeyed_tombstone | now apply DictFacts.wf_set].
  - destruct c; simpl; auto. now apply Forall_forall.
Qed.

(** X15. The changeset of a session lists each record key once: no two
    records under [setRecords] have the same key, the identities under
    [removeRecords] are read off keys that are all different, and no record
    under [setRecords] has one of these keys. *)
Theorem changeset_lists_each_record_key_once (calls : list Call) (b0 : Buffer) :
  exists changeset b removedKeys,
    session calls b0 = (Normal changeset, b) /\
    NoDup (map (fun r => serializeRecordIdentity (identity r))
               (fieldList (setRecords changeset))) /\
    NoDup removedKeys /\
    fieldList (removeRecords changeset)
      = map deserializeRecordIdentity removedKeys /\
    forall r, In r (fieldList (setRecords changeset)) ->
              ~ In (serializeRecordIdentity (identity r)) removedKeys.
Proof.
  destruct (session_runs calls b0) as (delta & Hdelta & Hrun).
  assert (Hf : deltaFiled
                 (snd (forEach calls perform (snd (startTrackingChanges b0))))).
  { apply (forEach_preserves deltaFiled (fun _ => True));
      [|now apply Forall_forall|].
    - intros c b _. apply deltaFiled_perform.
    - exists Dict.empty. split; [reflexivity|].
      split; [intros k r H; discriminate | constructor]. }
  destruct Hf as (dr & Hd & Hk & Hwf).
  unfold recordsView in Hd. rewrite Hdelta in Hd. simpl in Hd.
  injection Hd as <-.
  set (removedKeys :=
         filter (fun k => match Dict.get k (records delta) with
                          | Some None => true
                          | _ => false
                          end) (Dict.keys (records delta))).
  exists (changesetOf delta). eexists. exists removedKeys.
  split; [exact Hrun|].
  unfold changesetOf.
  destruct (collectRelated_records (inverseRelationships delta)
              (Dict.keys (inverseRelationships delta))
              (fold_left (collectRecord (records delta))
                 (Dict.keys (records delta)) emptyChangeset)) as [-> ->].
  destruct (collectRecord_lists (records delta) (Dict.keys (records delta))
              emptyChangeset) as [-> ->].
  simpl fieldList. simpl app.
  split; [|split; [|split; [reflexivity|]]].
  - apply NoDup_keys_of_listed; [| |exact Hwf].
    + intros k x Hin.
      destruct (Dict.get k (records delta)) as [[rv|]|] eqn:E;
        simpl in Hin; try contradiction.
      destruct Hin as [->|[]]. exact (Hk _ _ E).
    + intros k. destruct (Dict.get k (records delta)) as [[rv|]|]; simpl; lia.
  - apply NoDup_filter. exact Hwf.
  - intros r Hin Hkey. apply in_flat_map in Hin.
    destruct Hin as (k & _ & Hr).
    destruct (Dict.get k (records delta)) as [[rv|]|] eqn:E;
      simpl in Hr; try contradiction.
    destruct Hr as [->|[]]. rewrite (Hk _ _ E) in Hkey.
    apply filter_In in Hkey. destruct Hkey as [_ Hnull].
    now rewrite E in Hnull.
Qed.

End Generic.

(** *** The sample buffer: keys [type:id], string attributes *)

Section Samples.

#[local] Existing Instance typeIdSerializer.

Local Abbreviation Buffer := (@RecordTransformBuffer string).

(** An identity whose type and id have no colon is read back from its
    key. *)
Lemma typeIdSerializer_roundtrip (i : RecordIdentity) :
  JsString.lacks ":" (type i) = true ->
  JsString.lacks ":" (id i) = true ->
  deserializeRecordIdentity (serializeRecordIdentity i) = i.
Proof.
  intros Ht Hi. destruct i as [t i]. simpl in *.
  unfold JsString.split.
  rewrite (JsStringFacts.split_joined ":" i t "" Ht Hi). reflexivity.
Qed.

(** C2. With the edge [sol.planets -> earth] in the index, the read of
    [earth] alone returns that edge, and the read of the one-element list
    [[earth]] returns the empty list. *)
Theorem list_read_of_linked_record_is_empty :
  getInverseRelationshipsSync (inl earth) earthLinked = [solPlanetsEarth] /\
  getInverseRelationshipsSync (inr [earth]) earthLinked = [].
Proof. split; reflexivity. Qed.

(** C3. The edge [sol.planets -> earth] is in the index before the session;
    the session removes it (it is read before and not after), and the
    changeset of the session is empty.  Had the session first added another
    edge to [earth], the same removal would be listed. *)
Theorem removal_of_earlier_edge_is_not_tracked :
  getInverseRelationshipsSync (inl earth) earthLinked = [solPlanetsEarth] /\
  fst (session [RemoveInverseRelationships [solPlanetsEarth]] earthLinked)
    = Normal emptyChangeset /\
  getInverseRelationshipsSync (inl earth)
    (snd (session [RemoveInverseRelationships [solPlanetsEarth]] earthLinked))
    = [] /\
  fst (session [AddInverseRelationships [ioPlanetEarth];
                RemoveInverseRelationships [solPlanetsEarth]] earthLinked)
    = Normal {| setRecords := None; removeRecords := None;
                addInverseRelationships := Some [ioPlanetEarth];
                removeInverseRelationships := Some [solPlanetsEarth] |}.
Proof. repeat split; reflexivity. Qed.

(** C4, counterexample.  With a session open and a record tracked in it,
    [startTrackingChanges] does not throw. *)
Lemma startTrackingChanges_in_open_session_returns :
  ~ (forall b : Buffer,
       _delta b <> None -> threw (fst (startTrackingChanges b)) = true).
Proof.
  intros H. specialize (H jupiterTracked). simpl in H.
  assert (Habs : false = true) by (apply H; discriminate). discriminate.
Qed.

(** C5. With the planet [jupiter] as the only record, [getRecordSync] and
    [getRecordsSync] by identity find it, and [getRecordsSync('planet')]
    answers what [objectValues] makes of [undefined], the same as with
    [earth] as the only record: it cannot list the stored planet in both. *)
Theorem getRecords_by_type_misses_the_record (utils : ObjectValues string) :
  let onlyJupiter : Buffer := snd (setRecordSync jupiterRecord newBuffer) in
  let onlyEarth : Buffer := snd (setRecordSync earthRecord newBuffer) in
  getRecordSync jupiter onlyJupiter = Some jupiterRecord /\
  getRecordsSync (Some (inr [jupiter])) onlyJupiter = Normal [jupiterRecord] /\
  getRecordsSync (Some (inl "planet")) onlyJupiter = objectValuesOfEntry None /\
  getRecordsSync (Some (inl "planet")) onlyEarth = objectValuesOfEntry None /\
  ~ (getRecordsSync (Some (inl "planet")) onlyJupiter = Normal [jupiterRecord] /\
     getRecordsSync (Some (inl "planet")) onlyEarth = Normal [earthRecord]).
Proof.
  cbv zeta. repeat split; try reflexivity.
  intros [HJ HE]. simpl in HJ, HE. rewrite HJ in HE. discriminate.
Qed.

(** C6, witness: [jupiter] is set and removed in a session that also adds an
    edge and sets, removes and sets again [earth]. *)
Lemma set_then_remove_nets_to_removal_witness :
  exists changeset b,
    session ([AddInverseRelationships [solPlanetsEarth]]
               ++ SetRecord jupiterRecord :: [SetRecord earthRecord]
               ++ RemoveRecord (identity jupiterRecord)
                  :: [RemoveRecord earth; SetRecord earthRecord])
            (@newBuffer string)
      = (Normal changeset, b) /\
    listed (deserializeRecordIdentity
              (serializeRecordIdentity (identity jupiterRecord)))
           (removeRecords changeset) /\
    (deserializeRecordIdentity
       (serializeRecordIdentity (identity jupiterRecord))
       = identity jupiterRecord ->
     listed (identity jupiterRecord) (removeRecords changeset)) /\
    ~ listed jupiterRecord (setRecords changeset) /\
    forall r', listed r' (setRecords changeset) ->
               serializeRecordIdentity (identity r')
                 <> serializeRecordIdentity (identity jupiterRecord).
Proof.
  apply (@set_then_remove_nets_to_removal string typeIdSerializer).
  repeat constructor; simpl; [tauto | discriminate].
Defined.

(** C6, counterexample.  The record [planet] / [urn:earth] is set and removed
    in a session: [removeRecords] lists the identity [planet] / [urn] that is
    read back from the key [planet:urn:earth], and not the identity of the
    record. *)
Lemma removed_identity_is_read_off_the_key :
  let removed := {| type := "planet"; id := "urn" |} in
  fst (session [SetRecord urnEarthRecord;
                RemoveRecord (identity urnEarthRecord)] (@newBuffer string))
    = Normal {| setRecords := None; removeRecords := Some [removed];
                addInverseRelationships := None;
                removeInverseRelationships := None |} /\
  ~ listed (identity urnEarthRecord) (Some [removed]).
Proof.
  split; [reflexivity|].
  intros [H|[]]. discriminate.
Qed.

(** C9, witness: [sol.planets -> earth] is removed from an index that holds
    it. *)
Lemma removed_edge_is_not_read_witness :
  let b' := snd (removeInverseRelationshipsSync [solPlanetsEarth] earthLinked) in
  fst (removeInverseRelationshipsSync [solPlanetsEarth] earthLinked)
    = Normal tt /\
  ~ In solPlanetsEarth (getInverseRelationshipsSync (inl earth) b') /\
  (In solPlanetsEarth (getInverseRelationshipsSync (inl earth) earthLinked) ->
   tombstoned solPlanetsEarth (inverseRelationships (_state b'))) /\
  (forall calls,
     Forall (fun c => ~ addsEdge solPlanetsEarth c) calls ->
     ~ In solPlanetsEarth
          (getInverseRelationshipsSync (inl earth)
             (snd (forEach calls perform b')))) /\
  In solPlanetsEarth
     (getInverseRelationshipsSync (inl earth)
        (snd (addInverseRelationshipsSync [solPlanetsEarth] b'))).
Proof.
  apply (@removed_edge_is_not_read string typeIdSerializer earthLinked
           [solPlanetsEarth] solPlanetsEarth).
  - apply (indexKeyed_perform (AddInverseRelationships [solPlanetsEarth])).
    apply indexKeyed_newBuffer.
  - simpl. left. reflexivity.
Defined.

(** C9, counterexample.  In the buffer seeded by [reset] with a state that
    holds [sol.planets -> earth] under a key that is not the edge's, the read
    of [earth] returns the edge before and after
    [removeInverseRelationshipsSync] removes it. *)
Lemma removed_edge_of_misfiled_seed_is_read :
  let b' := snd (removeInverseRelationshipsSync [solPlanetsEarth]
                   misfiledBuffer) in
  fst (reset (Some misfiledState) (@newBuffer string)) = Normal tt /\
  getInverseRelationshipsSync (inl earth) misfiledBuffer = [solPlanetsEarth] /\
  fst (removeInverseRelationshipsSync [solPlanetsEarth] misfiledBuffer)
    = Normal tt /\
  In solPlanetsEarth (getInverseRelationshipsSync (inl earth) b') /\
  ~ indexKeyed (inverseRelationships (_state misfiledBuffer)).
Proof.
  cbv zeta. repeat split; try reflexivity.
  - simpl. now left.
  - intros H.
    destruct (H "planet:earth"%string
                [("planets-of-sol"%string, Some solPlanetsEarth)] eq_refl)
      as [_ Hkey].
    specialize (Hkey "planets-of-sol"%string solPlanetsEarth eq_refl).
    discriminate.
Qed.

(** C10, witness: [reset()] after [jupiter] was set in an open session. *)
Lemma reset_keeps_open_session_witness :
  exists b',
    reset None jupiterTracked = (Normal tt, b') /\
    _state b' = emptyState /\
    _delta b' = _delta jupiterTracked /\
    stopTrackingChanges b'
      = (Normal {| setRecords := Some [jupiterRecord]; removeRecords := None;
                   addInverseRelationships := None;
                   removeInverseRelationships := None |},
         {| _state := _state b'; _delta := None |}) /\
    fst (stopTrackingChanges b') = fst (stopTrackingChanges jupiterTracked).
Proof.
  apply (@reset_keeps_open_session string typeIdSerializer None jupiterTracked).
  reflexivity.
Defined.

Lemma planetsStored_keyed : recordsKeyed (records (_state planetsStored)).
Proof.
  apply (recordsKeyed_perform (SetRecords [jupiterRecord; earthRecord])).
  intros k r H. discriminate.
Qed.

Lemma earthLinked_keyed : indexKeyed (inverseRelationships (_state earthLinked)).
Proof.
  apply (indexKeyed_perform (AddInverseRelationships [solPlanetsEarth])).
  apply indexKeyed_newBuffer.
Qed.

(** X2, witness: [jupiter] is removed from the buffer that holds [jupiter]
    and [earth]. *)
Lemma removeRecordSync_removes_witness :
  recordsKeyed (records (_state planetsStored)) /\
  fst (removeRecordSync jupiter planetsStored) = Normal (Some jupiterRecord) /\
  getRecordSync jupiter (snd (removeRecordSync jupiter planetsStored)) = None /\
  (forall j, serializeRecordIdentity jupiter <> serializeRecordIdentity j ->
             getRecordSync j (snd (removeRecordSync jupiter planetsStored))
             = getRecordSync j planetsStored) /\
  recordsKeyed (records (_state (snd (removeRecordSync jupiter planetsStored)))).
Proof.
  split; [exact planetsStored_keyed|].
  exact (@removeRecordSync_removes string typeIdSerializer jupiter
           planetsStored planetsStored_keyed).
Defined.

(** X4, witness: [earth], [io] and [earth] again are removed from the buffer
    that holds [jupiter] and [earth]; [earth] is returned once. *)
Lemma removeRecordsSync_removes_witness :
  recordsKeyed (records (_state planetsStored)) /\
  firstOfEachKey [] [earth; io; earth] = [earth; io] /\
  exists rs b',
    removeRecordsSync [earth; io; earth] planetsStored = (Normal rs, b') /\
    rs = flat_map (fun i => found (getRecordSync i planetsStored))
                  (firstOfEachKey [] [earth; io; earth]) /\
    (forall i, In i [earth; io; earth] -> getRecordSync i b' = None) /\
    (forall r, In r rs <->
               exists i, In i [earth; io; earth] /\
                         getRecordSync i planetsStored = Some r) /\
    (forall j, (forall i, In i [earth; io; earth] ->
                  serializeRecordIdentity i <> serializeRecordIdentity j) ->
               getRecordSync j b' = getRecordSync j planetsStored) /\
    recordsKeyed (records (_state b')).
Proof.
  split; [exact planetsStored_keyed|]. split; [reflexivity|].
  exact (@removeRecordsSync_removes string typeIdSerializer [earth; io; earth]
           planetsStored planetsStored_keyed).
Defined.

(** X5, witness: calls on a new buffer. *)
Lemma calls_keep_the_buffer_keyed_witness :
  let calls := [SetRecord jupiterRecord;
                AddInverseRelationships [solPlanetsEarth; ioPlanetEarth];
                RemoveRecords [jupiter; earth];
                RemoveInverseRelationships [ioPlanetEarth]] in
  filedByKey (@newBuffer string) /\
  filedByKey (snd (forEach calls perform (@newBuffer string))).
Proof.
  intros calls.
  destruct (@calls_keep_the_buffer_keyed string typeIdSerializer calls
              newBuffer) as [Hnew Hkept].
  split; [exact Hnew | exact (proj1 (Hkept Hnew))].
Defined.

(** X8, witness: the key [star:sol::planets] of [sol.planets -> earth]. *)
Lemma edge_key_round_trip_witness :
  deserializeRecordRelationshipIdentity
    (serializeRecordRelationshipIdentity solPlanetsEarth)
    = (sol, "planets") /\
  readsBack solPlanetsEarth.
Proof.
  destruct (@edge_key_round_trip typeIdSerializer solPlanetsEarth
              eq_refl eq_refl) as [Hkey Hback].
  split; [exact Hkey | apply Hback; reflexivity].
Defined.

(** X9, witness: the read of [earth] in the buffer that links it. *)
Lemma read_lists_each_edge_once_witness :
  indexKeyed (inverseRelationships (_state earthLinked)) /\
  NoDup (getInverseRelationshipsSync (inl earth) earthLinked).
Proof.
  split; [exact earthLinked_keyed|].
  exact (@read_lists_each_edge_once string typeIdSerializer earth earthLinked
           earthLinked_keyed).
Defined.

(** X11, witness: two edges to [earth] are added to a new buffer. *)
Lemma added_edge_is_read_witness :
  In ioPlanetEarth
     (getInverseRelationshipsSync (inl earth)
        (snd (addInverseRelationshipsSync [ioPlanetEarth; solPlanetsEarth]
                (@newBuffer string)))).
Proof.
  apply (@added_edge_is_read string typeIdSerializer
           [ioPlanetEarth; solPlanetsEarth] ioPlanetEarth newBuffer).
  - now left.
  - intros e' [<-|[<-|[]]] [_ Hkey]; [reflexivity | discriminate].
Defined.

(** X12, witness: [sol.planets -> earth] is added in a session that goes on
    to remove another edge and a record. *)
Lemma added_edge_is_tracked_witness :
  exists changeset b,
    session ([SetRecord earthRecord]
               ++ AddInverseRelationships [ioPlanetEarth; solPlanetsEarth]
                  :: [RemoveInverseRelationships [ioPlanetEarth];
                      RemoveRecord earth])
            (@newBuffer string)
      = (Normal changeset, b) /\
    listed solPlanetsEarth (addInverseRelationships changeset).
Proof.
  apply (@added_edge_is_tracked string typeIdSerializer).
  - right. now left.
  - repeat constructor; simpl; try tauto.
    intros H. apply Exists_exists in H.
    destruct H as (e' & [<-|[]] & [_ Hkey]). discriminate.
  - reflexivity.
Defined.

(** X13, witness: [sol.planets -> earth] is added and removed in a
    session. *)
Lemma added_then_removed_edge_is_listed_as_removed_witness :
  exists changeset b,
    session ([] ++ AddInverseRelationships [solPlanetsEarth]
                :: [SetRecord earthRecord]
                ++ RemoveInverseRelationships [solPlanetsEarth]
                   :: [AddInverseRelationships [ioPlanetEarth]])
            (@newBuffer string)
      = (Normal changeset, b) /\
    listed solPlanetsEarth (removeInverseRelationships changeset).
Proof.
  apply (@added_then_removed_edge_is_listed_as_removed string
           typeIdSerializer).
  - now left.
  - now left.
  - repeat constructor; simpl.
    intros H. apply Exists_exists in H.
    destruct H as (e' & [<-|[]] & [_ Hkey]). discriminate.
  - reflexivity.
Defined.

(** X14, witness: [jupiter] is set in a session on the buffer that holds
    [jupiter] and [earth]; [earth] is removed later. *)
Lemma record_set_and_kept_is_listed_witness :
  exists changeset b,
    session ([RemoveRecord jupiter] ++ SetRecord jupiterRecord
               :: [RemoveRecord earth;
                   AddInverseRelationships [solPlanetsEarth]])
            planetsStored
      = (Normal changeset, b) /\
    listed jupiterRecord (setRecords changeset).
Proof.
  apply (@record_set_and_kept_is_listed string typeIdSerializer).
  - exact planetsStored_keyed.
  - repeat constructor; simpl; try tauto; discriminate.
Defined.

End Samples.
End BufferProofs.

(* ------------------------------------------------------------------------- *)
(** ** The update request flow *)

Module UpdatableProofs.
Import Updatable.

Section Flow.

Context {types : Types}.
Context {imports : Imports}.
Variable this : Source.

Implicit Types (s : State) (t : Transform) (p : Payload).

Lemma called_shift (n index : nat) p :
  map (fun i => Call i p) (seq index (S n)) =
  Call index p :: map (fun i => Call i p) (seq (S index) n).
Proof. reflexivity. Qed.

(** [settleInSeries] never fails: it calls every listener, in order, and
    touches nothing but the world. *)
Lemma settleLoop_run (listeners : list Listener) p : forall index s,
  exists w,
    settleLoop listeners index p s =
    (Fulfilled tt,
     {| transformLog := transformLog s; world := w;
        trace := trace s
                 ++ map (fun i => Call i p) (seq index (List.length listeners)) |}).
Proof.
  induction listeners as [|listener rest IH]; intros index s.
  - exists (world s). simpl. rewrite app_nil_r. now destruct s.
  - cbn [settleLoop]. unfold await at 1. unfold step. unfold await at 1.
    unfold setWorld. cbn [transformLog world trace].
    destruct (IH (S index)
                {| transformLog := transformLog s;
                   world := snd (listener (world s));
                   trace := trace s ++ [Call index p] |}) as [w Hw].
    exists w. rewrite Hw. cbn [transformLog world trace List.length].
    rewrite called_shift, <- app_assoc. reflexivity.
Qed.

Lemma settleInSeries_run (listeners : list Listener) p s :
  exists w,
    settleInSeries listeners p s =
    (Fulfilled tt,
     {| transformLog := transformLog s; world := w;
        trace := trace s ++ emitted (List.length listeners) p |}).
Proof.
  unfold settleInSeries, await, step.
  destruct (settleLoop_run listeners p 0
              {| transformLog := transformLog s; world := world s;
                 trace := trace s ++ [Emit p] |}) as [w Hw].
  exists w. rewrite Hw. cbn [transformLog world trace].
  unfold emitted, called. now rewrite <- app_assoc.
Qed.

(** [transformed] never fails: it appends every id to the log, in order, and
    emits [transform] after each. *)
Lemma transformed_run (transforms : list Transform) : forall s,
  exists w,
    transformed this transforms s =
    (Fulfilled tt,
     {| transformLog := transformLog s ++ map id transforms; world := w;
        trace := trace s ++ applied this transforms |}).
Proof.
  induction transforms as [|t rest IH]; intros s.
  - exists (world s). simpl. rewrite !app_nil_r. now destruct s.
  - cbn [transformed]. unfold await at 1. unfold step. unfold await at 1.
    unfold append. unfold await at 1.
    destruct (settleInSeries_run
                (map (fun l => l t) (transformListeners this))
                (TransformEvent t)
                {| transformLog := transformLog s ++ [id t]; world := world s;
                   trace := trace s ++ [LogAppend (id t)] |}) as [w1 Hw1].
    cbn [transformLog world trace] in *. rewrite Hw1.
    destruct (IH {| transformLog := (transformLog s ++ [id t]);
                    world := w1;
                    trace := (trace s ++ [LogAppend (id t)])
                             ++ emitted
                                  (List.length
                                     (map (fun l => l t)
                                          (transformListeners this)))
                                  (TransformEvent t) |}) as [w Hw].
    exists w. rewrite Hw. cbn [transformLog world trace map].
    rewrite length_map, <- !app_assoc. reflexivity.
Qed.

(** When every [beforeUpdate] listener fulfils, each was called once, in
    registration order, and the log is as it was. *)
Lemma fulfillLoop_fulfilled (listeners : list BeforeListener) t :
  forall index hints s rs hints' s',
    fulfillLoop listeners index t hints s = (Fulfilled (rs, hints'), s') ->
    transformLog s' = transformLog s /\
    trace s' = trace s ++ map (fun i => Call i (BeforeUpdate t))
                              (seq index (List.length listeners)) /\
    List.length rs = List.length listeners.
Proof.
  induction listeners as [|listener rest IH]; intros index hints s rs hints' s' H.
  - simpl in H. injection H as <- <- <-. simpl. now rewrite app_nil_r.
  - cbn [fulfillLoop] in H. unfold await at 1 in H. unfold step in H.
    cbn [world] in H.
    destruct (listener t hints (world s)) as [[[r|error] h1] w];
      [|discriminate].
    unfold await at 1 in H. unfold setWorld in H.
    cbn [transformLog world trace] in H.
    destruct (fulfillLoop rest (S index) t h1 _) as [[[rs1 h2]|error] s2] eqn:E;
      [|discriminate].
    unfold resolve in H. injection H as <- <- <-.
    apply IH in E. cbn [transformLog world trace] in E.
    destruct E as (Hlog & Htrace & Hlen).
    split; [assumption|]. split.
    + rewrite Htrace, <- app_assoc. reflexivity.
    + simpl. now rewrite Hlen.
Qed.

(** When the listeners before [f] fulfil and [f] rejects, the loop rejects
    with the error of [f] right after calling [f]. *)
Lemma fulfillLoop_rejected (l1 : list BeforeListener) (f : BeforeListener)
    (l2 : list BeforeListener) t :
  forall index hints s rs h1 s1 error h2 w,
    fulfillLoop l1 index t hints s = (Fulfilled (rs, h1), s1) ->
    f t h1 (world s1) = (Rejected error, h2, w) ->
    fulfillLoop (l1 ++ f :: l2) index t hints s =
    (Rejected error,
     {| transformLog := transformLog s1; world := w;
        trace := trace s1
                 ++ [Call (index + List.length l1) (BeforeUpdate t)] |}).
Proof.
  induction l1 as [|listener rest IH];
    intros index hints s rs h1 s1 error h2 w Hl1 Hf.
  - simpl in Hl1. injection Hl1 as <- <- <-.
    cbn [app fulfillLoop]. unfold await, step. cbn [world].
    rewrite Hf. unfold setWorld. cbn [transformLog world trace List.length].
    now rewrite Nat.add_0_r.
  - cbn [fulfillLoop] in Hl1. unfold await at 1 in Hl1. unfold step in Hl1.
    cbn [world] in Hl1.
    cbn [app fulfillLoop]. unfold await at 1. unfold step. cbn [world].
    destruct (listener t hints (world s)) as [[[r|error'] h'] w'];
      [|discriminate].
    unfold await at 1 in Hl1.
    destruct (fulfillLoop rest (S index) t h' _) as [[[rs1 h3]|error'] s2] eqn:E;
      [|discriminate].
    unfold resolve in Hl1. injection Hl1 as <- <- <-.
    unfold await at 1.
    rewrite (IH (S index) h' _ rs1 h3 s2 error h2 w E Hf).
    cbn [List.length]. now rewrite Nat.add_succ_r.
Qed.

Lemma fulfillInSeries_fulfilled (listeners : list BeforeListener) t
    hints s rs hints' s' :
  fulfillInSeries listeners t hints s = (Fulfilled (rs, hints'), s') ->
  transformLog s' = transformLog s /\
  trace s' = trace s ++ emitted (List.length listeners) (BeforeUpdate t) /\
  List.length rs = List.length listeners.
Proof.
  unfold fulfillInSeries, await, step. intros H.
  apply fulfillLoop_fulfilled in H. cbn [transformLog world trace] in H.
  destruct H as (Hlog & Htrace & Hlen). repeat split; try assumption.
  rewrite Htrace, <- app_assoc. reflexivity.
Qed.

Lemma fulfillInSeries_rejected (l1 : list BeforeListener) (f : BeforeListener)
    (l2 : list BeforeListener) t hints s rs h1 s1 error h2 w :
  fulfillInSeries l1 t hints s = (Fulfilled (rs, h1), s1) ->
  f t h1 (world s1) = (Rejected error, h2, w) ->
  fulfillInSeries (l1 ++ f :: l2) t hints s =
  (Rejected error,
   {| transformLog := transformLog s; world := w;
      trace := trace s ++ emitted (S (List.length l1)) (BeforeUpdate t) |}).
Proof.
  intros Hl1 Hf.
  pose proof (fulfillInSeries_fulfilled _ _ _ _ _ _ _ Hl1) as (Hlog & Htrace & _).
  unfold fulfillInSeries, await, step in *.
  rewrite (fulfillLoop_rejected l1 f l2 t 0 hints _ rs h1 s1 error h2 w Hl1 Hf).
  rewrite Hlog, Htrace. cbn [transformLog world trace].
  unfold emitted, called. rewrite seq_S, map_app, <- !app_assoc. reflexivity.
Qed.

(** C1. When the id of the transform built for an [update] call is in the
    transform log, the call resolves with the empty list of transforms, or
    with [{ transforms: [] }] under the [fullResponse] option, and leaves the
    source as it found it: the log, the world and the steps taken are those
    from before the call, so that no listener and no handler ran.
    [__update__] does the same for a transform that reaches it. *)
Theorem update_of_logged_transform_is_noop
    (transformOrOperations : TransformOrOperations)
    (options : option RequestOptions) (id' : option string) s :
  let transform :=
    buildTransform transformOrOperations options id' (transformBuilder this) in
  contains (transformLog s) (id transform) = true ->
  update this transformOrOperations options id' s =
    (Fulfilled (if wantsFullResponse options
                then Full (emptyTransformsResponse)
                else Transforms []), s) /\
  __update__ this transform s = (Fulfilled emptyTransformsResponse, s).
Proof.
  intros transform Hlogged. unfold update, __update__.
  fold transform. rewrite Hlogged. split; reflexivity.
Qed.

(** C7. An [update] request whose transform is not logged, in which the
    [beforeUpdate] listeners registered before [f] fulfil and [f] rejects
    with [error], rejects with that same [error].  Its steps are: the
    [beforeUpdate] event with the listeners up to and including [f] called
    in order, then the [updateFail] event, carrying the transform and
    [error], with all its listeners called.  No listener registered after
    [f] is called, the handler is not called, and the log is unchanged. *)
Theorem update_rejects_when_before_listener_rejects
    (transformOrOperations : TransformOrOperations)
    (options : option RequestOptions) (id' : option string) s
    (l1 : list BeforeListener) (f : BeforeListener) (l2 : list BeforeListener)
    rs h1 s1 (error : Thrown) h2 w :
  let transform :=
    buildTransform transformOrOperations options id' (transformBuilder this) in
  contains (transformLog s) (id transform) = false ->
  beforeUpdateListeners this = l1 ++ f :: l2 ->
  fulfillInSeries l1 transform emptyHints s = (Fulfilled (rs, h1), s1) ->
  f transform h1 (world s1) = (Rejected error, h2, w) ->
  exists s' steps,
    update this transformOrOperations options id' s = (Rejected error, s') /\
    trace s' = trace s ++ steps /\
    steps = emitted (S (List.length l1)) (BeforeUpdate transform)
            ++ emitted (List.length (updateFailListeners this))
                       (UpdateFail transform error) /\
    (forall index, In (Call index (BeforeUpdate transform)) steps ->
                   index <= List.length l1) /\
    (forall t hints, ~ In (Handler t hints) steps) /\
    transformLog s' = transformLog s.
Proof.
  intros transform Hfresh Hlisteners Hl1 Hf.
  pose proof (fulfillInSeries_rejected l1 f l2 transform emptyHints s
                rs h1 s1 error h2 w Hl1 Hf) as Hbefore.
  destruct (settleInSeries_run
              (map (fun l => l transform error) (updateFailListeners this))
              (UpdateFail transform error)
              {| transformLog := transformLog s; world := w;
                 trace := trace s ++ emitted (S (List.length l1))
                                             (BeforeUpdate transform) |})
    as [w' Hfail].
  rewrite length_map in Hfail. cbn [transformLog world trace] in Hfail.
  eexists. eexists. split; [|split; [|split; [reflexivity|]]].
  - unfold update, _enqueueRequest, __update__. fold transform.
    rewrite Hfresh. unfold await at 1. rewrite Hfresh.
    unfold tryCatch. unfold await at 1. rewrite Hlisteners, Hbefore.
    unfold await at 1. rewrite Hfail. reflexivity.
  - cbn [trace]. now rewrite <- app_assoc.
  - split; [|split; [|reflexivity]].
    + intros index Hin. apply in_app_or in Hin.
      destruct Hin as [Hin|Hin]; unfold emitted, called in Hin;
        destruct Hin as [Hin|Hin]; try discriminate;
        apply in_map_iff in Hin; destruct Hin as (i & Heq & Hi);
        [|discriminate].
      injection Heq as ->. apply in_seq in Hi. lia.
    + intros t hints Hin. apply in_app_or in Hin.
      destruct Hin as [Hin|Hin]; unfold emitted, called in Hin;
        destruct Hin as [Hin|Hin]; try discriminate;
        apply in_map_iff in Hin; destruct Hin as (i & Heq & _); discriminate.
Qed.

(** C8. A successful [update] request (the transform is not logged, every
    [beforeUpdate] listener fulfils, the handler fulfils) takes its steps in
    this order: the [beforeUpdate] event with every listener called in
    registration order; the handler, called with the hints object as the
    listeners left it; for each transform of the response in order, the log
    entry and then the [transform] event; the [update] event with the
    response.  The log has grown by the ids of the response's transforms, and
    the caller's promise is fulfilled in the state all these steps left. *)
Theorem update_phases_in_order
    (transformOrOperations : TransformOrOperations)
    (options : option RequestOptions) (id' : option string) s
    rs hints s1 (response : FullResponse) w :
  let transform :=
    buildTransform transformOrOperations options id' (transformBuilder this) in
  contains (transformLog s) (id transform) = false ->
  fulfillInSeries (beforeUpdateListeners this) transform emptyHints s
    = (Fulfilled (rs, hints), s1) ->
  _update this transform hints (world s1) = (Fulfilled response, w) ->
  let fullResponse :=
    if Nat.ltb 0 (List.length rs)
    then setSources response (mapNamedFullResponses rs)
    else response in
  let applying := match transforms fullResponse with
                  | Some ts => ts
                  | None => []
                  end in
  exists s',
    update this transformOrOperations options id' s =
      (Fulfilled (if wantsFullResponse options
                  then Full fullResponse
                  else DataOnly (data fullResponse)), s') /\
    trace s' =
      trace s
      ++ emitted (List.length (beforeUpdateListeners this))
                 (BeforeUpdate transform)
      ++ [Handler transform hints]
      ++ applied this applying
      ++ emitted (List.length (updateListeners this))
                 (UpdateEvent transform fullResponse) /\
    transformLog s' = transformLog s ++ map id applying.
Proof.
  intros transform Hfresh Hbefore Hhandler fullResponse applying.
  pose proof (fulfillInSeries_fulfilled _ _ _ _ _ _ _ Hbefore)
    as (Hlog1 & Htrace1 & _).
  set (s2 := {| transformLog := transformLog s1; world := w;
                trace := trace s1 ++ [Handler transform hints] |}).
  destruct (transformed_run applying s2) as [w3 Happlied].
  set (s3 := {| transformLog := transformLog s2 ++ map id applying;
                world := w3;
                trace := trace s2 ++ applied this applying |}) in Happlied.
  destruct (settleInSeries_run
              (map (fun l => l transform fullResponse) (updateListeners this))
              (UpdateEvent transform fullResponse) s3) as [w4 Hsettled].
  rewrite length_map in Hsettled.
  eexists. split; [|split].
  - unfold update, _enqueueRequest, __update__. fold transform.
    rewrite Hfresh. unfold await at 1. rewrite Hfresh.
    unfold tryCatch. unfold await at 1. rewrite Hbefore. cbn [fst snd].
    unfold await at 1. unfold callHandler, await at 1, step.
    cbn [world]. rewrite Hhandler. unfold setWorld.
    cbn [transformLog world trace]. fold s2.
    fold fullResponse.
    assert (Hts : (match transforms fullResponse with
                   | Some (t :: ts) => transformed this (t :: ts)
                   | _ => resolve tt
                   end) s2 = (Fulfilled tt, s3)).
    { subst applying. destruct (transforms fullResponse) as [[|t ts]|];
        try exact Happlied;
        simpl in Happlied; unfold resolve in Happlied |- *;
        rewrite Happlied; reflexivity. }
    unfold await at 1. rewrite Hts.
    unfold await at 1. rewrite Hsettled. reflexivity.
  - cbn [trace]. subst s3 s2. cbn [trace]. rewrite Htrace1.
    rewrite <- !app_assoc. reflexivity.
  - cbn [transformLog]. subst s3 s2. cbn [transformLog]. now rewrite Hlog1.
Qed.

End Flow.

(** *** The sample source *)

Section Samples.

#[local] Existing Instance sampleTypes.
#[local] Existing Instance sampleImports.

(** C1, witness: the request [t0] on a source whose log holds [t0]. *)
Lemma update_of_logged_transform_is_noop_witness :
  contains (transformLog (sampleState ["t0"])) "t0" = true /\
  update (sampleSource [noting "a"]) ("t0", ["x"]) None None
         (sampleState ["t0"])
    = (Fulfilled (Transforms []), sampleState ["t0"]) /\
  __update__ (sampleSource [noting "a"])
             {| id := "t0"; operations := ["x"]; options := None |}
             (sampleState ["t0"])
    = (Fulfilled (emptyTransformsResponse), sampleState ["t0"]).
Proof.
  split; [reflexivity|].
  apply (@update_of_logged_transform_is_noop sampleTypes sampleImports
           (sampleSource [noting "a"]) ("t0", ["x"]) None None
           (sampleState ["t0"])).
  reflexivity.
Defined.

(** C7, witness: three [beforeUpdate] listeners, the second of which fails
    with [':(']. *)
Lemma update_rejects_when_before_listener_rejects_witness :
  let transform : Transform :=
    {| id := "t0"; operations := ["x"]; options := None |} in
  exists s' steps,
    update (sampleSource [noting "a"; failing "b"; noting "c"])
           ("t0", ["x"]) None None (sampleState [])
      = (Rejected ":(", s') /\
    trace s' = trace (sampleState []) ++ steps /\
    steps = emitted 2 (BeforeUpdate transform)
            ++ emitted 1 (UpdateFail transform ":(") /\
    (forall index, In (Call index (BeforeUpdate transform)) steps ->
                   index <= 1) /\
    (forall t hints, ~ In (Handler t hints) steps) /\
    transformLog s' = [].
Proof.
  eapply (@update_rejects_when_before_listener_rejects sampleTypes
            sampleImports
            (sampleSource [noting "a"; failing "b"; noting "c"])
            ("t0", ["x"]) None None (sampleState [])
            [noting "a"] (failing "b") [noting "c"]);
    reflexivity.
Defined.

(** C8, witness: two [beforeUpdate] listeners that write to the hints, a
    handler that answers with the transforms [t1] and [t2]. *)
Lemma update_phases_in_order_witness :
  let transform : Transform :=
    {| id := "t0"; operations := ["x"]; options := None |} in
  let fullResponse : FullResponse :=
    {| data := Some "a,b"; details := None;
       transforms := Some [sampleTransform "t1"; sampleTransform "t2"];
       sources := Some [] |} in
  exists s',
    update (sampleSource [noting "a"; noting "b"]) ("t0", ["x"]) None None
           (sampleState [])
      = (Fulfilled (DataOnly (Some "a,b")), s') /\
    trace s' =
      [Emit (BeforeUpdate transform);
       Call 0 (BeforeUpdate transform);
       Call 1 (BeforeUpdate transform);
       Handler transform {| hintData := Some "a,b"; hintDetails := None |};
       LogAppend "t1";
       Emit (TransformEvent (sampleTransform "t1"));
       Call 0 (TransformEvent (sampleTransform "t1"));
       LogAppend "t2";
       Emit (TransformEvent (sampleTransform "t2"));
       Call 0 (TransformEvent (sampleTransform "t2"));
       Emit (UpdateEvent transform fullResponse);
       Call 0 (UpdateEvent transform fullResponse)] /\
    transformLog s' = ["t1"; "t2"].
Proof.
  intros transform fullResponse.
  apply (@update_phases_in_order sampleTypes sampleImports
           (sampleSource [noting "a"; noting "b"])
           ("t0", ["x"]) None None (sampleState [])
           [None; None]
           (@Build_ResponseHints sampleTypes (Some "a,b") None)
           (@Build_State sampleTypes [] ["a"; "b"]
              (emitted 2 (BeforeUpdate transform)))
           (@Build_FullResponse sampleTypes (Some "a,b") None
              (Some [sampleTransform "t1"; sampleTransform "t2"]) None)
           ["a"; "b"; "_update"]);
    reflexivity.
Defined.

End Samples.
End UpdatableProofs.

(* ------------------------------------------------------------------------- *)
(** ** The request flow with listeners that write to the transform log *)

Module SharedLogProofs.
Import Updatable SharedLog.

Section Flow.

Context {types : Types}.
Context {imports : Imports}.

Implicit Types (s : State) (t : Transform) (p : Payload).

(** *** The log *)

Lemma grown_refl (log : list string) : grown log log.
Proof. exists []. now rewrite app_nil_r. Qed.

Lemma grown_trans (log1 log2 log3 : list string) :
  grown log1 log2 -> grown log2 log3 -> grown log1 log3.
Proof.
  intros [a ->] [b ->]. exists (a ++ b). now rewrite app_assoc.
Qed.

Lemma grown_app (log appended : list string) : grown log (log ++ appended).
Proof. now exists appended. Qed.

Lemma contains_In (log : list string) (transformId : string) :
  contains log transformId = true <-> In transformId log.
Proof.
  unfold contains. rewrite existsb_exists. split.
  - intros (x & Hin & Heq). apply String.eqb_eq in Heq. now subst.
  - intros Hin. exists transformId. split; [assumption|].
    apply String.eqb_refl.
Qed.

Lemma grown_In (log log' : list string) (transformId : string) :
  grown log log' -> In transformId log -> In transformId log'.
Proof. intros [a ->] H. apply in_or_app. now left. Qed.

Lemma grown_contains (log log' : list string) (transformId : string) :
  grown log log' ->
  contains log transformId = true -> contains log' transformId = true.
Proof.
  intros Hg H. apply contains_In. apply contains_In in H.
  now apply (grown_In log).
Qed.

(** *** What the steps show *)

Lemma logged_app (steps1 steps2 : list Step) :
  logged (steps1 ++ steps2) = logged steps1 ++ logged steps2.
Proof. apply flat_map_app. Qed.

Lemma events_app (steps1 steps2 : list Step) :
  events (steps1 ++ steps2) = events steps1 ++ events steps2.
Proof. apply flat_map_app. Qed.

Lemma handled_app (steps1 steps2 : list Step) :
  handled (steps1 ++ steps2) = handled steps1 ++ handled steps2.
Proof. apply flat_map_app. Qed.

Lemma shown_emitted (n : nat) p :
  logged (emitted n p) = [] /\
  events (emitted n p) = [p] /\
  handled (emitted n p) = [].
Proof.
  unfold emitted, called. generalize (seq 0 n). intros l.
  induction l as [|i l (IH1 & IH2 & IH3)]; [now repeat split|].
  unfold logged, events, handled in *. simpl in *.
  repeat split; [assumption | assumption | assumption].
Qed.

Lemma logged_emitted (n : nat) p : logged (emitted n p) = [].
Proof. apply shown_emitted. Qed.

Lemma events_emitted (n : nat) p : events (emitted n p) = [p].
Proof. apply shown_emitted. Qed.

Lemma handled_emitted (n : nat) p : handled (emitted n p) = [].
Proof. apply shown_emitted. Qed.

Lemma shown_applied (this : Source) (transforms : list Transform) :
  logged (applied this transforms) = map id transforms /\
  events (applied this transforms) = map TransformEvent transforms /\
  handled (applied this transforms) = [].
Proof.
  induction transforms as [|t rest (IH1 & IH2 & IH3)]; [now repeat split|].
  cbn [applied flat_map map].
  change (flat_map _ rest) with (applied this rest).
  rewrite logged_app, events_app, handled_app.
  set (e := emitted (List.length (transformListeners this)) (TransformEvent t)).
  change (logged (LogAppend (id t) :: e)) with (id t :: logged e).
  change (events (LogAppend (id t) :: e)) with (events e).
  change (handled (LogAppend (id t) :: e)) with (handled e).
  subst e.
  rewrite logged_emitted, events_emitted, handled_emitted, IH1, IH2, IH3.
  repeat split.
Qed.

(** *** The series *)

Lemma called_next (n index : nat) p :
  map (fun i => Call i p) (seq index (S n)) =
  Call index p :: map (fun i => Call i p) (seq (S index) n).
Proof. reflexivity. Qed.

(** [settleInSeries] never fails: it calls every listener, in order; the log
    keeps what it held. *)
Lemma settleLoop_grows (listeners : list Listener) p : forall index s,
  exists s',
    settleLoop listeners index p s = (Fulfilled tt, s') /\
    grown (transformLog s) (transformLog s') /\
    trace s' = trace s
               ++ map (fun i => Call i p) (seq index (List.length listeners)).
Proof.
  induction listeners as [|listener rest IH]; intros index s.
  - exists s. simpl. rewrite app_nil_r.
    split; [reflexivity|]. split; [apply grown_refl | reflexivity].
  - cbn [settleLoop]. unfold await at 1. unfold step. unfold await at 1.
    cbn [transformLog world trace].
    destruct (listener (transformLog s) (world s)) as [[r appended] w].
    unfold leave. cbn [transformLog world trace].
    destruct (IH (S index)
                {| transformLog := transformLog s ++ appended;
                   world := w;
                   trace := trace s ++ [Call index p] |})
      as (s' & Hrun & Hlog & Htrace).
    exists s'. cbn [transformLog world trace] in Hlog, Htrace.
    split; [exact Hrun|]. split.
    + apply (grown_trans _ (transformLog s ++ appended));
        [apply grown_app | assumption].
    + rewrite Htrace. cbn [List.length].
      rewrite called_next, <- app_assoc. reflexivity.
Qed.

Lemma settleInSeries_grows (listeners : list Listener) p s :
  exists s',
    settleInSeries listeners p s = (Fulfilled tt, s') /\
    grown (transformLog s) (transformLog s') /\
    trace s' = trace s ++ emitted (List.length listeners) p.
Proof.
  unfold settleInSeries, await, step.
  destruct (settleLoop_grows listeners p 0
              {| transformLog := transformLog s; world := world s;
                 trace := trace s ++ [Emit p] |})
    as (s' & Hrun & Hlog & Htrace).
  exists s'. cbn [transformLog world trace] in Hlog, Htrace.
  split; [exact Hrun|]. split; [assumption|].
  rewrite Htrace. unfold emitted, called. now rewrite <- app_assoc.
Qed.

(** When every [beforeUpdate] listener fulfils, each was called once, in
    registration order. *)
Lemma fulfillLoop_grows (listeners : list BeforeListener) t :
  forall index hints s rs hints' s',
    fulfillLoop listeners index t hints s = (Fulfilled (rs, hints'), s') ->
    grown (transformLog s) (transformLog s') /\
    trace s' = trace s ++ map (fun i => Call i (BeforeUpdate t))
                              (seq index (List.length listeners)) /\
    List.length rs = List.length listeners.
Proof.
  induction listeners as [|listener rest IH]; intros index hints s rs hints' s' H.
  - simpl in H. injection H as <- <- <-. simpl. rewrite app_nil_r.
    split; [apply grown_refl | now split].
  - cbn [fulfillLoop] in H. unfold await at 1 in H. unfold step in H.
    cbn [transformLog world] in H.
    destruct (listener t hints (transformLog s) (world s))
      as [[[[r|error] h1] appended] w]; [|discriminate].
    unfold await at 1 in H. unfold leave in H.
    cbn [transformLog world trace] in H.
    destruct (fulfillLoop rest (S index) t h1 _) as [[[rs1 h2]|error] s2] eqn:E;
      [|discriminate].
    unfold resolve in H. injection H as <- <- <-.
    apply IH in E. cbn [transformLog world trace] in E.
    destruct E as (Hlog & Htrace & Hlen).
    split; [|split].
    + apply (grown_trans _ (transformLog s ++ appended));
        [apply grown_app | assumption].
    + rewrite Htrace, <- app_assoc. reflexivity.
    + simpl. now rewrite Hlen.
Qed.

Lemma fulfillInSeries_grows (listeners : list BeforeListener) t
    hints s rs hints' s' :
  fulfillInSeries listeners t hints s = (Fulfilled (rs, hints'), s') ->
  grown (transformLog s) (transformLog s') /\
  trace s' = trace s ++ emitted (List.length listeners) (BeforeUpdate t) /\
  List.length rs = List.length listeners.
Proof.
  unfold fulfillInSeries, await, step. intros H.
  apply fulfillLoop_grows in H. cbn [transformLog world trace] in H.
  destruct H as (Hlog & Htrace & Hlen). repeat split; try assumption.
  rewrite Htrace, <- app_assoc. reflexivity.
Qed.

(** When the loop of [fulfillInSeries] rejects, it has called the listeners
    up to the one that failed. *)
Lemma fulfillLoop_rejected_steps (listeners : list BeforeListener) t :
  forall index hints s error s',
    fulfillLoop listeners index t hints s = (Rejected error, s') ->
    exists k,
      1 <= k <= List.length listeners /\
      grown (transformLog s) (transformLog s') /\
      trace s' = trace s ++ map (fun i => Call i (BeforeUpdate t)) (seq index k).
Proof.
  induction listeners as [|listener rest IH]; intros index hints s error s' H.
  - discriminate.
  - cbn [fulfillLoop] in H. unfold await at 1 in H. unfold step in H.
    cbn [transformLog world] in H.
    destruct (listener t hints (transformLog s) (world s))
      as [[[[r|error'] h1] appended] w].
    + unfold await at 1 in H. unfold leave in H.
      cbn [transformLog world trace] in H.
      destruct (fulfillLoop rest (S index) t h1 _)
        as [[[rs1 h2]|error'] s2] eqn:E; [discriminate|].
      injection H as <- <-. apply IH in E.
      cbn [transformLog world trace] in E.
      destruct E as (k & Hk & Hlog & Htrace).
      exists (S k). split; [simpl; lia|]. split.
      * apply (grown_trans _ (transformLog s ++ appended));
          [apply grown_app | assumption].
      * rewrite Htrace, <- app_assoc. reflexivity.
    + injection H as <- <-. exists 1. unfold leave.
      cbn [transformLog world trace]. split; [simpl; lia|].
      split; [apply grown_app | reflexivity].
Qed.

Lemma fulfillInSeries_rejected_steps (listeners : list BeforeListener) t
    hints s error s' :
  fulfillInSeries listeners t hints s = (Rejected error, s') ->
  exists k,
    1 <= k <= List.length listeners /\
    grown (transformLog s) (transformLog s') /\
    trace s' = trace s ++ emitted k (BeforeUpdate t).
Proof.
  unfold fulfillInSeries, await, step. intros H.
  apply fulfillLoop_rejected_steps in H. cbn [transformLog world trace] in H.
  destruct H as (k & Hk & Hlog & Htrace).
  exists k. split; [assumption|]. split; [assumption|].
  rewrite Htrace, <- app_assoc. reflexivity.
Qed.

(** *** The methods *)

Variable this : Source.

(** [transformed] never fails: it appends every id to the log, in order, and
    emits [transform] after each. *)
Lemma transformed_grows (transforms : list Transform) : forall s,
  exists s',
    transformed this transforms s = (Fulfilled tt, s') /\
    grown (transformLog s) (transformLog s') /\
    (forall t, In t transforms -> In (id t) (transformLog s')) /\
    trace s' = trace s ++ applied this transforms.
Proof.
  induction transforms as [|t rest IH]; intros s.
  - exists s. simpl. rewrite app_nil_r.
    split; [reflexivity|]. split; [apply grown_refl|].
    split; [intros t []|reflexivity].
  - cbn [transformed]. unfold await at 1. unfold step. unfold await at 1.
    unfold append. unfold await at 1.
    cbn [transformLog world trace].
    destruct (settleInSeries_grows
                (map (fun l => l t) (transformListeners this))
                (TransformEvent t)
                {| transformLog := transformLog s ++ [id t]; world := world s;
                   trace := trace s ++ [LogAppend (id t)] |})
      as (s1 & Hrun1 & Hlog1 & Htrace1).
    cbn [transformLog world trace] in Hlog1, Htrace1. rewrite Hrun1.
    destruct (IH s1) as (s' & Hrun & Hlog & Hin & Htrace).
    exists s'. split; [exact Hrun|]. split; [|split].
    + apply (grown_trans _ (transformLog s1)); [|assumption].
      apply (grown_trans _ (transformLog s ++ [id t]));
        [apply grown_app | assumption].
    + intros t' [<-|Ht']; [|now apply Hin].
      apply (grown_In (transformLog s1)); [assumption|].
      apply (grown_In (transformLog s ++ [id t])); [assumption|].
      apply in_or_app. right. now left.
    + rewrite Htrace, Htrace1, length_map. cbn [applied flat_map].
      rewrite <- !app_assoc. reflexivity.
Qed.

(** The [catch] branch of [__update__]. *)
Lemma updateFail_run t (error : Thrown) s :
  exists s',
    await (settleInSeries (map (fun l => l t error) (updateFailListeners this))
                          (UpdateFail t error))
          (fun _ => reject error) s
    = (Rejected error : Settled FullResponse, s') /\
    grown (transformLog s) (transformLog s') /\
    trace s' = trace s ++ emitted (List.length (updateFailListeners this))
                                  (UpdateFail t error).
Proof.
  destruct (settleInSeries_grows
              (map (fun l => l t error) (updateFailListeners this))
              (UpdateFail t error) s) as (s' & Hrun & Hlog & Htrace).
  exists s'. unfold await. rewrite Hrun. rewrite length_map in Htrace.
  now repeat split.
Qed.

(** The course of [__update__] once the listeners have fulfilled and the
    handler has answered. *)
Lemma __update___fulfilled t s rs hints s1 (response : FullResponse)
    (appended : list string) (w : World) :
  contains (transformLog s) (id t) = false ->
  fulfillInSeries (beforeUpdateListeners this) t emptyHints s
    = (Fulfilled (rs, hints), s1) ->
  _update this t hints (transformLog s1) (world s1)
    = (Fulfilled response, appended, w) ->
  let fullResponse :=
    if Nat.ltb 0 (List.length rs)
    then setSources response (mapNamedFullResponses rs)
    else response in
  exists s',
    __update__ this t s = (Fulfilled fullResponse, s') /\
    grown (transformLog s) (transformLog s') /\
    (forall t', In t' (fieldOf (transforms fullResponse)) ->
                In (id t') (transformLog s')) /\
    trace s' = trace s
               ++ emitted (List.length (beforeUpdateListeners this))
                          (BeforeUpdate t)
               ++ [Handler t hints]
               ++ applied this (fieldOf (transforms fullResponse))
               ++ emitted (List.length (updateListeners this))
                          (UpdateEvent t fullResponse).
Proof.
  intros Hfresh Hbefore Hhandler fullResponse.
  pose proof (fulfillInSeries_grows _ _ _ _ _ _ _ Hbefore)
    as (Hlog1 & Htrace1 & _).
  set (s2 := {| transformLog := transformLog s1 ++ appended; world := w;
                trace := trace s1 ++ [Handler t hints] |}).
  destruct (transformed_grows (fieldOf (transforms fullResponse)) s2)
    as (s3 & Happlied & Hlog3 & Hin3 & Htrace3).
  destruct (settleInSeries_grows
              (map (fun l => l t fullResponse) (updateListeners this))
              (UpdateEvent t fullResponse) s3)
    as (s4 & Hsettled & Hlog4 & Htrace4).
  rewrite length_map in Htrace4.
  exists s4. split; [|split; [|split]].
  - unfold __update__. rewrite Hfresh.
    unfold tryCatch. unfold await at 1. rewrite Hbefore. cbn [fst snd].
    unfold await at 1. unfold callHandler, await at 1, step.
    cbn [transformLog world]. rewrite Hhandler. unfold leave.
    cbn [transformLog world trace]. fold s2. fold fullResponse.
    assert (Hts : (match transforms fullResponse with
                   | Some (t0 :: ts) => transformed this (t0 :: ts)
                   | _ => resolve tt
                   end) s2 = (Fulfilled tt, s3)).
    { destruct (transforms fullResponse) as [[|t0 ts]|];
        try exact Happlied;
        simpl in Happlied; unfold resolve in Happlied |- *;
        rewrite Happlied; reflexivity. }
    unfold await at 1. rewrite Hts.
    unfold await at 1. rewrite Hsettled. reflexivity.
  - apply (grown_trans _ (transformLog s1)); [assumption|].
    apply (grown_trans _ (transformLog s2)); [apply grown_app|].
    now apply (grown_trans _ (transformLog s3)).
  - intros t' Ht'. apply (grown_In (transformLog s3)); [assumption|].
    now apply Hin3.
  - rewrite Htrace4, Htrace3. subst s2. cbn [trace]. rewrite Htrace1.
    rewrite <- !app_assoc. reflexivity.
Qed.

(** The course of [__update__] once the listeners have fulfilled and the
    handler has failed. *)
Lemma __update___handler_rejected t s rs hints s1 (error : Thrown)
    (appended : list string) (w : World) :
  contains (transformLog s) (id t) = false ->
  fulfillInSeries (beforeUpdateListeners this) t emptyHints s
    = (Fulfilled (rs, hints), s1) ->
  _update this t hints (transformLog s1) (world s1)
    = (Rejected error, appended, w) ->
  exists s',
    __update__ this t s = (Rejected error, s') /\
    grown (transformLog s) (transformLog s') /\
    trace s' = trace s
               ++ emitted (List.length (beforeUpdateListeners this))
                          (BeforeUpdate t)
               ++ [Handler t hints]
               ++ emitted (List.length (updateFailListeners this))
                          (UpdateFail t error).
Proof.
  intros Hfresh Hbefore Hhandler.
  pose proof (fulfillInSeries_grows _ _ _ _ _ _ _ Hbefore)
    as (Hlog1 & Htrace1 & _).
  set (s2 := {| transformLog := transformLog s1 ++ appended; world := w;
                trace := trace s1 ++ [Handler t hints] |}).
  destruct (updateFail_run t error s2) as (s' & Hfail & Hlog & Htrace).
  exists s'. split; [|split].
  - unfold __update__. rewrite Hfresh.
    unfold tryCatch. unfold await at 1. rewrite Hbefore. cbn [fst snd].
    unfold await at 1. unfold callHandler, await at 1, step.
    cbn [transformLog world]. rewrite Hhandler. unfold leave.
    cbn [transformLog world trace]. fold s2. exact Hfail.
  - apply (grown_trans _ (transformLog s1)); [assumption|].
    apply (grown_trans _ (transformLog s2)); [apply grown_app | assumption].
  - rewrite Htrace. subst s2. cbn [trace]. rewrite Htrace1.
    rewrite <- !app_assoc. reflexivity.
Qed.

(** The course of [__update__] once a listener has failed. *)
Lemma __update___before_rejected t s (error : Thrown) s1 :
  contains (transformLog s) (id t) = false ->
  fulfillInSeries (beforeUpdateListeners this) t emptyHints s
    = (Rejected error, s1) ->
  exists k s',
    1 <= k <= List.length (beforeUpdateListeners this) /\
    __update__ this t s = (Rejected error, s') /\
    grown (transformLog s) (transformLog s') /\
    trace s' = trace s
               ++ emitted k (BeforeUpdate t)
               ++ emitted (List.length (updateFailListeners this))
                          (UpdateFail t error).
Proof.
  intros Hfresh Hbefore.
  destruct (fulfillInSeries_rejected_steps _ _ _ _ _ _ Hbefore)
    as (k & Hk & Hlog1 & Htrace1).
  destruct (updateFail_run t error s1) as (s' & Hfail & Hlog & Htrace).
  exists k, s'. split; [assumption|]. split; [|split].
  - unfold __update__. rewrite Hfresh.
    unfold tryCatch. unfold await at 1. rewrite Hbefore. exact Hfail.
  - now apply (grown_trans _ (transformLog s1)).
  - rewrite Htrace, Htrace1, <- !app_assoc. reflexivity.
Qed.

(** X16. A request whose transform is not logged when it starts, whose
    [beforeUpdate] listeners all fulfil and whose handler rejects with
    [error], rejects with that same [error], whatever the listeners and the
    handler append to the transform log meanwhile.  Every listener of
    [beforeUpdate] was called, then the handler with the hints they left,
    then the [updateFail] event with the transform and [error]:
    [beforeUpdate] and [updateFail] are the only events emitted, the handler
    is called once, the protocol makes no log entry of its own, and the log
    keeps what it held. *)
Theorem update_rejects_when_handler_rejects t s rs hints s1 (error : Thrown)
    (appended : list string) (w : World) :
  contains (transformLog s) (id t) = false ->
  fulfillInSeries (beforeUpdateListeners this) t emptyHints s
    = (Fulfilled (rs, hints), s1) ->
  _update this t hints (transformLog s1) (world s1)
    = (Rejected error, appended, w) ->
  exists s' steps,
    __update__ this t s = (Rejected error, s') /\
    trace s' = trace s ++ steps /\
    steps = emitted (List.length (beforeUpdateListeners this))
                    (BeforeUpdate t)
            ++ [Handler t hints]
            ++ emitted (List.length (updateFailListeners this))
                       (UpdateFail t error) /\
    events steps = [BeforeUpdate t; UpdateFail t error] /\
    handled steps = [(t, hints)] /\
    logged steps = [] /\
    grown (transformLog s) (transformLog s').
Proof.
  intros Hfresh Hbefore Hhandler.
  destruct (__update___handler_rejected t s rs hints s1 error appended w
              Hfresh Hbefore Hhandler) as (s' & Hrun & Hlog & Htrace).
  exists s'. eexists. split; [exact Hrun|]. split; [exact Htrace|].
  split; [reflexivity|].
  rewrite !events_app, !handled_app, !logged_app.
  rewrite !events_emitted, !handled_emitted, !logged_emitted.
  now repeat split.
Qed.

(** X17. A transform that the handler reports among the transforms of its
    response is deduped on retry, whatever the listeners and the handler
    append to the transform log meanwhile: after the fulfilled request the
    log contains the transform's id, it still contains every id it held
    before, and the same request made again resolves with
    [{ transforms: [] }] and leaves the source as it is, no listener and no
    handler called. *)
Theorem retried_update_is_deduped_when_reported t s rs hints s1
    (response : FullResponse) (appended : list string) (w : World) :
  contains (transformLog s) (id t) = false ->
  fulfillInSeries (beforeUpdateListeners this) t emptyHints s
    = (Fulfilled (rs, hints), s1) ->
  _update this t hints (transformLog s1) (world s1)
    = (Fulfilled response, appended, w) ->
  let fullResponse :=
    if Nat.ltb 0 (List.length rs)
    then setSources response (mapNamedFullResponses rs)
    else response in
  In (id t) (map id (fieldOf (transforms fullResponse))) ->
  exists s',
    __update__ this t s = (Fulfilled fullResponse, s') /\
    contains (transformLog s') (id t) = true /\
    (forall transformId,
       contains (transformLog s) transformId = true ->
       contains (transformLog s') transformId = true) /\
    __update__ this t s' = (Fulfilled emptyTransformsResponse, s').
Proof.
  intros Hfresh Hbefore Hhandler fullResponse Hreported.
  destruct (__update___fulfilled t s rs hints s1 response appended w
              Hfresh Hbefore Hhandler) as (s' & Hrun & Hlog & Hin & _).
  fold fullResponse in Hrun, Hin.
  assert (Hlogged : contains (transformLog s') (id t) = true).
  { apply contains_In. apply in_map_iff in Hreported.
    destruct Hreported as (t' & <- & Ht'). now apply Hin. }
  exists s'. split; [exact Hrun|]. split; [exact Hlogged|]. split.
  - intros transformId. now apply grown_contains.
  - unfold __update__. now rewrite Hlogged.
Qed.

(** X18. A request whose transform is not logged when it starts takes one
    of three courses, whatever the listeners and the handler do, to the
    transform log included.  A [beforeUpdate] listener fails: the listeners
    up to it were called, the [updateFail] event follows and the request
    rejects with the listener's error.  The handler fails: all listeners
    were called, then the handler, the [updateFail] event follows and the
    request rejects with the handler's error.  Or the request is fulfilled,
    after the handler, the transforms of the response and the [update]
    event.  So a rejection always follows an [updateFail] event with the
    same error, the handler is called once at most, the log keeps what it
    held, and the protocol adds to it in a fulfilled request only: the ids
    of the transforms of the response. *)
Theorem update_takes_one_of_three_courses t s :
  contains (transformLog s) (id t) = false ->
  exists s' steps,
    trace s' = trace s ++ steps /\
    grown (transformLog s) (transformLog s') /\
    ((exists k error,
        1 <= k <= List.length (beforeUpdateListeners this) /\
        __update__ this t s = (Rejected error, s') /\
        steps = emitted k (BeforeUpdate t)
                ++ emitted (List.length (updateFailListeners this))
                           (UpdateFail t error) /\
        handled steps = [] /\
        logged steps = [])
     \/
     (exists hints error,
        __update__ this t s = (Rejected error, s') /\
        steps = emitted (List.length (beforeUpdateListeners this))
                        (BeforeUpdate t)
                ++ [Handler t hints]
                ++ emitted (List.length (updateFailListeners this))
                           (UpdateFail t error) /\
        handled steps = [(t, hints)] /\
        logged steps = [])
     \/
     (exists hints fullResponse,
        __update__ this t s = (Fulfilled fullResponse, s') /\
        steps = emitted (List.length (beforeUpdateListeners this))
                        (BeforeUpdate t)
                ++ [Handler t hints]
                ++ applied this (fieldOf (transforms fullResponse))
                ++ emitted (List.length (updateListeners this))
                           (UpdateEvent t fullResponse) /\
        handled steps = [(t, hints)] /\
        logged steps = map id (fieldOf (transforms fullResponse)) /\
        forall t', In t' (fieldOf (transforms fullResponse)) ->
                   contains (transformLog s') (id t') = true)).
Proof.
  intros Hfresh.
  destruct (fulfillInSeries (beforeUpdateListeners this) t
                            emptyHints s) as [[[rs hints]|error] s1] eqn:Hbefore.
  - destruct (_update this t hints (transformLog s1) (world s1))
      as [[[response|error] appended] w] eqn:Hhandler.
    + destruct (__update___fulfilled t s rs hints s1 response appended w
                  Hfresh Hbefore Hhandler) as (s' & Hrun & Hlog & Hin & Htrace).
      exists s'. eexists. split; [exact Htrace|]. split; [exact Hlog|].
      right. right. exists hints. eexists.
      split; [exact Hrun|]. split; [reflexivity|].
      rewrite !handled_app, !logged_app.
      rewrite !handled_emitted, !logged_emitted.
      destruct (shown_applied this
                  (fieldOf (transforms
                     (if Nat.ltb 0 (List.length rs)
                      then setSources response (mapNamedFullResponses rs)
                      else response)))) as (-> & _ & ->).
      split; [reflexivity|]. split; [simpl; now rewrite app_nil_r|].
      intros t' Ht'. apply contains_In. now apply Hin.
    + destruct (__update___handler_rejected t s rs hints s1 error appended w
                  Hfresh Hbefore Hhandler) as (s' & Hrun & Hlog & Htrace).
      exists s'. eexists. split; [exact Htrace|]. split; [exact Hlog|].
      right. left. exists hints, error.
      split; [exact Hrun|]. split; [reflexivity|].
      rewrite !handled_app, !logged_app.
      rewrite !handled_emitted, !logged_emitted. now split.
  - destruct (__update___before_rejected t s error s1 Hfresh Hbefore)
      as (k & s' & Hk & Hrun & Hlog & Htrace).
    exists s'. eexists. split; [exact Htrace|]. split; [exact Hlog|].
    left. exists k, error.
    split; [assumption|]. split; [exact Hrun|]. split; [reflexivity|].
    rewrite !handled_app, !logged_app.
    rewrite !handled_emitted, !logged_emitted. now split.
Qed.

End Flow.

(** *** Listeners that leave the log alone

    A source of [Updatable] runs here as it runs there. *)

Section Quiet.

Context {types : Types}.
Context {imports : Imports}.

Implicit Types (s : State) (t : Transform) (p : Payload).

Lemma await_ext {A B : Type} (m m' : Async A) (k k' : A -> Async B) s :
  m s = m' s ->
  (forall a s1, k a s1 = k' a s1) ->
  await m k s = await m' k' s.
Proof.
  intros Hm Hk. unfold await. rewrite Hm.
  destruct (m' s) as [[a|error] s1]; [apply Hk | reflexivity].
Qed.

Lemma tryCatch_ext {A : Type} (m m' : Async A) (h h' : Thrown -> Async A) s :
  m s = m' s ->
  (forall error s1, h error s1 = h' error s1) ->
  tryCatch m h s = tryCatch m' h' s.
Proof.
  intros Hm Hh. unfold tryCatch. rewrite Hm.
  destruct (m' s) as [[a|error] s1]; [reflexivity | apply Hh].
Qed.

Lemma leave_nothing (w : World) s : leave [] w s = setWorld w s.
Proof. unfold leave, setWorld. now rewrite app_nil_r. Qed.

Lemma settleLoop_quiet (listeners : list Updatable.Listener) p :
  forall index s,
    settleLoop (map quietListener listeners) index p s
    = Updatable.settleLoop listeners index p s.
Proof.
  induction listeners as [|listener rest IH]; intros index s; [reflexivity|].
  cbn [map settleLoop Updatable.settleLoop].
  apply await_ext; [reflexivity|]. intros _ s1.
  apply await_ext; [|intros _ s2; apply IH].
  unfold quietListener. destruct (listener (world s1)) as [r w'].
  cbn [snd]. now rewrite leave_nothing.
Qed.

Lemma settleInSeries_quiet (listeners : list Updatable.Listener) p s :
  settleInSeries (map quietListener listeners) p s
  = Updatable.settleInSeries listeners p s.
Proof.
  unfold settleInSeries, Updatable.settleInSeries.
  apply await_ext; [reflexivity|]. intros _ s1. apply settleLoop_quiet.
Qed.

Lemma fulfillLoop_quiet (listeners : list Updatable.BeforeListener) t :
  forall index hints s,
    fulfillLoop (map quietBefore listeners) index t hints s
    = Updatable.fulfillLoop listeners index t hints s.
Proof.
  induction listeners as [|listener rest IH]; intros index hints s;
    [reflexivity|].
  cbn [map fulfillLoop Updatable.fulfillLoop].
  apply await_ext; [reflexivity|]. intros _ s1.
  unfold quietBefore.
  destruct (listener t hints (world s1)) as [[[r|error] hints'] w'];
    rewrite leave_nothing; [|reflexivity].
  apply await_ext; [apply IH | reflexivity].
Qed.

Lemma fulfillInSeries_quiet (listeners : list Updatable.BeforeListener) t
    hints s :
  fulfillInSeries (map quietBefore listeners) t hints s
  = Updatable.fulfillInSeries listeners t hints s.
Proof.
  unfold fulfillInSeries, Updatable.fulfillInSeries.
  apply await_ext; [reflexivity|]. intros _ s1. apply fulfillLoop_quiet.
Qed.

Variable source : Updatable.Source.

Lemma transformed_quiet (transforms : list Transform) : forall s,
  transformed (quiet source) transforms s
  = Updatable.transformed source transforms s.
Proof.
  induction transforms as [|t rest IH]; intros s; [reflexivity|].
  cbn [transformed Updatable.transformed].
  apply await_ext; [reflexivity|]. intros _ s1.
  apply await_ext; [reflexivity|]. intros _ s2.
  apply await_ext; [|intros _ s3; apply IH].
  cbn [quiet transformListeners].
  rewrite map_map, <- (map_map (fun l => l t) quietListener).
  apply settleInSeries_quiet.
Qed.

Lemma callHandler_quiet t (hints : ResponseHints) s :
  callHandler (quiet source) t hints s
  = Updatable.callHandler source t hints s.
Proof.
  unfold callHandler, Updatable.callHandler.
  apply await_ext; [reflexivity|]. intros _ s1.
  cbn [quiet _update].
  destruct (Updatable._update source t hints (world s1)) as [r w'].
  now rewrite leave_nothing.
Qed.

(** [__update__] over listeners and a handler that leave the log alone is
    the [__update__] of [Updatable]. *)
Lemma __update___quiet t s :
  __update__ (quiet source) t s = Updatable.__update__ source t s.
Proof.
  unfold __update__, Updatable.__update__.
  destruct (contains (transformLog s) (id t)); [reflexivity|].
  apply tryCatch_ext.
  - apply await_ext; [apply fulfillInSeries_quiet|]. intros before s1.
    apply await_ext; [apply callHandler_quiet|]. intros fullResponse s2.
    apply await_ext.
    + destruct (transforms _) as [[|t0 ts]|]; try reflexivity.
      apply transformed_quiet.
    + intros _ s3. apply await_ext; [|reflexivity].
      cbn [quiet updateListeners].
      rewrite map_map,
        <- (map_map (fun l => l t _) quietListener).
      apply settleInSeries_quiet.
  - intros error s1. apply await_ext; [|reflexivity].
    cbn [quiet updateFailListeners].
    rewrite map_map, <- (map_map (fun l => l t error) quietListener).
    apply settleInSeries_quiet.
Qed.

End Quiet.

(** *** The sample source *)

Section Samples.

#[local] Existing Instance sampleTypes.
#[local] Existing Instance sampleImports.

(** X16, witness: the listener appends the id of the request's transform to
    the log, and the handler fails with [':(']. *)
Lemma update_rejects_when_handler_rejects_witness :
  let this := sharedSource [claiming "a"] refusing in
  let t := sampleTransform "t0" in
  exists s' steps,
    __update__ this t (sampleState []) = (Rejected ":(", s') /\
    trace s' = trace (sampleState []) ++ steps /\
    steps = emitted 1 (BeforeUpdate t)
            ++ [Handler t emptyHints]
            ++ emitted 1 (UpdateFail t ":(") /\
    events steps = [BeforeUpdate t; UpdateFail t ":("] /\
    handled steps = [(t, emptyHints)] /\
    logged steps = [] /\
    grown (transformLog (sampleState [])) (transformLog s').
Proof.
  intros this t.
  apply (@update_rejects_when_handler_rejects sampleTypes sampleImports
           this t (sampleState [])
           [None]
           (@emptyHints sampleTypes)
           (@Build_State sampleTypes ["t0"] ["a"]
              (emitted 1 (BeforeUpdate t)))
           ":(" [] ["a"; "_update"]);
    reflexivity.
Defined.

(** X17, witness: the request [t1], which the handler reports among its
    transforms, and its retry; the listeners append to the log. *)
Lemma retried_update_is_deduped_when_reported_witness :
  let this := sharedSource [stamping "a"] answering in
  let t := sampleTransform "t1" in
  let fullResponse : FullResponse :=
    {| data := None; details := None;
       transforms := Some [sampleTransform "t1"; sampleTransform "t2"];
       sources := Some [] |} in
  exists s',
    __update__ this t (sampleState []) = (Fulfilled fullResponse, s') /\
    contains (transformLog s') "t1" = true /\
    (forall transformId,
       contains (transformLog (sampleState [])) transformId = true ->
       contains (transformLog s') transformId = true) /\
    __update__ this t s' = (Fulfilled emptyTransformsResponse, s').
Proof.
  intros this t fullResponse.
  apply (@retried_update_is_deduped_when_reported sampleTypes sampleImports
           this t (sampleState [])
           [None]
           (@emptyHints sampleTypes)
           (@Build_State sampleTypes ["a"] ["a"]
              (emitted 1 (BeforeUpdate t)))
           (@Build_FullResponse sampleTypes None None
              (Some [sampleTransform "t1"; sampleTransform "t2"]) None)
           [] ["a"; "_update"]);
    try reflexivity.
  simpl. now left.
Defined.

(** X18, witness: a request on the sample source. *)
Lemma update_takes_one_of_three_courses_witness :
  let this := sharedSource [claiming "a"] answering in
  let t := sampleTransform "t0" in
  let s := sampleState [] in
  exists s' steps,
    trace s' = trace s ++ steps /\
    grown (transformLog s) (transformLog s') /\
    ((exists k error,
        1 <= k <= 1 /\
        __update__ this t s = (Rejected error, s') /\
        steps = emitted k (BeforeUpdate t)
                ++ emitted 1 (UpdateFail t error) /\
        handled steps = [] /\
        logged steps = [])
     \/
     (exists hints error,
        __update__ this t s = (Rejected error, s') /\
        steps = emitted 1 (BeforeUpdate t)
                ++ [Handler t hints]
                ++ emitted 1 (UpdateFail t error) /\
        handled steps = [(t, hints)] /\
        logged steps = [])
     \/
     (exists hints fullResponse,
        __update__ this t s = (Fulfilled fullResponse, s') /\
        steps = emitted 1 (BeforeUpdate t)
                ++ [Handler t hints]
                ++ applied this (fieldOf (transforms fullResponse))
                ++ emitted 1 (UpdateEvent t fullResponse) /\
        handled steps = [(t, hints)] /\
        logged steps = map id (fieldOf (transforms fullResponse)) /\
        forall t', In t' (fieldOf (transforms fullResponse)) ->
                   contains (transformLog s') (id t') = true)).
Proof.
  intros this t s.
  apply (@update_takes_one_of_three_courses sampleTypes sampleImports
           this t s).
  reflexivity.
Defined.

End Samples.

End SharedLogProofs.
